(** * Pokedex viewer: the encounter and persistence core of [pokedex_viewer.py]

    A shallow embedding of the module-level helpers ([fetch_json],
    [get_pokemon], the four persistence helpers), of [PokemonWorker.run] and
    of the methods of [PokedexViewer] that read or change the ledger, the
    shiny history and the dex grid.

    Conventions.
    - A Python [str] is a Rocq [string] holding the UTF-8 encoding of its code
      points; a file holds the text [read_text] returns.
    - Python values are dynamically typed ([pyval]); an operation applied to
      a value of the wrong type raises, as in Python.
    - Code that can raise lives in a state-and-exception monad over the
      world (files, remote service, pending disk faults) and, for the
      widget's methods, over the widget and the world.
    - What the environment decides (random draws, the clock, the answers of
      the remote service, disk faults) is an explicit input. *)

From Stdlib Require Import ZArith String Ascii List Bool Lia.
From stdpp Require Import gmap strings pretty.

Local Open Scope Z_scope.
Set Warnings "-register-all".
Set Default Proof Using "Type".

(** ** Text *)

Module Text.

Definition chr (n : nat) : ascii := ascii_of_nat n.
Definition ord (c : ascii) : Z := Z.of_nat (nat_of_ascii c).

Definition chars (s : string) : list ascii := list_ascii_of_string s.
Definition text (l : list ascii) : string := string_of_list_ascii l.

(** A string given by its byte values. *)
Definition bytes (l : list nat) : string := text (map chr l).

Definition quote : ascii := chr 34.
Definition backslash : ascii := chr 92.
Definition LF : ascii := chr 10.
Definition FF : ascii := chr 12.
Definition CR : ascii := chr 13.

Definition is_digit (c : ascii) : bool := (48 <=? ord c) && (ord c <=? 57).
Definition is_lower (c : ascii) : bool := (97 <=? ord c) && (ord c <=? 122).
Definition is_upper (c : ascii) : bool := (65 <=? ord c) && (ord c <=? 90).

Definition upper (c : ascii) : ascii :=
  if is_lower c then chr (Z.to_nat (ord c - 32)) else c.
Definition lower (c : ascii) : ascii :=
  if is_upper c then chr (Z.to_nat (ord c + 32)) else c.

Definition eqb_char (a b : ascii) : bool := Ascii.eqb a b.

Fixpoint starts_with (p l : list ascii) : bool :=
  match p, l with
  | [], _ => true
  | a :: p', b :: l' => eqb_char a b && starts_with p' l'
  | _ :: _, [] => false
  end.

(** The first of [ps] that [l] starts with. *)
Fixpoint first_prefix (ps : list (list ascii)) (l : list ascii) : option (list ascii) :=
  match ps with
  | [] => None
  | p :: ps' => if starts_with p l then Some p else first_prefix ps' l
  end.

(** [str.replace(a, b)] for one-character [a] and [b]. *)
Definition replace_char (a b : ascii) (s : string) : string :=
  text (map (fun c => if eqb_char c a then b else c) (chars s)).

(** The characters [str.strip()] removes: those for which [str.isspace]
    holds, as UTF-8. *)
Definition whitespace : list (list ascii) :=
  map (map chr)
    [ [9%nat]; [10%nat]; [11%nat]; [12%nat]; [13%nat]; [28%nat]; [29%nat]; [30%nat]; [31%nat]; [32%nat];
      [194; 133]%nat; [194; 160]%nat; [225; 154; 128]%nat;
      [226; 128; 128]%nat; [226; 128; 129]%nat; [226; 128; 130]%nat;
      [226; 128; 131]%nat; [226; 128; 132]%nat; [226; 128; 133]%nat;
      [226; 128; 134]%nat; [226; 128; 135]%nat; [226; 128; 136]%nat;
      [226; 128; 137]%nat; [226; 128; 138]%nat; [226; 128; 168]%nat;
      [226; 128; 169]%nat; [226; 128; 175]%nat; [226; 129; 159]%nat;
      [227; 128; 128]%nat ].

Fixpoint drop_leading (fuel : nat) (ps : list (list ascii)) (l : list ascii) : list ascii :=
  match fuel with
  | O => l
  | S fuel' =>
      match first_prefix ps l with
      | Some p => drop_leading fuel' ps (drop (length p) l)
      | None => l
      end
  end.

Definition lstrip_of (ps : list (list ascii)) (l : list ascii) : list ascii :=
  drop_leading (length l) ps l.
Definition rstrip_of (ps : list (list ascii)) (l : list ascii) : list ascii :=
  rev (lstrip_of (map (@rev ascii) ps) (rev l)).

(** [str.strip()] *)
Definition strip (s : string) : string :=
  text (rstrip_of whitespace (lstrip_of whitespace (chars s))).

(** [str.lstrip(c)] for a one-character [c]. *)
Definition lstrip_char (c : ascii) (s : string) : string :=
  text (lstrip_of [[c]] (chars s)).

(** [str.capitalize()]: first character upper-cased, the rest lower-cased.
    Case mapping covers the ASCII letters; other characters are kept. *)
Definition capitalize (s : string) : string :=
  match chars s with
  | [] => ""
  | c :: r => text (upper c :: map lower r)
  end.

Definition startswith (p s : string) : bool := starts_with (chars p) (chars s).

(** [sep.join(parts)] *)
Fixpoint join (sep : string) (parts : list string) : string :=
  match parts with
  | [] => ""
  | [p] => p
  | p :: rest => p +:+ sep +:+ join sep rest
  end.

(** The line boundaries of [str.splitlines()], as UTF-8; CR LF comes first
    so that it counts as one boundary. *)
Definition line_breaks : list (list ascii) :=
  map (map chr)
    [ [13; 10]%nat; [10%nat]; [13%nat]; [11%nat]; [12%nat]; [28%nat]; [29%nat]; [30%nat];
      [194; 133]%nat; [226; 128; 168]%nat; [226; 128; 169]%nat ].

(** [cur] is the line being read, reversed. *)
Fixpoint split_lines (fuel : nat) (cur : list ascii) (l : list ascii) : list string :=
  match fuel with
  | O => []
  | S fuel' =>
      match l with
      | [] => match cur with [] => [] | _ => [text (rev cur)] end
      | c :: r =>
          match first_prefix line_breaks l with
          | Some p => text (rev cur) :: split_lines fuel' [] (drop (length p) l)
          | None => split_lines fuel' (c :: cur) r
          end
      end
  end.

(** [str.splitlines()] *)
Definition splitlines (s : string) : list string :=
  split_lines (S (String.length s)) [] (chars s).

(** The characters of a [str], one string per code point. *)
Definition utf8_len (c : ascii) : nat :=
  if ord c <? 192 then 1%nat
  else if ord c <? 224 then 2%nat
  else if ord c <? 240 then 3%nat
  else 4%nat.

Fixpoint code_points (fuel : nat) (l : list ascii) : list string :=
  match fuel with
  | O => []
  | S fuel' =>
      match l with
      | [] => []
      | c :: _ => text (take (utf8_len c) l) :: code_points fuel' (drop (utf8_len c) l)
      end
  end.

Definition characters (s : string) : list string :=
  code_points (String.length s) (chars s).

(** Decimal digits of a natural number, [width] of them at least. *)
Definition zero_pad (width : nat) (s : string) : string :=
  text (replicate (width - String.length s) "0"%char) +:+ s.

(** [format(n, "03d")] and the other zero-padded fields: the sign counts in
    the width. *)
Definition fmt_0d (width : nat) (n : Z) : string :=
  if n <? 0 then "-" +:+ zero_pad (width - 1) (pretty (- n))
  else zero_pad width (pretty n).

Definition digit_value (c : ascii) : Z := ord c - 48.

(** Digits with single underscores between them, as [int()] reads them. *)
Fixpoint read_digits (acc : Z) (after_digit : bool) (l : list ascii) : option Z :=
  match l with
  | [] => if after_digit then Some acc else None
  | c :: r =>
      if is_digit c then read_digits (10 * acc + digit_value c) true r
      else if eqb_char c "_"%char && after_digit then
        match r with
        | d :: _ => if is_digit d then read_digits acc false r else None
        | [] => None
        end
      else None
  end.

(** The code point a UTF-8 sequence encodes; [-1] for bytes that are no
    such sequence. *)
Definition code_point (l : list ascii) : Z :=
  match l with
  | [a] => if ord a <? 128 then ord a else -1
  | [a; b] => (ord a - 192) * 64 + (ord b - 128)
  | [a; b; c] => (ord a - 224) * 4096 + (ord b - 128) * 64 + (ord c - 128)
  | [a; b; c; d] => (ord a - 240) * 262144 + (ord b - 128) * 4096 + (ord c - 128) * 64 + (ord d - 128)
  | _ => -1
  end.

(** The whitespace of Unicode outside ASCII. *)
Definition unicode_spaces : list Z :=
  [ 133; 160; 5760; 8192; 8193; 8194; 8195; 8196; 8197; 8198; 8199; 8200; 8201; 8202;
    8232; 8233; 8239; 8287; 12288 ].

(** The decimal digits of Unicode (version 14.0, the database of CPython
    3.11): the code point of each zero; the nine code points after a zero
    are its 1 to 9. *)
Definition decimal_zeros : list Z :=
  [ 48; 1632; 1776; 1984; 2406; 2534; 2662; 2790; 2918; 3046; 3174; 3302; 3430; 3558;
    3664; 3792; 3872; 4160; 4240; 6112; 6160; 6470; 6608; 6784; 6800; 6992; 7088; 7232;
    7248; 42528; 43216; 43264; 43472; 43504; 43600; 44016; 65296; 66720; 68912; 69734;
    69872; 69942; 70096; 70384; 70736; 70864; 71248; 71360; 71472; 71904; 72016; 72784;
    73040; 73120; 92768; 92864; 93008; 120782; 120792; 120802; 120812; 120822; 123200;
    123632; 125264; 130032 ].

Definition decimal_of (cp : Z) : option Z :=
  option_map (fun zero => cp - zero)
             (find (fun zero => (zero <=? cp) && (cp <? zero + 10)) decimal_zeros).

(** What [int()] makes of a character of a [str] before it reads the
    number: an ASCII character is kept, another whitespace becomes a space,
    another decimal digit the ASCII digit of its value, and anything else a
    character no number holds. *)
Definition to_ascii (ch : string) : ascii :=
  let cp := code_point (chars ch) in
  if (0 <=? cp) && (cp <? 128) then chr (Z.to_nat cp)
  else if existsb (Z.eqb cp) unicode_spaces then " "%char
  else match decimal_of cp with
       | Some d => chr (Z.to_nat (48 + d))
       | None => "?"%char
       end.

(** The whitespace [int()] skips around the number, once the string is
    ASCII: the C one, without the separators U+001C to U+001F. *)
Definition int_spaces : list (list ascii) :=
  map (map chr) [ [9%nat]; [10%nat]; [11%nat]; [12%nat]; [13%nat]; [32%nat] ].

(** The most digits [int()] converts (CPython 3.11, [sys.int_max_str_digits]
    at its default). *)
Definition MAX_STR_DIGITS : nat := 4300.

(** [int(s)] for a string: surrounding whitespace, an optional sign, decimal
    digits with single underscores between them, the digits of any script
    of Unicode. [None] is Python's [ValueError]. *)
Definition parse_int (s : string) : option Z :=
  let l := map to_ascii (characters s) in
  match rstrip_of int_spaces (lstrip_of int_spaces l) with
  | [] => None
  | c :: r =>
      let digits := if eqb_char c "-"%char || eqb_char c "+"%char then r else c :: r in
      if (MAX_STR_DIGITS <? length (List.filter is_digit digits))%nat then None
      else if eqb_char c "-"%char then option_map Z.opp (read_digits 0 false r)
      else if eqb_char c "+"%char then read_digits 0 false r
      else read_digits 0 false (c :: r)
  end.

End Text.

(** ** Python values and exceptions *)

Module Py.

(** The exception classes the program can meet; all derive from
    [Exception]. [RequestException] stands for the transport errors of
    [requests] (connection, timeout, bad URL), [HTTPError] for the one
    [raise_for_status] raises. *)
Inductive exn_class : Type :=
| FileNotFoundError | OSError | JSONDecodeError
| KeyError | IndexError | TypeError | AttributeError | ValueError
| RequestException | HTTPError.

(** An exception: its class and [str(e)]. The messages of the library
    exceptions are shortened; no property below depends on their text. *)
Inductive exn : Type := Exn (c : exn_class) (msg : string).

Definition exn_str (e : exn) : string := match e with Exn _ m => m end.

Inductive result (A : Type) : Type :=
| Ok (a : A)
| Raise (e : exn).
Arguments Ok {A} a.
Arguments Raise {A} e.

Definition rbind {A B} (r : result A) (k : A -> result B) : result B :=
  match r with
  | Ok a => k a
  | Raise e => Raise e
  end.

Definition raise {A} (c : exn_class) (msg : string) : result A := Raise (Exn c msg).

Fixpoint rmap {A B} (f : A -> result B) (l : list A) : result (list B) :=
  match l with
  | [] => Ok []
  | x :: r => rbind (f x) (fun y => rbind (rmap f r) (fun ys => Ok (y :: ys)))
  end.

(** A float: a decimal [(-1)^neg * m * 10^e], an infinity or a NaN. The
    rounding of a decimal to binary64 is not modelled: a literal stands for
    its exact value. *)
Inductive float : Type :=
| FNan
| FInf (neg : bool)
| FDec (neg : bool) (m : N) (e : Z).

(** The values of the program: what [json.loads] builds, and dicts with
    other keys than strings, which the program itself creates. A dict keeps
    its items in insertion order. *)
Inductive pyval : Type :=
| PNone
| PBool (b : bool)
| PInt (z : Z)
| PFloat (f : float)
| PStr (s : string)
| PList (l : list pyval)
| PDict (d : list (pyval * pyval)).

Definition hashable (v : pyval) : bool :=
  match v with
  | PList _ | PDict _ => false
  | _ => true
  end.

Definition type_name (v : pyval) : string :=
  match v with
  | PNone => "NoneType"
  | PBool _ => "bool"
  | PInt _ => "int"
  | PFloat _ => "float"
  | PStr _ => "str"
  | PList _ => "list"
  | PDict _ => "dict"
  end.

(** *** Numbers: bools, ints and floats compare by value *)

Inductive xnum : Type :=
| XNan | XNegInf | XPosInf
| XFin (m e : Z).   (* m * 10^e *)

Definition xnum_of (v : pyval) : option xnum :=
  match v with
  | PBool b => Some (XFin (Z.b2z b) 0)
  | PInt z => Some (XFin z 0)
  | PFloat FNan => Some XNan
  | PFloat (FInf neg) => Some (if neg then XNegInf else XPosInf)
  | PFloat (FDec neg m e) => Some (XFin (if neg then - Z.of_N m else Z.of_N m) e)
  | _ => None
  end.

Definition fin_compare (m1 e1 m2 e2 : Z) : comparison :=
  let e := Z.min e1 e2 in
  (m1 * 10 ^ (e1 - e)) ?= (m2 * 10 ^ (e2 - e)).

Definition xnum_eqb (a b : xnum) : bool :=
  match a, b with
  | XNegInf, XNegInf | XPosInf, XPosInf => true
  | XFin m1 e1, XFin m2 e2 =>
      match fin_compare m1 e1 m2 e2 with Eq => true | _ => false end
  | _, _ => false
  end.

(** [a > b] *)
Definition xnum_gtb (a b : xnum) : bool :=
  match a, b with
  | XNan, _ | _, XNan => false
  | XPosInf, XPosInf => false
  | XPosInf, _ => true
  | _, XPosInf => false
  | XNegInf, _ => false
  | _, XNegInf => true
  | XFin m1 e1, XFin m2 e2 =>
      match fin_compare m1 e1 m2 e2 with Gt => true | _ => false end
  end.

(** Equality of hashable values as dict keys and set members: numbers by
    value ([True == 1 == 1.0]), strings by content. *)
Definition key_eqb (a b : pyval) : bool :=
  match xnum_of a, xnum_of b with
  | Some x, Some y => xnum_eqb x y
  | None, None =>
      match a, b with
      | PNone, PNone => true
      | PStr x, PStr y => String.eqb x y
      | _, _ => false
      end
  | _, _ => false
  end.

(** [bool(v)] *)
Definition truthy (v : pyval) : bool :=
  match v with
  | PNone => false
  | PBool b => b
  | PInt z => negb (z =? 0)
  | PFloat (FDec _ m _) => negb (m =? 0)%N
  | PFloat _ => true
  | PStr s => negb (String.eqb s "")
  | PList l => match l with [] => false | _ => true end
  | PDict d => match d with [] => false | _ => true end
  end.

(** *** Dicts *)

Fixpoint dict_get (k : pyval) (d : list (pyval * pyval)) : option pyval :=
  match d with
  | [] => None
  | (k', v) :: r => if key_eqb k' k then Some v else dict_get k r
  end.

(** [d[k] = v]: an existing key keeps its place (and the key object first
    inserted); a new one goes last. *)
Fixpoint dict_set (k v : pyval) (d : list (pyval * pyval)) : list (pyval * pyval) :=
  match d with
  | [] => [(k, v)]
  | (k', v') :: r => if key_eqb k' k then (k', v) :: r else (k', v') :: dict_set k v r
  end.

Definition dict_keys (d : list (pyval * pyval)) : list pyval := map fst d.

(** *** Sets: the members, without repetition. The order in which Python
    iterates a set is not specified; here it is the order of insertion, and
    no theorem depends on it. *)

Definition set_mem (x : pyval) (s : list pyval) : bool := existsb (key_eqb x) s.

Definition set_add (x : pyval) (s : list pyval) : list pyval :=
  if set_mem x s then s else s ++ [x].

(** *** Equality and order of arbitrary values *)

(** [a == b] *)
Fixpoint py_eqb (a b : pyval) : bool :=
  match a, b with
  | PList l1, PList l2 =>
      (fix go (l1 l2 : list pyval) : bool :=
         match l1, l2 with
         | [], [] => true
         | x :: r1, y :: r2 => py_eqb x y && go r1 r2
         | _, _ => false
         end) l1 l2
  | PDict d1, PDict d2 =>
      (length d1 =? length d2)%nat &&
      (fix go (d : list (pyval * pyval)) : bool :=
         match d with
         | [] => true
         | (k, v) :: r =>
             match dict_get k d2 with
             | Some w => py_eqb v w && go r
             | None => false
             end
         end) d1
  | _, _ => key_eqb a b
  end.

(** [a > b]; values of unordered or different kinds raise. *)
Fixpoint py_gt (a b : pyval) : result bool :=
  match xnum_of a, xnum_of b with
  | Some x, Some y => Ok (xnum_gtb x y)
  | _, _ =>
      match a, b with
      | PStr x, PStr y => Ok (match String.compare x y with Gt => true | _ => false end)
      | PList l1, PList l2 =>
          (fix go (l1 l2 : list pyval) : result bool :=
             match l1, l2 with
             | [], _ => Ok false
             | _ :: _, [] => Ok true
             | x :: r1, y :: r2 => if py_eqb x y then go r1 r2 else py_gt x y
             end) l1 l2
      | _, _ => raise TypeError "> not supported between these instances"
      end
  end.

(** *** Operations that check the type of their operand *)

(** [iter(v)]: the items a [for] loop or a constructor sees. *)
Definition py_iter (v : pyval) : result (list pyval) :=
  match v with
  | PList l => Ok l
  | PDict d => Ok (dict_keys d)
  | PStr s => Ok (map PStr (Text.characters s))
  | _ => raise TypeError (type_name v +:+ " object is not iterable")
  end.

Fixpoint set_of_list (l : list pyval) (acc : list pyval) : result (list pyval) :=
  match l with
  | [] => Ok acc
  | x :: r =>
      if hashable x then set_of_list r (set_add x acc)
      else raise TypeError ("unhashable type: " +:+ type_name x)
  end.

(** [set(v)] *)
Definition py_set (v : pyval) : result (list pyval) :=
  rbind (py_iter v) (fun l => set_of_list l []).

(** [v.get(k, default)] with a string [k]: only a dict has [get]. *)
Definition py_get (v : pyval) (k : string) (default : pyval) : result pyval :=
  match v with
  | PDict d => Ok (match dict_get (PStr k) d with Some x => x | None => default end)
  | _ => raise AttributeError (type_name v +:+ " object has no attribute get")
  end.

(** The position an integer index denotes in a sequence of length [n],
    negative indices counting from the end. *)
Definition index_pos (n : nat) (i : Z) : option nat :=
  if (0 <=? i) && (i <? Z.of_nat n) then Some (Z.to_nat i)
  else if (- Z.of_nat n <=? i) && (i <? 0) then Some (Z.to_nat (Z.of_nat n + i))
  else None.

Definition list_index {A} (l : list A) (i : Z) : option A :=
  match index_pos (length l) i with
  | Some p => l !! p
  | None => None
  end.

(** An integer used as an index: an int, or a bool ([True] is 1). *)
Definition as_index (k : pyval) : option Z :=
  match k with
  | PInt i => Some i
  | PBool b => Some (Z.b2z b)
  | _ => None
  end.

(** [v[k]] *)
Definition py_getitem (v k : pyval) : result pyval :=
  match v with
  | PDict d =>
      if hashable k then
        match dict_get k d with
        | Some x => Ok x
        | None => raise KeyError "key not found"
        end
      else raise TypeError ("unhashable type: " +:+ type_name k)
  | PList l =>
      match as_index k with
      | Some i =>
          match list_index l i with
          | Some x => Ok x
          | None => raise IndexError "list index out of range"
          end
      | None => raise TypeError "list indices must be integers or slices"
      end
  | PStr s =>
      match as_index k with
      | Some i =>
          match list_index (Text.characters s) i with
          | Some x => Ok (PStr x)
          | None => raise IndexError "string index out of range"
          end
      | None => raise TypeError "string indices must be integers"
      end
  | _ => raise TypeError (type_name v +:+ " object is not subscriptable")
  end.

(** [v[k] = x] *)
Definition py_setitem (v k x : pyval) : result pyval :=
  match v with
  | PDict d =>
      if hashable k then Ok (PDict (dict_set k x d))
      else raise TypeError ("unhashable type: " +:+ type_name k)
  | PList l =>
      match as_index k with
      | Some i =>
          match index_pos (length l) i with
          | Some p => Ok (PList (<[p := x]> l))
          | None => raise IndexError "list assignment index out of range"
          end
      | None => raise TypeError "list indices must be integers or slices"
      end
  | _ => raise TypeError (type_name v +:+ " object does not support item assignment")
  end.

(** [v.append(x)]: only a list has [append]. *)
Definition py_append (v x : pyval) : result pyval :=
  match v with
  | PList l => Ok (PList (l ++ [x]))
  | _ => raise AttributeError (type_name v +:+ " object has no attribute append")
  end.

(** [len(v)] *)
Definition py_len (v : pyval) : result Z :=
  match v with
  | PList l => Ok (Z.of_nat (length l))
  | PDict d => Ok (Z.of_nat (length d))
  | PStr s => Ok (Z.of_nat (length (Text.characters s)))
  | _ => raise TypeError ("object of type " +:+ type_name v +:+ " has no len()")
  end.

(** [x in v] for an integer [x] *)
Definition py_contains_int (x : Z) (v : pyval) : result bool :=
  match v with
  | PDict d => Ok (match dict_get (PInt x) d with Some _ => true | None => false end)
  | PList l => Ok (existsb (py_eqb (PInt x)) l)
  | PStr _ => raise TypeError "in <string> requires string as left operand, not int"
  | _ => raise TypeError ("argument of type " +:+ type_name v +:+ " is not iterable")
  end.

(** [v.capitalize()]: only a str has it. *)
Definition py_capitalize (v : pyval) : result string :=
  match v with
  | PStr s => Ok (Text.capitalize s)
  | _ => raise AttributeError (type_name v +:+ " object has no attribute capitalize")
  end.

(** [int(v[1:])]: a str loses its first character and is read as an
    integer; the tail of a list is a list, which [int] refuses; a dict has
    no slices; the other values have no subscript. *)
Definition int_of_tail (v : pyval) : result Z :=
  match v with
  | PStr s =>
      match Text.parse_int (String.concat "" (drop 1 (Text.characters s))) with
      | Some z => Ok z
      | None => raise ValueError "invalid literal for int() with base 10"
      end
  | PList _ => raise TypeError "int() argument must be a string or a number, not list"
  | PDict _ => raise TypeError "unhashable type: slice"
  | _ => raise TypeError (type_name v +:+ " object is not subscriptable")
  end.

(** *** [repr] and [str] *)

Definition hex_digit (n : Z) : ascii :=
  Text.chr (Z.to_nat (if n <? 10 then 48 + n else 87 + n)).

(** [width] lower-case hexadecimal digits of [n]. *)
Fixpoint hex (width : nat) (n : Z) : list ascii :=
  match width with
  | O => []
  | S w => hex w (n / 16) ++ [hex_digit (n mod 16)]
  end.

(** [repr] of a str. Code points above 127 are taken as printable. *)
Definition str_repr (s : string) : string :=
  let cs := Text.chars s in
  let q := if existsb (Text.eqb_char "'"%char) cs && negb (existsb (Text.eqb_char Text.quote) cs)
           then Text.quote else "'"%char in
  let esc (c : ascii) : list ascii :=
    if Text.eqb_char c q || Text.eqb_char c Text.backslash then [Text.backslash; c]
    else if Text.eqb_char c (Text.chr 9) then [Text.backslash; "t"%char]
    else if Text.eqb_char c Text.LF then [Text.backslash; "n"%char]
    else if Text.eqb_char c Text.CR then [Text.backslash; "r"%char]
    else if (Text.ord c <? 32) || (Text.ord c =? 127) then
      Text.backslash :: "x"%char :: hex 2 (Text.ord c)
    else [c] in
  Text.text (q :: flat_map esc cs ++ [q]).

(** Trailing zeros of a digit string move into the exponent. *)
Fixpoint strip_zeros (rev_digits : list ascii) (e : Z) : list ascii * Z :=
  match rev_digits with
  | c :: r => if Text.eqb_char c "0"%char then strip_zeros r (e + 1) else (rev rev_digits, e)
  | [] => ([], e)
  end.

Definition zeros (n : Z) : list ascii := replicate (Z.to_nat n) "0"%char.

(** [repr] of a float: fixed notation when the decimal point falls within
    the digits or near them, exponent notation otherwise. *)
Definition float_repr (f : float) : string :=
  match f with
  | FNan => "nan"
  | FInf neg => if neg then "-inf" else "inf"
  | FDec neg m e =>
      let sign := if neg then "-" else "" in
      if (m =? 0)%N then sign +:+ "0.0"
      else
        let '(ds, e') := strip_zeros (rev (Text.chars (pretty m))) e in
        let n := Z.of_nat (length ds) in
        let decpt := n + e' in
        sign +:+ Text.text
          (if (decpt <=? -4) || (16 <? decpt) then
             take 1 ds ++ (match drop 1 ds with [] => [] | r => "."%char :: r end)
             ++ "e"%char :: Text.chars (if decpt - 1 <? 0 then "-" else "+")
             ++ Text.chars (Text.zero_pad 2 (pretty (Z.abs (decpt - 1))))
           else if decpt <=? 0 then "0"%char :: "."%char :: zeros (- decpt) ++ ds
           else if n <=? decpt then ds ++ zeros (decpt - n) ++ [ "."%char; "0"%char ]
           else take (Z.to_nat decpt) ds ++ "."%char :: drop (Z.to_nat decpt) ds)
  end.

Fixpoint py_repr (v : pyval) : string :=
  match v with
  | PNone => "None"
  | PBool b => if b then "True" else "False"
  | PInt z => pretty z
  | PFloat f => float_repr f
  | PStr s => str_repr s
  | PList l => "[" +:+ Text.join ", " (map py_repr l) +:+ "]"
  | PDict d =>
      "{" +:+ Text.join ", " (map (fun '(k, x) => py_repr k +:+ ": " +:+ py_repr x) d) +:+ "}"
  end.

(** [str(v)], which an f-string field applies. *)
Definition py_str (v : pyval) : string :=
  match v with
  | PStr s => s
  | _ => py_repr v
  end.

(** *** [collections.Counter] *)

Fixpoint count_all (l : list pyval) (acc : list (pyval * pyval)) : result (list (pyval * pyval)) :=
  match l with
  | [] => Ok acc
  | x :: r =>
      if hashable x then
        let n := match dict_get x acc with Some (PInt n) => n | _ => 0 end in
        count_all r (dict_set x (PInt (n + 1)) acc)
      else raise TypeError ("unhashable type: " +:+ type_name x)
  end.

(** [Counter(v)]: a mapping is copied, any other iterable is counted. *)
Definition py_counter (v : pyval) : result (list (pyval * pyval)) :=
  match v with
  | PDict d => Ok d
  | _ => rbind (py_iter v) (fun l => count_all l [])
  end.

Fixpoint max_by_count (best : pyval * pyval) (l : list (pyval * pyval)) : result (pyval * pyval) :=
  match l with
  | [] => Ok best
  | it :: r => rbind (py_gt (snd it) (snd best)) (fun b => max_by_count (if b then it else best) r)
  end.

(** [counter.most_common(1)]: the first item with the greatest count. *)
Definition most_common_1 (c : list (pyval * pyval)) : result (list (pyval * pyval)) :=
  match c with
  | [] => Ok []
  | it :: r => rbind (max_by_count it r) (fun b => Ok [b])
  end.

End Py.

(** ** The [json] module: [dumps(obj, indent=2)] and [loads]

    Written after the library's documented format (RFC 8259 with Python's
    extensions [NaN], [Infinity], [-Infinity]). CPython's resource limits
    (recursion depth, the digits of an integer literal) are not modelled. *)

Module Json.
Import Py.

(** The code point a UTF-8 sequence encodes; a stray byte stands for
    itself. *)
Definition code_point (c : string) : Z :=
  let low (b : ascii) := Z.land (Text.ord b) 63 in
  match Text.chars c with
  | [b0; b1] => Z.land (Text.ord b0) 31 * 64 + low b1
  | [b0; b1; b2] => (Z.land (Text.ord b0) 15 * 64 + low b1) * 64 + low b2
  | [b0; b1; b2; b3] => ((Z.land (Text.ord b0) 7 * 64 + low b1) * 64 + low b2) * 64 + low b3
  | b0 :: _ => Text.ord b0
  | [] => 0
  end.

(** The UTF-8 sequence of a code point. *)
Definition utf8 (cp : Z) : list ascii :=
  let byte (n : Z) := Text.chr (Z.to_nat n) in
  let cont (n : Z) := byte (128 + Z.land n 63) in
  if cp <? 128 then [byte cp]
  else if cp <? 2048 then [byte (192 + cp / 64); cont cp]
  else if cp <? 65536 then [byte (224 + cp / 4096); cont (cp / 64); cont cp]
  else [byte (240 + cp / 262144); cont (cp / 4096); cont (cp / 64); cont cp].

Definition u_escape (n : Z) : list ascii :=
  Text.backslash :: "u"%char :: hex 4 n.

(** One character of a JSON string, with [ensure_ascii]. *)
Definition escape (c : string) : list ascii :=
  let cp := code_point c in
  if cp =? 34 then [Text.backslash; Text.quote]
  else if cp =? 92 then [Text.backslash; Text.backslash]
  else if cp =? 10 then [Text.backslash; "n"%char]
  else if cp =? 13 then [Text.backslash; "r"%char]
  else if cp =? 9 then [Text.backslash; "t"%char]
  else if cp =? 8 then [Text.backslash; "b"%char]
  else if cp =? 12 then [Text.backslash; "f"%char]
  else if (32 <=? cp) && (cp <=? 126) then Text.chars c
  else if cp <? 65536 then u_escape cp
  else u_escape (55296 + Z.land ((cp - 65536) / 1024) 1023)
       ++ u_escape (56320 + Z.land (cp - 65536) 1023).

Definition encode_str (s : string) : string :=
  Text.text (Text.quote :: flat_map escape (Text.characters s) ++ [Text.quote]).

Definition float_str (f : float) : string :=
  match f with
  | FNan => "NaN"
  | FInf neg => if neg then "-Infinity" else "Infinity"
  | _ => float_repr f
  end.

(** A dict key as JSON writes it: a str as it is, a number or [None] by its
    JSON text. *)
Definition key_str (k : pyval) : result string :=
  match k with
  | PStr s => Ok s
  | PFloat f => Ok (float_str f)
  | PBool b => Ok (if b then "true" else "false")
  | PNone => Ok "null"
  | PInt z => Ok (pretty z)
  | _ => raise TypeError ("keys must be str, int, float, bool or None, not " +:+ type_name k)
  end.

(** A line break and the indentation of nesting [level]. *)
Definition newline_indent (level : nat) : string :=
  Text.text (Text.LF :: replicate (2 * level) " "%char).

Definition bracket (op cl : string) (level : nat) (parts : list string) : string :=
  op +:+ newline_indent (S level)
     +:+ Text.join ("," +:+ newline_indent (S level)) parts
     +:+ newline_indent level +:+ cl.

Fixpoint encode (level : nat) (v : pyval) : result string :=
  match v with
  | PNone => Ok "null"
  | PBool b => Ok (if b then "true" else "false")
  | PInt z => Ok (pretty z)
  | PFloat f => Ok (float_str f)
  | PStr s => Ok (encode_str s)
  | PList [] => Ok "[]"
  | PList l =>
      rbind
        ((fix items (l : list pyval) : result (list string) :=
            match l with
            | [] => Ok []
            | x :: r =>
                rbind (encode (S level) x) (fun y =>
                rbind (items r) (fun ys => Ok (y :: ys)))
            end) l)
        (fun parts => Ok (bracket "[" "]" level parts))
  | PDict [] => Ok "{}"
  | PDict d =>
      rbind
        ((fix items (d : list (pyval * pyval)) : result (list string) :=
            match d with
            | [] => Ok []
            | (k, x) :: r =>
                rbind (key_str k) (fun ks =>
                rbind (encode (S level) x) (fun y =>
                rbind (items r) (fun ys => Ok ((encode_str ks +:+ ": " +:+ y) :: ys))))
            end) d)
        (fun parts => Ok (bracket "{" "}" level parts))
  end.

(** [json.dumps(v, indent=2)] *)
Definition dumps (v : pyval) : result string := encode 0 v.

(** *** Reading *)

Definition is_ws (c : ascii) : bool :=
  let n := Text.ord c in (n =? 32) || (n =? 9) || (n =? 10) || (n =? 13).

Fixpoint skip_ws (l : list ascii) : list ascii :=
  match l with
  | c :: r => if is_ws c then skip_ws r else l
  | [] => []
  end.

Definition hex_value (c : ascii) : option Z :=
  let n := Text.ord c in
  if (48 <=? n) && (n <=? 57) then Some (n - 48)
  else if (97 <=? n) && (n <=? 102) then Some (n - 87)
  else if (65 <=? n) && (n <=? 70) then Some (n - 55)
  else None.

Definition hex4 (a b c d : ascii) : option Z :=
  match hex_value a, hex_value b, hex_value c, hex_value d with
  | Some w, Some x, Some y, Some z => Some (((w * 16 + x) * 16 + y) * 16 + z)
  | _, _, _, _ => None
  end.

(** The body of a string after its opening quote; [acc] holds the bytes
    read so far, reversed. Raw control characters are refused. *)
Fixpoint scan_string (acc : list ascii) (l : list ascii) : option (string * list ascii) :=
  match l with
  | [] => None
  | c :: r =>
      if Text.eqb_char c Text.quote then Some (Text.text (rev acc), r)
      else if Text.eqb_char c Text.backslash then
        match r with
        | [] => None
        | e :: r1 =>
            let plain (x : nat) := scan_string (Text.chr x :: acc) r1 in
            if Text.eqb_char e Text.quote then plain 34%nat
            else if Text.eqb_char e Text.backslash then plain 92%nat
            else if Text.eqb_char e "/"%char then plain 47%nat
            else if Text.eqb_char e "b"%char then plain 8%nat
            else if Text.eqb_char e "f"%char then plain 12%nat
            else if Text.eqb_char e "n"%char then plain 10%nat
            else if Text.eqb_char e "r"%char then plain 13%nat
            else if Text.eqb_char e "t"%char then plain 9%nat
            else if Text.eqb_char e "u"%char then
              match r1 with
              | h1 :: h2 :: h3 :: h4 :: r2 =>
                  match hex4 h1 h2 h3 h4 with
                  | None => None
                  | Some uni =>
                      let single := scan_string (rev (utf8 uni) ++ acc) r2 in
                      if (55296 <=? uni) && (uni <=? 56319) then
                        match r2 with
                        | b :: u :: g1 :: g2 :: g3 :: g4 :: r3 =>
                            if Text.eqb_char b Text.backslash && Text.eqb_char u "u"%char then
                              match hex4 g1 g2 g3 g4 with
                              | None => None
                              | Some uni2 =>
                                  if (56320 <=? uni2) && (uni2 <=? 57343) then
                                    scan_string
                                      (rev (utf8 (65536 + (uni - 55296) * 1024 + (uni2 - 56320))) ++ acc) r3
                                  else single
                              end
                            else single
                        | _ => single
                        end
                      else single
                  end
              | _ => None
              end
            else None
        end
      else if Text.ord c <? 32 then None
      else scan_string (c :: acc) r
  end.

Fixpoint span_digits (l : list ascii) : list ascii * list ascii :=
  match l with
  | c :: r => if Text.is_digit c then let '(ds, rest) := span_digits r in (c :: ds, rest) else ([], l)
  | [] => ([], [])
  end.

Definition digits_value (ds : list ascii) : Z :=
  fold_left (fun acc c => 10 * acc + Text.digit_value c) ds 0.

(** The integer part of a number: [0], or digits that do not start with
    [0]. *)
Definition int_part (l : list ascii) : option (list ascii * list ascii) :=
  match l with
  | c :: r =>
      if Text.eqb_char c "0"%char then Some ([c], r)
      else if Text.is_digit c then Some (span_digits l)
      else None
  | [] => None
  end.

(** A fraction [.digits], when one follows. *)
Definition frac_part (l : list ascii) : option (list ascii * list ascii) :=
  match l with
  | c :: r =>
      if Text.eqb_char c "."%char then
        match span_digits r with
        | ([], _) => None
        | (ds, rest) => Some (ds, rest)
        end
      else None
  | [] => None
  end.

(** An exponent [e], [E] with an optional sign and digits, when one
    follows. *)
Definition exp_part (l : list ascii) : option (Z * list ascii) :=
  match l with
  | c :: r =>
      if Text.eqb_char c "e"%char || Text.eqb_char c "E"%char then
        let '(neg, r1) :=
          match r with
          | s :: r' =>
              if Text.eqb_char s "-"%char then (true, r')
              else if Text.eqb_char s "+"%char then (false, r')
              else (false, r)
          | [] => (false, r)
          end in
        match span_digits r1 with
        | ([], _) => None
        | (ds, rest) => Some (if neg then - digits_value ds else digits_value ds, rest)
        end
      else None
  | [] => None
  end.

(** A number: an int when it has neither fraction nor exponent, a float
    otherwise. *)
Definition scan_number (l : list ascii) : option (pyval * list ascii) :=
  let '(neg, l1) :=
    match l with
    | c :: r => if Text.eqb_char c "-"%char then (true, r) else (false, l)
    | [] => (false, l)
    end in
  match int_part l1 with
  | None => None
  | Some (ip, l2) =>
      let '(fp, l3) := match frac_part l2 with Some (ds, r) => (Some ds, r) | None => (None, l2) end in
      let '(ep, l4) := match exp_part l3 with Some (e, r) => (Some e, r) | None => (None, l3) end in
      match fp, ep with
      | None, None => Some (PInt (if neg then - digits_value ip else digits_value ip), l4)
      | _, _ =>
          let fd := default [] fp in
          Some (PFloat (FDec neg (Z.to_N (digits_value (ip ++ fd)))
                             (default 0 ep - Z.of_nat (length fd))), l4)
      end
  end.

Definition literal (word : string) (v : pyval) (l : list ascii) : option (pyval * list ascii) :=
  if Text.starts_with (Text.chars word) l
  then Some (v, drop (String.length word) l) else None.

(** [dict(pairs)]: a repeated key keeps its first place and its last
    value. *)
Definition dict_of_pairs (pairs : list (string * pyval)) : pyval :=
  PDict (fold_left (fun d '(k, v) => dict_set (PStr k) v d) pairs []).

Fixpoint scan_value (fuel : nat) (l : list ascii) : option (pyval * list ascii) :=
  match fuel with
  | O => None
  | S fuel' =>
      match l with
      | [] => None
      | c :: r =>
          if Text.eqb_char c Text.quote then
            match scan_string [] r with
            | Some (s, rest) => Some (PStr s, rest)
            | None => None
            end
          else if Text.eqb_char c "{"%char then
            match skip_ws r with
            | c1 :: r1 =>
                if Text.eqb_char c1 "}"%char then Some (PDict [], r1)
                else if Text.eqb_char c1 Text.quote then scan_members fuel' [] r1
                else None
            | [] => None
            end
          else if Text.eqb_char c "["%char then
            match skip_ws r with
            | c1 :: r1 =>
                if Text.eqb_char c1 "]"%char then Some (PList [], r1)
                else scan_elements fuel' [] (c1 :: r1)
            | [] => None
            end
          else if Text.eqb_char c "n"%char then literal "null" PNone l
          else if Text.eqb_char c "t"%char then literal "true" (PBool true) l
          else if Text.eqb_char c "f"%char then literal "false" (PBool false) l
          else
            match scan_number l with
            | Some x => Some x
            | None =>
                if Text.eqb_char c "N"%char then literal "NaN" (PFloat FNan) l
                else if Text.eqb_char c "I"%char then literal "Infinity" (PFloat (FInf false)) l
                else if Text.eqb_char c "-"%char then literal "-Infinity" (PFloat (FInf true)) l
                else None
            end
      end
  end
(** The elements of an array from the first one on; [acc] holds those read,
    reversed. *)
with scan_elements (fuel : nat) (acc : list pyval) (l : list ascii) : option (pyval * list ascii) :=
  match fuel with
  | O => None
  | S fuel' =>
      match scan_value fuel' l with
      | None => None
      | Some (v, r) =>
          match skip_ws r with
          | c :: r1 =>
              if Text.eqb_char c "]"%char then Some (PList (rev (v :: acc)), r1)
              else if Text.eqb_char c ","%char then scan_elements fuel' (v :: acc) (skip_ws r1)
              else None
          | [] => None
          end
      end
  end
(** The members of an object from the body of the first key on (its opening
    quote is read). *)
with scan_members (fuel : nat) (acc : list (string * pyval)) (l : list ascii) : option (pyval * list ascii) :=
  match fuel with
  | O => None
  | S fuel' =>
      match scan_string [] l with
      | None => None
      | Some (k, r) =>
          match skip_ws r with
          | c :: r1 =>
              if Text.eqb_char c ":"%char then
                match scan_value fuel' (skip_ws r1) with
                | None => None
                | Some (v, r2) =>
                    match skip_ws r2 with
                    | c2 :: r3 =>
                        if Text.eqb_char c2 "}"%char then Some (dict_of_pairs (rev ((k, v) :: acc)), r3)
                        else if Text.eqb_char c2 ","%char then
                          match skip_ws r3 with
                          | q :: r4 =>
                              if Text.eqb_char q Text.quote then scan_members fuel' ((k, v) :: acc) r4
                              else None
                          | [] => None
                          end
                        else None
                    | [] => None
                    end
                end
              else None
          | [] => None
          end
      end
  end.

(** [json.loads(text)]: one value, with whitespace around it and nothing
    else. *)
Definition loads (text : string) : result pyval :=
  let l := Text.chars text in
  match scan_value (2 * length l + 2) (skip_ws l) with
  | Some (v, rest) =>
      match skip_ws rest with
      | [] => Ok v
      | _ => raise JSONDecodeError "Extra data"
      end
  | None => raise JSONDecodeError "Expecting value"
  end.

End Json.

(** ** The world: files, the remote service, disk faults *)

Import Py.

(** What [requests.get] meets: a transport error, or a response with its
    status code and its body ([r.text], [r.content]). *)
Inductive reply : Type :=
| NetFail (e : exn)
| Response (status : Z) (body : string).

(** What can go wrong with one write of a file opened with mode [w]: the
    open fails (the file is untouched), or the file is truncated and the
    write stops after [written] characters. *)
Inductive fault : Type :=
| OpenFails
| WriteStops (written : nat).

Record world : Type := World {
  files : gmap string string;        (* path -> text *)
  remote : string -> reply;          (* url -> what the service answers *)
  requested : list string;           (* the urls requested, latest first *)
  faults : list (option fault);      (* the fate of the next writes; none left: no fault *)
  is_image : string -> bool;         (* whether QPixmap can decode a file's bytes *)
  am_pm : bool -> string             (* the locale's strftime %p, by afternoon *)
}.

Definition set_files (f : gmap string string) (w : world) : world :=
  World f (remote w) (requested w) (faults w) (is_image w) (am_pm w).
Definition set_requested (r : list string) (w : world) : world :=
  World (files w) (remote w) r (faults w) (is_image w) (am_pm w).
Definition set_faults (fs : list (option fault)) (w : world) : world :=
  World (files w) (remote w) (requested w) fs (is_image w) (am_pm w).

(** *** Computations that change a state and can raise *)

Definition M (S A : Type) : Type := S -> result A * S.

Definition ret {S A} (a : A) : M S A := fun s => (Ok a, s).
Definition throw {S A} (e : exn) : M S A := fun s => (Raise e, s).
Definition bind {S A B} (c : M S A) (k : A -> M S B) : M S B :=
  fun s => match c s with
           | (Ok a, s') => k a s'
           | (Raise e, s') => (Raise e, s')
           end.
(** A pure computation that can raise. *)
Definition pure {S A} (r : result A) : M S A := fun s => (r, s).
(** [try: c  except Exception as e: handler e]. What [c] did to the state
    before it raised stays done. *)
Definition try_except {S A} (c : M S A) (handler : exn -> M S A) : M S A :=
  fun s => match c s with
           | (Ok a, s') => (Ok a, s')
           | (Raise e, s') => handler e s'
           end.

Notation "'let!' x ':=' c 'in' k" := (bind c (fun x => k))
  (at level 10, x pattern, c at level 100, k at level 200, only parsing).
Notation "'run!' c 'in' k" := (bind c (fun _ => k))
  (at level 10, c at level 100, k at level 200, only parsing).
Notation "'let?' x ':=' c 'in' k" := (rbind c (fun x => k))
  (at level 10, x pattern, c at level 100, k at level 200, only parsing).

(** A loop [for x in l: body x]. *)
Fixpoint for_each {S A} (l : list A) (body : A -> M S unit) : M S unit :=
  match l with
  | [] => ret tt
  | x :: r => run! body x in for_each r body
  end.

(** *** Files and requests *)

(** [path.exists()] *)
Definition path_exists (path : string) : M world bool :=
  fun w => (Ok (bool_decide (is_Some (files w !! path))), w).

(** [path.read_text()] *)
Definition read_text (path : string) : M world string :=
  fun w => match files w !! path with
           | Some t => (Ok t, w)
           | None => (raise FileNotFoundError "No such file or directory", w)
           end.

(** [path.write_text(data)], [path.write_bytes(data)]: open with mode [w],
    write, close. The next pending fault decides how far the write gets. *)
Definition write_text (path data : string) : M world unit :=
  fun w =>
    match faults w with
    | Some OpenFails :: rest =>
        (raise OSError "cannot open the file", set_faults rest w)
    | Some (WriteStops n) :: rest =>
        (raise OSError "write failed",
         set_faults rest (set_files (<[path := Text.text (take n (Text.chars data))]> (files w)) w))
    | None :: rest => (Ok tt, set_faults rest (set_files (<[path := data]> (files w)) w))
    | [] => (Ok tt, set_files (<[path := data]> (files w)) w)
    end.

(** [requests.get(url, timeout=10)] *)
Definition requests_get (url : string) : M world (Z * string) :=
  fun w =>
    let w' := set_requested (url :: requested w) w in
    match remote w url with
    | NetFail e => (Raise e, w')
    | Response status body => (Ok (status, body), w')
    end.

(** The statuses [requests] counts as errors: [raise_for_status] raises on
    them and [Response.ok] is false on them. *)
Definition error_status (status : Z) : bool := (400 <=? status) && (status <? 600).

(** [r.raise_for_status()] *)
Definition raise_for_status {S} (status : Z) : M S unit :=
  if error_status status then throw (Exn HTTPError (pretty status +:+ " Error"))
  else ret tt.

(** ** Configuration *)

Definition BASE_URL : string := "https://pokeapi.co/api/v2".
Definition MAX_ID : Z := 493.
(** [SHINY_RATE] is [1 / 8192]; [random.random()] returns [k / 2^53] for an
    integer [0 <= k < 2^53], so [random.random() < SHINY_RATE] is
    [k < 2^40]. *)
Definition SHINY_THRESHOLD : Z := 2 ^ 40.

(** [CACHE_DIR / name]: the location of the cache directory comes from the
    process environment; paths are written from it. *)
Definition CACHE_DIR (name : string) : string := "pokesprites/" +:+ name.
Definition HISTORY_FILE : string := CACHE_DIR "shiny_seen.json".
Definition ENCOUNTER_LOG : string := CACHE_DIR "encounter_data.json".

(** ** Module-level functions *)

Definition fetch_json (url cache_path : string) : M world pyval :=
  let! cached := path_exists cache_path in
  if cached then
    let! t := read_text cache_path in
    pure (Json.loads t)
  else
    let! (status, body) := requests_get url in
    run! raise_for_status status in
    run! write_text cache_path body in
    pure (Json.loads body).

(** The random draws of one [get_pokemon] call. *)
Record draws : Type := Draws {
  randint : Z;            (* random.randint(1, MAX_ID) *)
  random53 : Z;           (* k, for random.random() = k / 2^53 *)
  choice : nat -> nat     (* the index random.choice picks in a list of that length *)
}.

(** What the random generator guarantees about its draws. *)
Definition fair (d : draws) : Prop :=
  1 <= randint d <= MAX_ID /\ 0 <= random53 d < 2 ^ 53 /\
  forall n : nat, (0 < n)%nat -> (choice d n < n)%nat.

(** The tuple [get_pokemon] returns and the [result] signal carries. *)
Record card : Type := Card {
  card_pid : Z;
  card_dex : string;
  card_name : string;
  card_types : string;
  card_flavor : string;
  card_sprite_path : string;
  card_shiny : bool
}.

(** [t["type"]["name"].capitalize()] *)
Definition type_label (t : pyval) : result string :=
  let? ty := py_getitem t (PStr "type") in
  let? n := py_getitem ty (PStr "name") in
  py_capitalize n.

(** [[e["flavor_text"] for e in l if e["language"]["name"] == "en"]] *)
Fixpoint english_entries (l : list pyval) : result (list pyval) :=
  match l with
  | [] => Ok []
  | e :: r =>
      let? lang := py_getitem e (PStr "language") in
      let? name := py_getitem lang (PStr "name") in
      if py_eqb name (PStr "en") then
        let? ft := py_getitem e (PStr "flavor_text") in
        let? rest := english_entries r in
        Ok (ft :: rest)
      else english_entries r
  end.

(** [text.replace("\n", " ").replace("\f", " ").strip()] *)
Definition normalize (text : string) : string :=
  Text.strip (Text.replace_char Text.FF " " (Text.replace_char Text.LF " " text)).

(** [random.choice(entries).replace(...).replace(...).strip() if entries
    else "(No flavor text found)"] *)
Definition pick_flavor (d : draws) (entries : list pyval) : result string :=
  match entries with
  | [] => Ok "(No flavor text found)"
  | _ =>
      match entries !! choice d (length entries) with
      | Some (PStr text) => Ok (normalize text)
      | Some v => raise AttributeError (type_name v +:+ " object has no attribute replace")
      | None => raise IndexError "list index out of range"
      end
  end.

(** [requests.get(v, timeout=10)] for a value read from JSON: anything but
    a str is no URL. *)
Definition requests_get_value (v : pyval) : M world (Z * string) :=
  match v with
  | PStr url => requests_get url
  | _ => throw (Exn RequestException "Invalid URL: No scheme supplied")
  end.

(** The flavor text of a species record:
    [entries = [...]; flavor = ... if entries else ...]. *)
Definition flavor_text (d : draws) (species : pyval) : result string :=
  let? es := py_getitem species (PStr "flavor_text_entries") in
  let? l := py_iter es in
  let? entries := english_entries l in
  pick_flavor d entries.

Definition get_pokemon (d : draws) : M world card :=
  let pid := randint d in
  let shiny := random53 d <? SHINY_THRESHOLD in

  let! data := fetch_json (BASE_URL +:+ "/pokemon/" +:+ pretty pid)
                          (CACHE_DIR ("pokemon_" +:+ pretty pid +:+ ".json")) in
  let! species := fetch_json (BASE_URL +:+ "/pokemon-species/" +:+ pretty pid)
                             (CACHE_DIR ("species_" +:+ pretty pid +:+ ".json")) in

  let! name := pure (let? n := py_getitem data (PStr "name") in py_capitalize n) in
  let! types := pure (let? ts := py_getitem data (PStr "types") in
                      let? l := py_iter ts in
                      let? labels := rmap type_label l in
                      Ok (Text.join "/" labels)) in
  let dex := "#" +:+ Text.fmt_0d 3 pid in

  let! flavor := pure (flavor_text d species) in

  let! sprite_url := pure (let? sprites := py_getitem data (PStr "sprites") in
                           py_getitem sprites (PStr (if shiny then "front_shiny" else "front_default"))) in
  let sprite_tag := pretty pid +:+ "_" +:+ (if shiny then "shiny" else "normal") +:+ ".png" in
  let sprite_path := CACHE_DIR sprite_tag in

  let! present := path_exists sprite_path in
  run! (if truthy sprite_url && negb present then
          let! (status, content) := requests_get_value sprite_url in
          if negb (error_status status) then write_text sprite_path content else ret tt
        else ret tt) in

  ret (Card pid dex name types flavor sprite_path shiny).

(** *** Persistence helpers *)

Definition load_shiny_history : M world pyval :=
  try_except
    (let! t := read_text HISTORY_FILE in
     pure (Json.loads t))
    (fun _ => ret (PList [])).

Definition save_shiny_history (hist : pyval) : M world unit :=
  try_except
    (let! doc := pure (Json.dumps hist) in
     write_text HISTORY_FILE doc)
    (fun _ => ret tt).

Definition load_encounter_data : M world (pyval * list pyval * pyval) :=
  try_except
    (let! t := read_text ENCOUNTER_LOG in
     let! raw := pure (Json.loads t) in
     let! names := pure (py_get raw "names" (PList [])) in
     let! ids := pure (let? l := py_get raw "ids" (PList []) in py_set l) in
     let! name_map := pure (py_get raw "names_by_id" (PDict [])) in
     ret (names, ids, name_map))
    (fun _ => ret (PList [], [], PDict [])).

Definition save_encounter_data (names : pyval) (ids : list pyval) (name_map : pyval) : M world unit :=
  try_except
    (let! doc := pure (Json.dumps (PDict [ (PStr "names", names);
                                           (PStr "ids", PList ids);
                                           (PStr "names_by_id", name_map) ])) in
     write_text ENCOUNTER_LOG doc)
    (fun _ => ret tt).

(** *** Thread worker *)

(** What the worker emits: [result] with the card, or [error] with
    [str(e)]. *)
Inductive signal : Type :=
| result_signal (c : card)
| error_signal (msg : string).

(** [PokemonWorker.run] *)
Definition run (d : draws) : M world signal :=
  try_except
    (let! c := get_pokemon d in ret (result_signal c))
    (fun e => ret (error_signal (exn_str e))).

(** ** Dates and times

    [datetime.now(UK_TZ)] is the wall clock of one fixed zone. Two such
    values carry the same [tzinfo], so Python compares and subtracts them by
    their wall-clock fields alone. A [datetime] is therefore the number of
    microseconds of wall-clock time since 0001-01-01 00:00. *)

Module Clock.

Definition US_PER_MINUTE : Z := 60 * 1000000.
Definition US_PER_DAY : Z := 86400 * 1000000.

Definition DAYS_IN_MONTH : list Z := [31; 28; 31; 30; 31; 30; 31; 31; 30; 31; 30; 31].
Definition DAYS_BEFORE_MONTH : list Z := [0; 31; 59; 90; 120; 151; 181; 212; 243; 273; 304; 334].
Definition table (t : list Z) (month : Z) : Z := default 0 (t !! Z.to_nat (month - 1)).

(** Year, month and day of a proleptic Gregorian ordinal (1 is
    0001-01-01), as [datetime] computes them. *)
Definition ord2ymd (ordinal : Z) : Z * Z * Z :=
  let n := ordinal - 1 in
  let n400 := n / 146097 in
  let n := n mod 146097 in
  let n100 := n / 36524 in
  let n := n mod 36524 in
  let n4 := n / 1461 in
  let n := n mod 1461 in
  let n1 := n / 365 in
  let n := n mod 365 in
  let year := n400 * 400 + 1 + n100 * 100 + n4 * 4 + n1 in
  if (n1 =? 4) || (n100 =? 4) then (year - 1, 12, 31)
  else
    let leapyear := (n1 =? 3) && (negb (n4 =? 24) || (n100 =? 3)) in
    let extra (month : Z) (from : Z) : Z := if (from <=? month) && leapyear then 1 else 0 in
    let month := Z.shiftr (n + 50) 5 in
    let preceding := table DAYS_BEFORE_MONTH month + extra month 3 in
    if n <? preceding then
      let preceding' := preceding - (table DAYS_IN_MONTH (month - 1)
                                     + (if (month - 1 =? 2) && leapyear then 1 else 0)) in
      (year, month - 1, n - preceding' + 1)
    else (year, month, n - preceding + 1).

Definition date_of (t : Z) : Z * Z * Z := ord2ymd (t / US_PER_DAY + 1).
Definition hour_of (t : Z) : Z := (t mod US_PER_DAY) / (3600 * 1000000).
Definition minute_of (t : Z) : Z := ((t mod US_PER_DAY) / US_PER_MINUTE) mod 60.

(** [t.strftime("%I:%M %p")], with the locale's AM and PM names. *)
Definition strftime_time (am_pm : bool -> string) (t : Z) : string :=
  let h := hour_of t in
  let h12 := if h mod 12 =? 0 then 12 else h mod 12 in
  Text.fmt_0d 2 h12 +:+ ":" +:+ Text.fmt_0d 2 (minute_of t) +:+ " " +:+ am_pm (12 <=? h).

(** [t.strftime("%d/%m/%Y")] *)
Definition strftime_date (t : Z) : string :=
  let '(y, m, d) := date_of t in
  Text.fmt_0d 2 d +:+ "/" +:+ Text.fmt_0d 2 m +:+ "/" +:+ Text.fmt_0d 4 y.

(** [int((now - last).total_seconds() // 60)] *)
Definition minutes_between (last now : Z) : Z := (now - last) / US_PER_MINUTE.

End Clock.

(** ** The widget *)

(** A pixmap, up to its pixels: the null pixmap (a failed load), the grey
    placeholder, or the image decoded from a file. Scaling keeps the
    kind. *)
Inductive pixmap : Type :=
| null_pixmap
| grey_placeholder
| image_of (path : string).

(** What a label shows. *)
Inductive face : Type :=
| shows_text (s : string)
| shows_pixmap (p : pixmap).

(** One entry of [dex_cells]: the widgets [(pix_lbl, name_lbl, box)], by
    what they show. *)
Record DexCell : Type := Cell {
  pix_lbl : pixmap;
  name_lbl : string;
  box_tooltip : string
}.

Record PokedexViewer : Type := Viewer {
  shiny_history : pyval;
  encounters : pyval;
  encounter_ids : list pyval;       (* a set *)
  id_to_name : pyval;
  last_shiny_time : option Z;       (* None, or a datetime *)
  img_lbl : face;
  dex_lbl : string;
  dex_lbl_style : string;
  type_lbl : string;
  shiny_lbl_visible : bool;
  flavor_lbl : string;
  since_lbl : string;
  stats_lbl : string;
  window_title : string;
  dex_cells : gmap Z DexCell
}.

Definition with_shiny_history x (v : PokedexViewer) :=
  let 'Viewer _ b c d e f g h i j k l m n o := v in Viewer x b c d e f g h i j k l m n o.
Definition with_encounters x (v : PokedexViewer) :=
  let 'Viewer a _ c d e f g h i j k l m n o := v in Viewer a x c d e f g h i j k l m n o.
Definition with_encounter_ids x (v : PokedexViewer) :=
  let 'Viewer a b _ d e f g h i j k l m n o := v in Viewer a b x d e f g h i j k l m n o.
Definition with_id_to_name x (v : PokedexViewer) :=
  let 'Viewer a b c _ e f g h i j k l m n o := v in Viewer a b c x e f g h i j k l m n o.
Definition with_last_shiny_time x (v : PokedexViewer) :=
  let 'Viewer a b c d _ f g h i j k l m n o := v in Viewer a b c d x f g h i j k l m n o.
Definition with_img_lbl x (v : PokedexViewer) :=
  let 'Viewer a b c d e _ g h i j k l m n o := v in Viewer a b c d e x g h i j k l m n o.
Definition with_dex_lbl x (v : PokedexViewer) :=
  let 'Viewer a b c d e f _ h i j k l m n o := v in Viewer a b c d e f x h i j k l m n o.
Definition with_dex_lbl_style x (v : PokedexViewer) :=
  let 'Viewer a b c d e f g _ i j k l m n o := v in Viewer a b c d e f g x i j k l m n o.
Definition with_type_lbl x (v : PokedexViewer) :=
  let 'Viewer a b c d e f g h _ j k l m n o := v in Viewer a b c d e f g h x j k l m n o.
Definition with_shiny_lbl_visible x (v : PokedexViewer) :=
  let 'Viewer a b c d e f g h i _ k l m n o := v in Viewer a b c d e f g h i x k l m n o.
Definition with_flavor_lbl x (v : PokedexViewer) :=
  let 'Viewer a b c d e f g h i j _ l m n o := v in Viewer a b c d e f g h i j x l m n o.
Definition with_since_lbl x (v : PokedexViewer) :=
  let 'Viewer a b c d e f g h i j k _ m n o := v in Viewer a b c d e f g h i j k x m n o.
Definition with_stats_lbl x (v : PokedexViewer) :=
  let 'Viewer a b c d e f g h i j k l _ n o := v in Viewer a b c d e f g h i j k l x n o.
Definition with_window_title x (v : PokedexViewer) :=
  let 'Viewer a b c d e f g h i j k l m _ o := v in Viewer a b c d e f g h i j k l m x o.
Definition with_dex_cells x (v : PokedexViewer) :=
  let 'Viewer a b c d e f g h i j k l m n _ := v in Viewer a b c d e f g h i j k l m n x.

(** A method runs on the widget and the world. *)
Definition method (A : Type) : Type := M (PokedexViewer * world) A.

Definition self : method PokedexViewer := fun s => (Ok (fst s), s).
Definition update (f : PokedexViewer -> PokedexViewer) : method unit :=
  fun s => (Ok tt, (f (fst s), snd s)).
(** A module-level function called from a method. *)
Definition call {A} (c : M world A) : method A :=
  fun s => let '(r, w) := c (snd s) in (r, (fst s, w)).
Definition the_world : method world := fun s => (Ok (snd s), s).

(** [QPixmap(path)]: null when the file is absent or is no image. *)
Definition QPixmap (path : string) : M world pixmap :=
  fun w => (Ok (match files w !! path with
                | Some content => if is_image w content then image_of path else null_pixmap
                | None => null_pixmap
                end), w).

(** [label.setText(v)] takes a str. *)
Definition text_for_label (v : pyval) : result string :=
  match v with
  | PStr s => Ok s
  | _ => raise TypeError "setText(self, a0: str): argument 1 has unexpected type"
  end.

(** *** Build Dex Grid *)

(** The body of the loop of [_build_dex_grid]. *)
Definition build_dex_cell (pid : Z) : method unit :=
  run! update (fun v => with_dex_cells
                 (<[pid := Cell grey_placeholder "***" "No shiny encountered yet."]> (dex_cells v)) v) in
  (* If already encountered (from saved state) update sprite/name *)
  let! v := self in
  if set_mem (PInt pid) (encounter_ids v) then
    let spath := CACHE_DIR (pretty pid +:+ "_normal.png") in
    let! present := call (path_exists spath) in
    run! (if present then
            let! pm := call (QPixmap spath) in
            update (fun v => with_dex_cells
                      (alter (fun c => Cell pm (name_lbl c) (box_tooltip c)) pid (dex_cells v)) v)
          else ret tt) in
    let! known := pure (py_contains_int pid (id_to_name v)) in
    if known then
      let! name := pure (let? x := py_getitem (id_to_name v) (PInt pid) in text_for_label x) in
      update (fun v => with_dex_cells
                (alter (fun c => Cell (pix_lbl c) name (box_tooltip c)) pid (dex_cells v)) v)
    else ret tt
  else ret tt.

Definition _build_dex_grid : method unit :=
  for_each (seqZ 1 MAX_ID) build_dex_cell.

(** *** Stats and timers *)

Definition update_shiny_delay (now : Z) : method unit :=
  let! v := self in
  match last_shiny_time v with
  | None => update (with_since_lbl "⏱️ No shiny encountered yet.")
  | Some last =>
      let mins := Clock.minutes_between last now in
      update (with_since_lbl
                (if mins =? 0 then "✨ Just now!"
                 else if mins =? 1 then "⏱️ 1 minute since last shiny!"
                 else "⏱️ " +:+ pretty mins +:+ " minutes since last shiny!"))
  end.

(** [Counter(e["name"] for e in history)] *)
Fixpoint count_names (l : list pyval) (acc : list (pyval * pyval)) : result (list (pyval * pyval)) :=
  match l with
  | [] => Ok acc
  | e :: r =>
      let? name := py_getitem e (PStr "name") in
      let? acc' := count_all [name] acc in
      count_names r acc'
  end.

Definition update_stats : method unit :=
  let! v := self in
  let! total := pure (py_len (encounters v)) in
  let! most := pure (let? counts := py_counter (encounters v) in most_common_1 counts) in
  let! shiny_top := pure (let? l := py_iter (shiny_history v) in
                          let? counts := count_names l [] in
                          most_common_1 counts) in
  let parts := ["🎯 Encounters: " +:+ pretty total] in
  let! parts :=
    match most with
    | (name, n) :: _ =>
        let! often := pure (py_gt n (PInt 1)) in
        ret (if often
             then parts ++ [" 🔁 Most encountered: " +:+ py_str name +:+ " (" +:+ py_str n +:+ ")"]
             else parts)
    | [] => ret parts
    end in
  let parts :=
    match shiny_top with
    | (name, n) :: _ => parts ++ [" ✨ Top shiny: " +:+ py_str name +:+ " (" +:+ py_str n +:+ ")"]
    | [] => parts
    end in
  update (with_stats_lbl (Text.join "  |" parts)).

(** *** Dex helpers *)

Definition update_dex_cell (pid : Z) (sprite_path name : string) : method unit :=
  let! v := self in
  match dex_cells v !! pid with
  | None => throw (Exn KeyError (pretty pid))
  | Some c =>
      let! pm := call (QPixmap sprite_path) in
      update (with_dex_cells (<[pid := Cell pm name (box_tooltip c)]> (dex_cells v)))
  end.

Definition _append_shiny_tooltip (pid : Z) (entry : pyval) : method unit :=
  let! v := self in
  match dex_cells v !! pid with
  | None => ret tt
  | Some c =>
      let existing := if String.eqb (box_tooltip c) "" then [] else Text.splitlines (box_tooltip c) in
      let existing :=
        match existing with
        | first :: _ => if Text.startswith "No shiny" first then [] else existing
        | [] => existing
        end in
      let! new_line := pure (let? t := py_getitem entry (PStr "time") in
                             let? d := py_getitem entry (PStr "date") in
                             Ok (py_str t +:+ " – " +:+ py_str d)) in
      let existing := existing ++ [new_line] in
      update (with_dex_cells
                (<[pid := Cell (pix_lbl c) (name_lbl c) (Text.join (Text.bytes [10%nat]) existing)]> (dex_cells v)))
  end.

(** *** Error *)

Definition show_error (msg : string) : method unit :=
  update (with_flavor_lbl ("Error: " +:+ msg)).

(** *** Fetch and apply encounter *)

(** The block [# Log encounter] of [apply_card]. *)
Definition log_encounter (pid : Z) (name : string) : method unit :=
  let! v := self in
  let! names := pure (py_append (encounters v) (PStr name)) in
  run! update (with_encounters names) in
  run! update (fun v => with_encounter_ids (set_add (PInt pid) (encounter_ids v)) v) in
  let! v := self in
  let! name_map := pure (py_setitem (id_to_name v) (PInt pid) (PStr name)) in
  run! update (with_id_to_name name_map) in
  let! v := self in
  call (save_encounter_data (encounters v) (encounter_ids v) (id_to_name v)).

(** The branch [if shiny:] of [apply_card]; [now] is the clock it reads,
    [now'] the one [update_shiny_delay] reads next. *)
Definition log_shiny (pid : Z) (dex name : string) (now now' : Z) : method unit :=
  run! update (with_window_title "Pokédex Viewer ✨ Shiny!") in
  run! update (with_dex_lbl_style "color: gold;") in
  run! update (with_shiny_lbl_visible true) in
  let! w := the_world in
  let entry := PDict [ (PStr "dex", PStr dex);
                       (PStr "name", PStr name);
                       (PStr "time", PStr (Text.lstrip_char "0" (Clock.strftime_time (am_pm w) now)));
                       (PStr "date", PStr (Clock.strftime_date now)) ] in
  let! v := self in
  let! hist := pure (py_append (shiny_history v) entry) in
  run! update (with_shiny_history hist) in
  run! call (save_shiny_history hist) in
  run! update (with_last_shiny_time (Some now)) in
  run! update_shiny_delay now' in
  (* add to tooltip *)
  _append_shiny_tooltip pid entry.

Definition apply_card (c : card) (now now' : Z) : method unit :=
  let 'Card pid dex name types flavor sprite_path shiny := c in
  (* Log encounter *)
  run! log_encounter pid name in
  (* Viewer visuals *)
  let! pix := call (QPixmap sprite_path) in
  run! update (with_img_lbl (match pix with
                             | null_pixmap => shows_text "(no sprite)"
                             | _ => shows_pixmap pix
                             end)) in
  run! update (with_dex_lbl (dex +:+ " – " +:+ name)) in
  run! update (with_type_lbl ("Type: " +:+ types)) in
  run! update (with_flavor_lbl flavor) in
  run! (if shiny then log_shiny pid dex name now now'
        else
          run! update (with_window_title "Pokédex Viewer") in
          run! update (with_dex_lbl_style "") in
          update (with_shiny_lbl_visible false)) in
  (* Update Dex cell visuals *)
  run! update_dex_cell pid sprite_path name in
  update_stats.

(** [fetch_card]: the worker runs [get_pokemon] and its signal reaches the
    slot connected to it, [apply_card] or [show_error]. *)
Definition fetch_card (d : draws) (now now' : Z) : method unit :=
  let! s := call (run d) in
  match s with
  | result_signal c => apply_card c now now'
  | error_signal msg => show_error msg
  end.

(** *** Construction *)

(** The body of the loop that initialises tooltips from the saved shiny
    history. *)
Definition replay_entry (entry : pyval) : method unit :=
  let! pid := pure (let? dex := py_getitem entry (PStr "dex") in int_of_tail dex) in
  _append_shiny_tooltip pid entry.

(** The widget before [__init__] has set anything. *)
Definition blank : PokedexViewer :=
  Viewer PNone PNone [] PNone None (shows_text "") "" "" "" true "" "" "" "" ∅.

(** [PokedexViewer.__init__], up to the first [fetch_card], which only
    starts the worker; [now] is the clock [update_shiny_delay] reads. *)
Definition __init__ (now : Z) : method unit :=
  (* Persistent data *)
  let! hist := call load_shiny_history in
  run! update (with_shiny_history hist) in
  let! (names, ids, name_map) := call load_encounter_data in
  run! update (fun v => with_id_to_name name_map (with_encounter_ids ids (with_encounters names v))) in
  run! update (with_last_shiny_time None) in
  run! update (with_shiny_lbl_visible true) in
  run! _build_dex_grid in
  (* Initialise tooltips from saved shiny history *)
  let! v := self in
  let! entries := pure (py_iter (shiny_history v)) in
  run! for_each entries replay_entry in
  (* Kick-off *)
  run! update_stats in
  update_shiny_delay now.

(** Starting the program in a world: the widget it builds, or the
    exception that ends the start. *)
Definition start (now : Z) (w : world) : result PokedexViewer * world :=
  match __init__ now (blank, w) with
  | (Ok _, (v, w')) => (Ok v, w')
  | (Raise e, (_, w')) => (Raise e, w')
  end.

(** ** Running a sequence of encounters *)

(** One delivery of the [result] signal: the card and the two readings of
    the clock [apply_card] may make. *)
Definition delivery : Type := card * Z * Z.

(** The slot [apply_card] run once per delivery, each on the state the
    previous one left. What a call did before it raised stays done. *)
Fixpoint apply_cards (calls : list delivery) (s : PokedexViewer * world) : PokedexViewer * world :=
  match calls with
  | [] => s
  | (c, now, now') :: rest => apply_cards rest (snd (apply_card c now now' s))
  end.

(** The display name of the most recent encounter with [pid]. *)
Fixpoint latest_name (pid : Z) (cards : list card) : option string :=
  match cards with
  | [] => None
  | c :: rest =>
      match latest_name pid rest with
      | Some n => Some n
      | None => if card_pid c =? pid then Some (card_name c) else None
      end
  end.

(** The ledger: the three fields [apply_card] logs into. *)
Definition ledger (v : PokedexViewer) : pyval * list pyval * pyval :=
  (encounters v, encounter_ids v, id_to_name v).

Definition empty_ledger : pyval * list pyval * pyval := (PList [], [], PDict []).

(** The card of a delivery. *)
Definition card_of (d : delivery) : card := fst (fst d).

(** The keys of the name map the widget builds are the ids, as [int]s. *)
Definition is_int (x : pyval) : Prop := exists z, x = PInt z.

Definition int_keyed (m : list (pyval * pyval)) : Prop :=
  Forall (fun kv => is_int (fst kv)) m.

(** ** Parts of the widget *)

(** The method [c] does not change the part [part] of the widget, whether
    it returns or raises. *)
Definition keeps {T A} (part : PokedexViewer -> T) (c : method A) : Prop :=
  forall s, part (fst (snd (c s))) = part (fst s).

(** The slot of [p] in the grid. *)
Definition slot (p : Z) (v : PokedexViewer) : option DexCell := dex_cells v !! p.

(** The grid has no slot for [p]. *)
Definition vacant (p : Z) (v : PokedexViewer) : bool :=
  match dex_cells v !! p with
  | None => true
  | Some _ => false
  end.


(** ** Documents on disk *)

(** The document at [path] cannot be read as JSON: the file is missing, or
    [json.loads] refuses its text (a truncated document, or any other text
    that is not JSON). *)
Definition unreadable (path : string) (w : world) : Prop :=
  match files w !! path with
  | None => True
  | Some t => exists e, Json.loads t = Raise e
  end.

(** ** The cache *)

(** The next write meets no disk fault. *)
Definition next_write_succeeds (w : world) : Prop :=
  match faults w with
  | Some _ :: _ => False
  | _ => True
  end.

(** The request failed: a transport error, or a status that
    [raise_for_status] raises on. *)
Definition fetch_failed (r : reply) : Prop :=
  match r with
  | NetFail _ => True
  | Response status _ => error_status status = true
  end.

(** The exception a failed fetch hands to the caller of [fetch_json]: the
    transport error itself, or the [HTTPError] of the status. *)
Definition raised_by (r : reply) (e : exn) : Prop :=
  match r with
  | NetFail e0 => e = e0
  | Response status _ => e = Exn HTTPError (pretty status +:+ " Error")
  end.

(** ** Persisting *)

(** The first [n] characters of a document. *)
Definition prefix_of (n : nat) (doc : string) : string :=
  Text.text (take n (Text.chars doc)).

(** The document [save_encounter_data] writes for a ledger. *)
Definition ledger_document (names : pyval) (ids : list pyval) (name_map : pyval) : result string :=
  Json.dumps (PDict [ (PStr "names", names); (PStr "ids", PList ids); (PStr "names_by_id", name_map) ]).

(** What one attempt to write [doc] at [path] may leave on disk: the file as
    it was, or the first characters of [doc], all of them when the write
    completes. Every other file is as it was. *)
Definition left_on_disk (path : string) (doc : result string) (w w' : world) : Prop :=
  (forall p, p <> path -> files w' !! p = files w !! p) /\
  (files w' !! path = files w !! path \/
   exists text n, doc = Ok text /\ files w' !! path = Some (prefix_of n text)).

(** ** Flavor text *)

(** The entry [e] of a species record carries [text] in language [lang]. *)
Definition tagged (e : pyval) (lang text : string) : Prop :=
  exists l, py_getitem e (PStr "language") = Ok l /\
            py_getitem l (PStr "name") = Ok (PStr lang) /\
            py_getitem e (PStr "flavor_text") = Ok (PStr text).

(** The texts in language [lang], in the order of the record. *)
Definition texts_in (lang : string) (entries : list (string * string)) : list string :=
  map snd (List.filter (fun p => String.eqb (fst p) lang) entries).

Definition is_break (c : ascii) : bool :=
  Text.eqb_char c Text.LF || Text.eqb_char c Text.FF.

(** Each newline and each form feed becomes one space. *)
Definition blank_breaks (l : list ascii) : list ascii :=
  map (fun c => if is_break c then " "%char else c) l.

(** A run of whitespace characters. *)
Definition blanks (l : list ascii) : Prop :=
  exists parts, Forall (fun p => p ∈ Text.whitespace) parts /\ l = concat parts.

(** [l] starts, or ends, with a whitespace character. *)
Definition starts_blank (l : list ascii) : Prop :=
  Text.first_prefix Text.whitespace l <> None.
Definition ends_blank (l : list ascii) : Prop :=
  Text.first_prefix (map (@rev ascii) Text.whitespace) (rev l) <> None.

(** The normalisation as the specification words it: every run of newlines
    and form feeds becomes a single space, then the ends are trimmed. *)
Fixpoint collapse_runs (in_run : bool) (l : list ascii) : list ascii :=
  match l with
  | [] => []
  | c :: r =>
      if is_break c then (if in_run then collapse_runs true r else " "%char :: collapse_runs true r)
      else c :: collapse_runs false r
  end.

Definition normalize_collapsing (text : string) : string :=
  Text.strip (Text.text (collapse_runs false (Text.chars text))).

(** ** One generation *)

Definition profile_url (d : draws) : string := BASE_URL +:+ "/pokemon/" +:+ pretty (randint d).
Definition species_url (d : draws) : string := BASE_URL +:+ "/pokemon-species/" +:+ pretty (randint d).
Definition profile_path (d : draws) : string := CACHE_DIR ("pokemon_" +:+ pretty (randint d) +:+ ".json").
Definition species_path (d : draws) : string := CACHE_DIR ("species_" +:+ pretty (randint d) +:+ ".json").

(** The sprite file [get_pokemon] looks for: the shiny or the normal one,
    by the draw. *)
Definition sprite_path (d : draws) : string :=
  CACHE_DIR (pretty (randint d) +:+ "_"
             +:+ (if random53 d <? SHINY_THRESHOLD then "shiny" else "normal") +:+ ".png").

(** The urls a computation requests when run in [w], latest first. *)
Definition requests_made {A} (c : M world A) (w : world) : list string :=
  take (length (requested (snd (c w))) - length (requested w)) (requested (snd (c w))).

(** The document [fetch_json] reads for a key: the cached text, or else the
    body of a response whose status is no error. *)
Definition document (url path : string) (w : world) : option string :=
  match files w !! path with
  | Some t => Some t
  | None =>
      match remote w url with
      | Response status body => if error_status status then None else Some body
      | NetFail _ => None
      end
  end.

(** A computation that lets transport errors through: it leaves the remote
    service alone, only adds to the log of requests, and raises the
    transport error of any request it made. *)
Definition lets_errors_through {A} (c : M world A) : Prop :=
  forall w,
    remote (snd (c w)) = remote w /\
    exists made,
      requested (snd (c w)) = made ++ requested w /\
      forall url e, url ∈ made -> remote w url = NetFail e -> fst (c w) = Raise e.

(** The part [f] of the widget a start builds. *)
Definition built {A} (f : PokedexViewer -> A) (r : result PokedexViewer * world) : result A :=
  match fst r with
  | Ok v => Ok (f v)
  | Raise e => Raise e
  end.

(** One slot of an event loop: a method run on the widget of a session. *)
Definition then_run (c : method unit) (r : result PokedexViewer * world) : result PokedexViewer * world :=
  match r with
  | (Ok v, w) =>
      match c (v, w) with
      | (Ok _, (v', w')) => (Ok v', w')
      | (Raise e, (_, w')) => (Raise e, w')
      end
  | (Raise e, w) => (Raise e, w)
  end.

(** ** The time since the last shiny *)

(** What [update_shiny_delay] writes for a delay of [mins] minutes. *)
Definition delay_label (mins : Z) : string :=
  if mins =? 0 then "✨ Just now!"
  else if mins =? 1 then "⏱️ 1 minute since last shiny!"
  else "⏱️ " +:+ pretty mins +:+ " minutes since last shiny!".

Definition no_shiny_label : string := "⏱️ No shiny encountered yet.".


(** The widget holds a list of names, a dict of names by id and a list of
    shiny entries, as it does when the documents it loaded had that
    shape. *)
Definition well_shaped (v : PokedexViewer) : Prop :=
  (exists names, encounters v = PList names) /\
  (exists name_map, id_to_name v = PDict name_map) /\
  (exists hist, shiny_history v = PList hist).

(** From a state where [P] holds, [c] returns only in states where [Q]
    holds. *)
Definition ensures {S A} (P : S -> Prop) (c : M S A) (Q : S -> Prop) : Prop :=
  forall s, P s -> match c s with
                   | (Ok _, s') => Q s'
                   | (Raise _, _) => True
                   end.

(** ** What a JSON document can hold *)

(** Every dict in [v], at any depth, has only strings as keys. *)
Fixpoint str_keyed (v : pyval) : bool :=
  match v with
  | PList l => forallb str_keyed l
  | PDict d =>
      forallb (fun kv => match fst kv with PStr _ => str_keyed (snd kv) | _ => false end) d
  | _ => true
  end.

(** One item of a dict of such a value. *)
Definition str_keyed_item (kv : pyval * pyval) : bool :=
  match fst kv with PStr _ => str_keyed (snd kv) | _ => false end.

(** ** Sample worlds *)

Module Sample.

(** The text of a value, as [json.dumps] writes it. *)
Definition doc (v : pyval) : string :=
  match Json.dumps v with
  | Ok text => text
  | Raise _ => ""
  end.

Definition type_slot (name : string) : pyval :=
  PDict [ (PStr "slot", PInt 1); (PStr "type", PDict [ (PStr "name", PStr name) ]) ].

Definition flavor_entry (lang text : string) : pyval :=
  PDict [ (PStr "flavor_text", PStr text);
          (PStr "language", PDict [ (PStr "name", PStr lang) ]) ].

Definition pikachu : pyval :=
  PDict [ (PStr "id", PInt 25);
          (PStr "name", PStr "pikachu");
          (PStr "types", PList [ type_slot "electric" ]);
          (PStr "sprites", PDict [ (PStr "front_default", PStr "https://img.example/25.png");
                                   (PStr "front_shiny", PStr "https://img.example/shiny/25.png") ]) ].

(** A text with a newline followed by a form feed. *)
Definition pikachu_text : string :=
  "It keeps its tail" +:+ Text.bytes [10; 12]%nat +:+ "raised.".

Definition pikachu_species : pyval :=
  PDict [ (PStr "flavor_text_entries",
           PList [ flavor_entry "fr" "Il leve la queue.";
                   flavor_entry "en" pikachu_text ]) ].

(** A service that knows Pikachu, has its shiny sprite but answers 404 for
    the normal one, and is unreachable for anything else. *)
Definition service (url : string) : reply :=
  if String.eqb url "https://pokeapi.co/api/v2/pokemon/25" then Response 200 (doc pikachu)
  else if String.eqb url "https://pokeapi.co/api/v2/pokemon-species/25" then Response 200 (doc pikachu_species)
  else if String.eqb url "https://img.example/25.png" then Response 404 "Not Found"
  else if String.eqb url "https://img.example/shiny/25.png" then Response 200 "PNG shiny 25"
  else NetFail (Exn RequestException "Max retries exceeded").

Definition unreachable (url : string) : reply :=
  NetFail (Exn RequestException "Max retries exceeded").

Definition AM_PM (afternoon : bool) : string := if afternoon then "PM" else "AM".

(** An empty cache directory, with and without the service. *)
Definition online : world := World ∅ service [] [] (fun _ => true) AM_PM.
Definition offline : world := World ∅ unreachable [] [] (fun _ => true) AM_PM.

(** Draws: Pikachu, not shiny and shiny. *)
Definition plain : draws := Draws 25 (2 ^ 52) (fun _ => 0%nat).
Definition lucky : draws := Draws 25 4096 (fun _ => 0%nat).

(** 2024-01-01 14:15 on the wall clock. *)
Definition afternoon : Z := 738885 * Clock.US_PER_DAY + (14 * 60 + 15) * Clock.US_PER_MINUTE.

(** A ledger with one encounter. *)
Definition names : pyval := PList [ PStr "Pikachu" ].
Definition ids : list pyval := [ PInt 25 ].
Definition name_map : pyval := PDict [ (PInt 25, PStr "Pikachu") ].

(** A first session: the widget starts on an empty cache and a shiny
    Pikachu arrives. *)
Definition first_session : result PokedexViewer * world :=
  then_run (fetch_card lucky afternoon afternoon) (start afternoon online).

(** The program started again, ten minutes later, on the files the first
    session left. *)
Definition second_session : result PokedexViewer * world :=
  start (afternoon + 10 * Clock.US_PER_MINUTE) (snd first_session).

(** A cache directory whose ledger document was cut short, and which has
    no shiny history. *)
Definition cut_short : world :=
  set_files {[ ENCOUNTER_LOG := prefix_of 40 (doc (PDict [ (PStr "names", names);
                                                            (PStr "ids", PList ids);
                                                            (PStr "names_by_id", name_map) ])) ]}
            offline.

(** A cache directory whose documents are JSON of the wrong shape: a
    ledger whose names are the number 5, and the number 7 for a history. *)
Definition wrong_shape : world :=
  set_files {[ ENCOUNTER_LOG := doc (PDict [ (PStr "names", PInt 5) ]);
               HISTORY_FILE := "7" ]}
            offline.

(** A disk that fails after 12 characters of the next write, under a
    ledger document that holds no encounter yet. *)
Definition failing_disk : world :=
  set_faults [ Some (WriteStops 12) ]
    (set_files {[ ENCOUNTER_LOG := doc (PDict [ (PStr "names", PList []);
                                                (PStr "ids", PList []);
                                                (PStr "names_by_id", PDict []) ]) ]}
               offline).

(** A species record whose only English text has two newlines in a row. *)
Definition two_breaks : string := "a" +:+ Text.bytes [10; 10]%nat +:+ "b".
Definition terse_species : pyval :=
  PDict [ (PStr "flavor_text_entries", PList [ flavor_entry "en" two_breaks ]) ].

(** Three encounters, the first id met twice under two names. *)
Definition deliveries : list delivery :=
  [ (Card 25 "#025" "Pikachu" "Electric" "" "pokesprites/25_normal.png" false, afternoon, afternoon);
    (Card 6 "#006" "Charizard" "Fire/Flying" "" "pokesprites/6_shiny.png" true, afternoon, afternoon);
    (Card 25 "#025" "Pikachu-gmax" "Electric" "" "pokesprites/25_normal.png" false, afternoon, afternoon) ].

(** A saved shiny entry for a dex number the grid has no slot for. *)
Definition stray_entry : pyval :=
  PDict [ (PStr "dex", PStr "#494"); (PStr "name", PStr "Victini");
          (PStr "time", PStr "2:15 PM"); (PStr "date", PStr "01/01/2024") ].

End Sample.

(** ** The files of one generation *)

(** The dex label of an id, [f"#{pid:03d}"]. *)
Definition dex_label (pid : Z) : string := "#" +:+ Text.fmt_0d 3 pid.

(** The label has four characters and reads back as the id. *)
Definition label_reads_back (pid : Z) : bool :=
  (String.length (dex_label pid) =? 4)%nat &&
  match int_of_tail (PStr (dex_label pid)) with
  | Ok q => q =? pid
  | Raise _ => false
  end.

(** ** Parts of the world *)

(** The computation [c] does not change the part [part] of the world,
    whether it returns or raises. *)
Definition spares {T A} (part : world -> T) (c : M world A) : Prop :=
  forall w, part (snd (c w)) = part w.

(** What is stored under [path]. *)
Definition stored (path : string) (w : world) : option string := files w !! path.

(** ** The grid and a widget in working order *)

(** The ids that have a cell in the grid. *)
Definition grid_ids (v : PokedexViewer) : gset Z := dom (dex_cells v).

(** The grid holds a cell for each id from 1 to [MAX_ID], and no other. *)
Definition whole_grid (v : PokedexViewer) : Prop :=
  forall p, is_Some (dex_cells v !! p) <-> 1 <= p <= MAX_ID.

(** The cell [_build_dex_grid] makes for an id not met before. *)
Definition unseen_cell : DexCell := Cell grey_placeholder "***" "No shiny encountered yet.".

Definition is_str (x : pyval) : Prop := exists s, x = PStr s.

(** A history entry from which [update_stats] can read a name. *)
Definition has_name (e : pyval) : Prop :=
  exists n, py_getitem e (PStr "name") = Ok (PStr n).

(** The widget as the program itself leaves it: a list of names, a dict of
    names by id, a list of shiny entries with their names. *)
Definition sound (v : PokedexViewer) : Prop :=
  (exists names, encounters v = PList names /\ Forall is_str names) /\
  (exists name_map, id_to_name v = PDict name_map) /\
  (exists hist, shiny_history v = PList hist /\ Forall has_name hist).

(** From a state where [P] holds, [c] returns, with a value and in a state
    that [Q] holds of. *)
Definition returns {S A} (P : S -> Prop) (c : M S A) (Q : A -> S -> Prop) : Prop :=
  forall s, P s -> exists a s', c s = (Ok a, s') /\ Q a s'.

(** Every call of the slot [apply_card] in the sequence returns. *)
Fixpoint all_return (calls : list delivery) (s : PokedexViewer * world) : Prop :=
  match calls with
  | [] => True
  | (c, now, now') :: rest =>
      fst (apply_card c now now' s) = Ok tt /\ all_return rest (snd (apply_card c now now' s))
  end.

(** The counts of a [Counter] are ints. *)
Definition int_valued (c : list (pyval * pyval)) : Prop :=
  Forall (fun kv => exists n, snd kv = PInt n) c.

(** A widget in working order whose grid holds the ids [G]. *)
Definition in_order (G : gset Z) (s : PokedexViewer * world) : Prop :=
  sound (fst s) /\ grid_ids (fst s) = G.

(** The entry [apply_card] records for a shiny encounter read at clock
    [now], where the locale writes the half of the day with [ampm]. *)
Definition shiny_entry (ampm : bool -> string) (c : card) (now : Z) : pyval :=
  PDict [ (PStr "dex", PStr (card_dex c));
          (PStr "name", PStr (card_name c));
          (PStr "time", PStr (Text.lstrip_char "0" (Clock.strftime_time ampm now)));
          (PStr "date", PStr (Clock.strftime_date now)) ].

(** The grid of a program that has met nothing yet. *)
Definition fresh_cells (l : list Z) (m : gmap Z DexCell) : gmap Z DexCell :=
  foldl (fun m p => <[p := unseen_cell]> m) m l.

(** ** A start that fails *)

(** From a state where [P] holds, [c] raises. *)
Definition raises_from {S A} (P : S -> Prop) (c : M S A) : Prop :=
  forall s, P s -> exists e, fst (c s) = Raise e.

(** What the replay of the history reads from an entry: [int(entry["dex"][1:])]. *)
Definition replayed_id (entry : pyval) : result Z :=
  rbind (py_getitem entry (PStr "dex")) int_of_tail.

(** ** The history of a session *)

(** The method [c] does not change the part [part] of the world, whether
    it returns or raises. *)
Definition world_keeps {T A} (part : world -> T) (c : method A) : Prop :=
  forall s, part (snd (snd (c s))) = part (snd s).

(** The entries a sequence of deliveries adds to the history: one for each
    shiny card, in order. *)
Definition shiny_entries (ampm : bool -> string) (calls : list delivery) : list pyval :=
  flat_map (fun d : delivery =>
              let '(c, now, _) := d in
              if card_shiny c then [shiny_entry ampm c now] else []) calls.

(** ** Memory and disk *)

(** The ledger document on disk is the dump of the ledger in memory,
    whenever that ledger can be written as JSON. *)
Definition ledger_on_disk (s : PokedexViewer * world) : Prop :=
  forall doc, ledger_document (encounters (fst s)) (encounter_ids (fst s)) (id_to_name (fst s)) = Ok doc ->
              files (snd s) !! ENCOUNTER_LOG = Some doc.

(** The same of the shiny history. *)
Definition history_on_disk (s : PokedexViewer * world) : Prop :=
  forall doc, Json.dumps (shiny_history (fst s)) = Ok doc ->
              files (snd s) !! HISTORY_FILE = Some doc.

(** With no disk fault pending before [c], none is pending after it. *)
Definition calm {A} (c : method A) : Prop :=
  forall s, faults (snd s) = [] -> faults (snd (snd (c s))) = [].

(** From a state where [P] holds, [c] ends, by a return or by an
    exception, in a state where [Q] holds. *)
Definition always {S A} (P : S -> Prop) (c : M S A) (Q : S -> Prop) : Prop :=
  forall s, P s -> Q (snd (c s)).

(** The state after the encounter is logged, on a disk without faults: the
    ledger is on disk and the history is the list [hist]. *)
Definition logged (hist : list pyval) (s : PokedexViewer * world) : Prop :=
  faults (snd s) = [] /\ well_shaped (fst s) /\ ledger_on_disk s /\
  shiny_history (fst s) = PList hist.

(** Memory and disk agree, on a disk without faults. *)
Definition mirrored (s : PokedexViewer * world) : Prop :=
  faults (snd s) = [] /\ well_shaped (fst s) /\ ledger_on_disk s /\ history_on_disk s.

(** The ledger in memory is on disk, on a disk without faults. *)
Definition written (s : PokedexViewer * world) : Prop :=
  faults (snd s) = [] /\ well_shaped (fst s) /\ ledger_on_disk s.

(** ** Values that survive a JSON document *)

(** The text has ASCII characters only. *)
Definition ascii_text (s : string) : bool :=
  forallb (fun c => Text.ord c <? 128) (Text.chars s).

(** Values JSON gives back as they were: no floats, ASCII strings, dicts
    keyed by distinct strings. *)
Fixpoint stable (v : pyval) : Prop :=
  match v with
  | PNone | PBool _ | PInt _ => True
  | PFloat _ => False
  | PStr s => ascii_text s = true
  | PList l =>
      (fix all (l : list pyval) : Prop :=
         match l with
         | [] => True
         | x :: r => stable x /\ all r
         end) l
  | PDict d =>
      NoDup (map fst d) /\
      (fix all (d : list (pyval * pyval)) : Prop :=
         match d with
         | [] => True
         | kx :: r => (exists s, fst kx = PStr s /\ ascii_text s = true) /\ stable (snd kx) /\ all r
         end) d
  end.

(** What may follow a value in a document: not a character that would
    continue a number. *)
Definition tail_ok (rest : list ascii) : bool :=
  match rest with
  | [] => true
  | c :: _ => negb (Text.is_digit c || Text.eqb_char c "." || Text.eqb_char c "e" || Text.eqb_char c "E")
  end.

(** The items of a dict as [encode] writes them. *)
Fixpoint encode_items (level : nat) (d : list (pyval * pyval)) : result (list string) :=
  match d with
  | [] => Ok []
  | (k, x) :: r =>
      rbind (Json.key_str k) (fun ks =>
      rbind (Json.encode (S level) x) (fun y =>
      rbind (encode_items level r) (fun ys => Ok ((Json.encode_str ks +:+ ": " +:+ y) :: ys))))
  end.

(** [v], written at any nesting level and followed by anything that may
    follow a value, is read back as [v] by a scanner with fuel for the
    length of its text. *)
Definition reads (v : pyval) : Prop :=
  forall level doc, Json.encode level v = Ok doc ->
  forall fuel rest, (length (Text.chars doc) <= fuel)%nat -> tail_ok rest = true ->
  Json.scan_value fuel (Text.chars doc ++ rest) = Some (v, rest).

(** The text starts a value: with a character that is neither whitespace
    nor the end of an array. *)
Definition opens_value (l : list ascii) : Prop :=
  exists c r, l = c :: r /\ Json.is_ws c = false /\ Text.eqb_char c "]" = false.

(** The items of a dict keyed by strings, as pairs of a key and a value. *)
Definition pairs_of (d : list (pyval * pyval)) : list (string * pyval) :=
  map (fun kx => (match fst kx with PStr s => s | _ => "" end, snd kx)) d.

(** [p] is the text of the member [kx] at nesting [level]: the key, a
    colon, the value. *)
Definition member_text (level : nat) (kx : pyval * pyval) (p : string) : Prop :=
  exists s y, fst kx = PStr s /\ ascii_text s = true /\
              Json.encode (S level) (snd kx) = Ok y /\
              p = Json.encode_str s +:+ ": " +:+ y.

(** ** What a restart finds *)

(** A card whose dex label and name are ASCII, as those of the service
    are. *)
Definition ascii_card (c : card) : Prop :=
  ascii_text (card_dex c) = true /\ ascii_text (card_name c) = true.

(** The locale writes AM and PM in ASCII. *)
Definition ascii_locale (ampm : bool -> string) : Prop :=
  forall b, ascii_text (ampm b) = true.

Definition ascii_str (x : pyval) : Prop := exists s, x = PStr s /\ ascii_text s = true.

(** A name map as the program builds it: distinct integer keys, ASCII
    names. *)
Definition tidy_map (m : list (pyval * pyval)) : Prop :=
  int_keyed m /\ NoDup (map fst m) /\ Forall (fun kx => ascii_str (snd kx)) m.

(** A ledger as the program builds it from ASCII names. *)
Definition tidy_ledger (names ids : list pyval) (m : list (pyval * pyval)) : Prop :=
  Forall ascii_str names /\ Forall is_int ids /\ NoDup ids /\ tidy_map m.

(** The key as JSON writes it: an integer becomes its decimal text. *)
Definition str_key (kx : pyval * pyval) : pyval * pyval :=
  (match fst kx with PInt z => PStr (pretty z) | k => k end, snd kx).

(** The name map as it comes back from the ledger document. *)
Definition stringified (m : list (pyval * pyval)) : list (pyval * pyval) := map str_key m.







(** ** The cache over time *)

(** The computation [c] makes at most [n] requests. *)
Definition asks {A} (n : nat) (c : M world A) : Prop :=
  forall w, exists made, requested (snd (c w)) = made ++ requested w /\ (length made <= n)%nat.

(** The file [p] holds [t]. *)
Definition holds (p t : string) (w : world) : Prop := files w !! p = Some t.

(** ** Tooltips *)

(** No line boundary of [str.splitlines] starts anywhere in the text. *)
Fixpoint no_break (l : list ascii) : bool :=
  match l with
  | [] => true
  | _ :: r =>
      match Text.first_prefix Text.line_breaks l with
      | Some _ => false
      | None => no_break r
      end
  end.

(** A line a tooltip can list: not empty, without a line boundary, and not
    one that starts like the tooltip of no shiny. *)
Definition listable (line : string) : Prop :=
  line <> "" /\ no_break (Text.chars line) = true /\ Text.startswith "No shiny" line = false.

(** The tooltip that lists [lines]. *)
Definition listing (lines : list string) : string :=
  match lines with
  | [] => "No shiny encountered yet."
  | _ => Text.join (Text.bytes [10%nat]) lines
  end.

(** The line of a saved entry whose time and date are strings, with the id
    its dex label names. *)
Definition entry_line (entry : pyval) (pid : Z) (line : string) : Prop :=
  replayed_id entry = Ok pid /\
  exists t d, py_getitem entry (PStr "time") = Ok (PStr t) /\
              py_getitem entry (PStr "date") = Ok (PStr d) /\
              line = t +:+ " – " +:+ d.

(** The lines of the saved entries that name the id [p], in order. *)
Definition lines_of (p : Z) (items : list (Z * string)) : list string :=
  map snd (List.filter (fun it => fst it =? p) items).

(** The grid [cells] is the grid [base] with, in each cell, the tooltip
    that lists the lines of [items] for its id. *)
Definition lists_items (base cells : gmap Z DexCell) (items : list (Z * string)) : Prop :=
  forall p, cells !! p
            = (fun c => Cell (pix_lbl c) (name_lbl c) (listing (lines_of p items))) <$> base !! p.

(** The saved entry [e] names the id and has the line of [it], a line a
    tooltip can list. *)
Definition replays_as (e : pyval) (it : Z * string) : Prop :=
  entry_line e (fst it) (snd it) /\ listable (snd it).

(** ** The names of a restarted grid *)

(** No cell of the grid shows a name. *)
Definition nameless (v : PokedexViewer) : Prop :=
  forall p c, dex_cells v !! p = Some c -> name_lbl c = "***".

Definition is_dict (x : pyval) : bool :=
  match x with PDict _ => true | _ => false end.

(** The name map is as [json.loads] builds it and, when it is a dict, the
    grid shows no name. *)
Definition names_unread (v : PokedexViewer) : Prop :=
  str_keyed (id_to_name v) = true /\ (is_dict (id_to_name v) = true -> nameless v).

(** ** The statistics *)

(** How often [n] occurs among [names]. *)
Fixpoint occurrences (n : string) (names : list string) : Z :=
  match names with
  | [] => 0
  | m :: r => (if String.eqb m n then 1 else 0) + occurrences n r
  end.

(** [n] occurs [k] times among [names], no name occurs more often, and
    every name met before [n] occurs less often. *)
Definition leads (n : string) (k : Z) (names : list string) : Prop :=
  occurrences n names = k /\
  (forall m, occurrences m names <= k) /\
  exists before after, names = before ++ n :: after /\
                       forall m, m ∈ before -> occurrences m names < k.

(** The counter that holds, for each of [keys] in their order, its
    occurrences among [names]. *)
Definition counts_of (keys names : list string) : list (pyval * pyval) :=
  map (fun n => (PStr n, PInt (occurrences n names))) keys.

(** [keys] are the names of [seen], each once, in the order in which they
    were first met. *)
Definition tally (keys seen : list string) : Prop :=
  NoDup keys /\
  (forall m, m ∈ seen <-> m ∈ keys) /\
  forall kpre n kpost, keys = kpre ++ n :: kpost ->
    exists pre post, seen = pre ++ n :: post /\ forall m, m ∈ pre -> m ∈ kpre.

(** The entry of the shiny history is recorded under the name [n]. *)
Definition named (e : pyval) (n : string) : Prop :=
  py_getitem e (PStr "name") = Ok (PStr n).

(** The part of the statistics on the most frequent encounter. *)
Definition most_part (names : list string) (part : list string) : Prop :=
  (part = [] /\ forall m, occurrences m names <= 1) \/
  exists n k, leads n k names /\ 1 < k /\
              part = [" 🔁 Most encountered: " +:+ n +:+ " (" +:+ pretty k +:+ ")"].

(** The part of the statistics on the most frequent shiny. *)
Definition top_part (shinies : list string) (part : list string) : Prop :=
  (part = [] /\ shinies = []) \/
  exists n k, leads n k shinies /\
              part = [" ✨ Top shiny: " +:+ n +:+ " (" +:+ pretty k +:+ ")"].

(** ** More sample worlds *)

Module Scene.

(** A service that answers every request with a page that is no JSON. *)
Definition portal (url : string) : reply := Response 200 "<html>".
Definition behind_portal : world := World ∅ portal [] [] (fun _ => true) Sample.AM_PM.

(** The cache after a shiny Pikachu was generated once. *)
Definition warm : world := snd (run Sample.lucky Sample.online).

(** The widget of a first run. *)
Definition fresh : PokedexViewer :=
  match fst (start Sample.afternoon Sample.offline) with
  | Ok v => v
  | Raise _ => blank
  end.

(** A history document that is JSON, a list, with an entry that has no dex
    label. *)
Definition misshapen : world :=
  set_files {[ HISTORY_FILE := "[{}]" ]} Sample.offline.

(** The widget of a restart after the three sample encounters. *)
Definition restarted : PokedexViewer :=
  match fst (start (Sample.afternoon + 10 * Clock.US_PER_MINUTE)
                   (snd (apply_cards Sample.deliveries (fresh, Sample.offline)))) with
  | Ok v => v
  | Raise _ => blank
  end.




(** Two saved entries of id 25 and one of id 6. *)
Definition saved_entry (dex time date : string) : pyval :=
  PDict [ (PStr "dex", PStr dex); (PStr "name", PStr "Pikachu");
          (PStr "time", PStr time); (PStr "date", PStr date) ].
Definition saved : list pyval :=
  [ saved_entry "#025" "2:15 PM" "01/01/2024";
    saved_entry "#006" "9:00 AM" "02/01/2024";
    saved_entry "#025" "11:30 PM" "03/01/2024" ].
Definition saved_items : list (Z * string) :=
  [ (25, "2:15 PM – 01/01/2024"); (6, "9:00 AM – 02/01/2024"); (25, "11:30 PM – 03/01/2024") ].

(** A widget that met Eevee and Pikachu twice each, Eevee first, and holds
    the three saved shinies. *)
Definition busy : PokedexViewer :=
  with_encounters (PList (map PStr ["Eevee"; "Pikachu"; "Pikachu"; "Eevee"]))
    (with_shiny_history (PList saved) blank).

End Scene.

(** * Properties *)

(** ** Frame: what a method leaves alone *)

Section Frame.
Context {T : Type} (part : PokedexViewer -> T).

Lemma keeps_ret {A} (a : A) : keeps part (ret a).
Proof. intros s. reflexivity. Qed.

Lemma keeps_throw {A} (e : exn) : keeps part (@throw _ A e).
Proof. intros s. reflexivity. Qed.

Lemma keeps_pure {A} (r : result A) : keeps part (pure r).
Proof. intros s. reflexivity. Qed.

Lemma keeps_self : keeps part self.
Proof. intros s. reflexivity. Qed.

Lemma keeps_the_world : keeps part the_world.
Proof. intros s. reflexivity. Qed.

Lemma keeps_call {A} (c : M world A) : keeps part (call c).
Proof. intros [v w]. unfold call. simpl. destruct (c w). reflexivity. Qed.

Lemma keeps_bind {A B} (c : method A) (k : A -> method B) :
  keeps part c -> (forall a, keeps part (k a)) -> keeps part (bind c k).
Proof.
  intros Hc Hk s. unfold bind. specialize (Hc s).
  destruct (c s) as [[a|e] s']; simpl in *.
  - rewrite Hk. exact Hc.
  - exact Hc.
Qed.

Lemma keeps_update (f : PokedexViewer -> PokedexViewer) :
  (forall v, part (f v) = part v) -> keeps part (update f).
Proof. intros Hf [v w]. simpl. apply Hf. Qed.

Lemma keeps_for_each {A} (l : list A) (body : A -> method unit) :
  (forall a, a ∈ l -> keeps part (body a)) -> keeps part (for_each l body).
Proof.
  induction l as [|x r IH]; simpl; intros Hb.
  - apply keeps_ret.
  - apply keeps_bind; [apply Hb; left | intros _; apply IH].
    intros a Ha. apply Hb. right. exact Ha.
Qed.

End Frame.

(** Goals [keeps part c], by the shape of [c]; what is left is about the
    updates that touch the part. *)
Ltac frame :=
  repeat first
    [ apply keeps_ret | apply keeps_throw | apply keeps_pure | apply keeps_self
    | apply keeps_the_world | apply keeps_call
    | apply keeps_update; intros []; reflexivity
    | apply keeps_for_each; intros ? ?
    | apply keeps_bind; [| intros ?]
    | match goal with
      | |- keeps _ (match ?x with _ => _ end) => destruct x
      | |- keeps _ (if ?x then _ else _) => destruct x
      end ].

(** ** The ledger after a sequence of encounters *)

Lemma save_encounter_data_returns names ids name_map w :
  fst (save_encounter_data names ids name_map w) = Ok tt.
Proof.
  unfold save_encounter_data, try_except, bind, pure, ret, write_text.
  destruct (Json.dumps _) as [doc|e]; simpl; [|reflexivity].
  destruct (faults w) as [|[[|n]|] rest]; reflexivity.
Qed.

Lemma save_shiny_history_returns hist w :
  fst (save_shiny_history hist w) = Ok tt.
Proof.
  unfold save_shiny_history, try_except, bind, pure, ret, write_text.
  destruct (Json.dumps _) as [doc|e]; simpl; [|reflexivity].
  destruct (faults w) as [|[[|n]|] rest]; reflexivity.
Qed.

(** The block that logs an encounter, on a ledger of the right types: it
    returns, and the three fields are the old ones with the encounter
    added. *)
Lemma log_encounter_ledger pid name v w names name_map :
  encounters v = PList names -> id_to_name v = PDict name_map ->
  fst (log_encounter pid name (v, w)) = Ok tt /\
  ledger (fst (snd (log_encounter pid name (v, w)))) =
    (PList (names ++ [PStr name]),
     set_add (PInt pid) (encounter_ids v),
     PDict (dict_set (PInt pid) (PStr name) name_map)).
Proof.
  intros Hn Hm. destruct v. simpl in Hn, Hm. subst.
  unfold log_encounter, bind, self, pure, update, call. simpl.
  match goal with |- context [save_encounter_data ?a ?b ?c ?w] =>
    pose proof (save_encounter_data_returns a b c w) as Hs;
    destruct (save_encounter_data a b c w) as [r w'] end.
  simpl in *. subst r. split; reflexivity.
Qed.

Lemma apply_card_ledger c now now' v w names name_map :
  encounters v = PList names -> id_to_name v = PDict name_map ->
  ledger (fst (snd (apply_card c now now' (v, w)))) =
    (PList (names ++ [PStr (card_name c)]),
     set_add (PInt (card_pid c)) (encounter_ids v),
     PDict (dict_set (PInt (card_pid c)) (PStr (card_name c)) name_map)).
Proof.
  intros Hn Hm. destruct c as [pid dex name types flavor sprite_path shiny]. simpl.
  destruct (log_encounter_ledger pid name v w names name_map Hn Hm) as [Hok Hl].
  unfold apply_card. unfold bind at 1.
  destruct (log_encounter pid name (v, w)) as [[[]|e] s1]; simpl in Hok, Hl; [|discriminate].
  rewrite <- Hl.
  match goal with |- ledger (fst (snd (?rest s1))) = _ =>
    assert (keeps ledger rest) as Hk end.
  { frame. }
  apply Hk.
Qed.

Local Arguments key_eqb : simpl never.

Lemma key_eqb_int a b : key_eqb (PInt a) (PInt b) = (a =? b).
Proof.
  unfold key_eqb, xnum_of, xnum_eqb, fin_compare. simpl.
  rewrite !Z.mul_1_r. destruct (Z.compare_spec a b); symmetry.
  - apply Z.eqb_eq; assumption.
  - apply Z.eqb_neq; lia.
  - apply Z.eqb_neq; lia.
Qed.

Lemma set_mem_int p s :
  Forall is_int s -> set_mem (PInt p) s = true <-> PInt p ∈ s.
Proof.
  intros Hs. unfold set_mem. rewrite existsb_exists. split.
  - intros (x & Hin & Heq). rewrite Forall_forall in Hs.
    destruct (Hs x) as [z ->]; [apply list_elem_of_In; exact Hin|].
    rewrite key_eqb_int in Heq. apply Z.eqb_eq in Heq. subst z.
    apply list_elem_of_In. exact Hin.
  - intros Hin. exists (PInt p). split; [apply list_elem_of_In; exact Hin|].
    rewrite key_eqb_int. apply Z.eqb_refl.
Qed.

Lemma set_add_int p s :
  Forall is_int s -> NoDup s ->
  Forall is_int (set_add (PInt p) s) /\ NoDup (set_add (PInt p) s) /\
  forall x, x ∈ set_add (PInt p) s <-> x ∈ s \/ x = PInt p.
Proof.
  intros Hs Hnd. unfold set_add.
  destruct (set_mem (PInt p) s) eqn:Hm.
  - apply set_mem_int in Hm; [|exact Hs]. repeat split; try assumption.
    + intros Hx. left. exact Hx.
    + intros [Hx | ->]; assumption.
  - assert (PInt p ∉ s) as Hnot.
    { intros Hin. apply (set_mem_int p s Hs) in Hin. congruence. }
    repeat split.
    + apply Forall_app. split; [exact Hs|]. constructor; [exists p; reflexivity | constructor].
    + apply NoDup_app. repeat split; [exact Hnd | | apply NoDup_singleton].
      intros x Hx Hx'. apply list_elem_of_singleton in Hx'. subst x. contradiction.
    + rewrite elem_of_app, list_elem_of_singleton. tauto.
    + rewrite elem_of_app, list_elem_of_singleton. tauto.
Qed.

Lemma dict_set_int_keyed q x m : int_keyed m -> int_keyed (dict_set (PInt q) x m).
Proof.
  unfold int_keyed. induction 1 as [|[k y] r Hk Hr IH]; simpl.
  - constructor; [exists q; reflexivity | constructor].
  - destruct (key_eqb k (PInt q)); constructor; assumption.
Qed.

Lemma dict_get_set_int p q x m :
  int_keyed m ->
  dict_get (PInt p) (dict_set (PInt q) x m) = if q =? p then Some x else dict_get (PInt p) m.
Proof.
  unfold int_keyed. induction 1 as [|[k y] r Hk Hr IH]; simpl.
  - rewrite key_eqb_int. reflexivity.
  - destruct Hk as [z Hz]. simpl in Hz. subst k. rewrite key_eqb_int.
    destruct (z =? q) eqn:Hzq; simpl; rewrite key_eqb_int.
    + apply Z.eqb_eq in Hzq. subst z. destruct (q =? p); reflexivity.
    + destruct (z =? p) eqn:Hzp; [|exact IH].
      apply Z.eqb_eq in Hzp. subst z. rewrite Z.eqb_sym, Hzq. reflexivity.
Qed.

(** The invariant of the ledger under [apply_card], from any ledger whose
    ids and keys are integers. *)
Lemma apply_cards_ledger calls : forall v w names ids name_map,
  ledger v = (PList names, ids, PDict name_map) ->
  Forall is_int ids -> NoDup ids -> int_keyed name_map ->
  exists ids' name_map',
    ledger (fst (apply_cards calls (v, w))) =
      (PList (names ++ map (fun d => PStr (card_name (card_of d))) calls), ids', PDict name_map')
    /\ Forall is_int ids' /\ NoDup ids' /\ int_keyed name_map'
    /\ (forall x, x ∈ ids' <-> x ∈ ids \/ exists c, c ∈ map card_of calls /\ x = PInt (card_pid c))
    /\ (forall pid, dict_get (PInt pid) name_map' =
                    match latest_name pid (map card_of calls) with
                    | Some n => Some (PStr n)
                    | None => dict_get (PInt pid) name_map
                    end).
Proof.
  induction calls as [|[[c now] now'] rest IH]; intros v w names ids name_map Hl Hi Hnd Hk.
  - exists ids, name_map. simpl. rewrite app_nil_r. repeat split; try assumption.
    + intros Hx. left. exact Hx.
    + intros [Hx | (c & Hc & _)]; [exact Hx | inversion Hc].
  - simpl. injection Hl as Hn Hids Hm.
    pose proof (apply_card_ledger c now now' v w names name_map Hn Hm) as Hstep.
    destruct (apply_card c now now' (v, w)) as [r [v1 w1]]. simpl in Hstep.
    rewrite Hids in Hstep.
    destruct (set_add_int (card_pid c) ids Hi Hnd) as (Hi1 & Hnd1 & Hmem1).
    destruct (IH v1 w1 _ _ _ Hstep Hi1 Hnd1 (dict_set_int_keyed _ _ _ Hk))
      as (ids' & name_map' & Hl' & Hi' & Hnd' & Hk' & Hmem' & Hget').
    exists ids', name_map'. simpl. rewrite <- app_assoc in Hl'. simpl in Hl'.
    repeat split; try assumption.
    + intros Hx. apply Hmem' in Hx. destruct Hx as [Hx | (c' & Hc' & ->)].
      * apply Hmem1 in Hx. destruct Hx as [Hx | ->]; [left; exact Hx|].
        right. exists c. split; [left | reflexivity].
      * right. exists c'. split; [right; exact Hc' | reflexivity].
    + intros [Hx | (c' & Hc' & ->)]; apply Hmem'.
      * left. apply Hmem1. left. exact Hx.
      * apply elem_of_cons in Hc'. destruct Hc' as [-> | Hc'].
        -- left. apply Hmem1. right. reflexivity.
        -- right. exists c'. split; [exact Hc' | reflexivity].
    + intros pid. rewrite Hget'.
      change (card_of (c, now, now')) with c.
      destruct (latest_name pid (map card_of rest)); [reflexivity|].
      rewrite (dict_get_set_int _ _ _ _ Hk). destruct (card_pid c =? pid); reflexivity.
Qed.

(** C1. After any sequence of encounters applied to a widget whose ledger
    is empty: the names logged are those of the encounters, one per call and
    in order (so their number is the number of calls); the set of seen ids
    holds exactly the ids of the encounters; the name kept for an id is the
    name of the most recent encounter with that id. *)
Theorem ledger_after_encounters (calls : list delivery) (v : PokedexViewer) (w : world) :
  ledger v = empty_ledger ->
  let v' := fst (apply_cards calls (v, w)) in
  exists ids name_map,
    encounters v' = PList (map (fun d => PStr (card_name (card_of d))) calls)
    /\ py_len (encounters v') = Ok (Z.of_nat (length calls))
    /\ encounter_ids v' = ids /\ NoDup ids
    /\ (forall x, x ∈ ids <-> exists c, c ∈ map card_of calls /\ x = PInt (card_pid c))
    /\ id_to_name v' = PDict name_map
    /\ (forall pid, dict_get (PInt pid) name_map
                    = option_map PStr (latest_name pid (map card_of calls))).
Proof.
  intros Hl v'.
  destruct (apply_cards_ledger calls v w [] [] [] Hl) as
    (ids & name_map & Hl' & _ & Hnd & _ & Hmem & Hget);
    [constructor | constructor | constructor |].
  fold v' in Hl'. unfold ledger in Hl'. simpl in Hl'. injection Hl' as Hn Hids Hm.
  exists ids, name_map.
  split; [exact Hn|]. split; [rewrite Hn; simpl; rewrite length_map; reflexivity|].
  split; [exact Hids|]. split; [exact Hnd|]. split; [|split; [exact Hm|]].
  - intros x. rewrite Hmem. split; [intros [Hx | Hx]; [inversion Hx | exact Hx] | intros Hx; right; exact Hx].
  - intros pid. rewrite Hget. destruct (latest_name pid _); reflexivity.
Qed.

(** ** Loading what was persisted *)

Lemma load_encounter_data_returns w :
  exists l, load_encounter_data w = (Ok l, w).
Proof.
  unfold load_encounter_data, try_except, bind, read_text, pure, ret.
  destruct (files w !! ENCOUNTER_LOG) as [t|]; simpl; [|eauto].
  destruct (Json.loads t) as [raw|e]; simpl; [|eauto].
  destruct (py_get raw "names" (PList [])) as [names|e]; simpl; [|eauto].
  destruct (py_get raw "ids" (PList [])) as [l|e]; simpl; [|eauto].
  destruct (py_set l) as [ids|e]; simpl; [|eauto].
  destruct (py_get raw "names_by_id" (PDict [])) as [name_map|e]; simpl; eauto.
Qed.

Lemma load_shiny_history_returns w :
  exists h, load_shiny_history w = (Ok h, w).
Proof.
  unfold load_shiny_history, try_except, bind, read_text, pure, ret.
  destruct (files w !! HISTORY_FILE) as [t|]; simpl; [|eauto].
  destruct (Json.loads t) as [raw|e]; simpl; eauto.
Qed.

(** A ledger document that is JSON but no object also counts as no
    history. *)
Lemma load_encounter_data_not_object w t raw :
  files w !! ENCOUNTER_LOG = Some t -> Json.loads t = Ok raw ->
  (forall d, raw <> PDict d) ->
  load_encounter_data w = (Ok empty_ledger, w).
Proof.
  intros Hf Hl Hraw.
  unfold load_encounter_data, try_except, bind, read_text, pure, ret.
  rewrite Hf. simpl. rewrite Hl. simpl.
  destruct raw; try reflexivity. destruct (Hraw d). reflexivity.
Qed.

(** C2, as the code has it. Loading never raises and leaves the disk as
    it is. [load_encounter_data] returns the empty ledger when the document
    is missing, when its text is not JSON (a document cut short, for one),
    when it is JSON but no object, and when it is an object whose ["ids"]
    cannot be made a set; [load_shiny_history] returns the empty list when
    the document is missing or its text is not JSON. Any other document is
    taken as it is: the fields of an object become the names and the name
    map whatever their type, and any JSON value becomes the history. *)
Theorem load_outcomes (w : world) :
  (exists l, load_encounter_data w = (Ok l, w)) /\
  (exists h, load_shiny_history w = (Ok h, w)) /\
  (unreadable ENCOUNTER_LOG w -> load_encounter_data w = (Ok empty_ledger, w)) /\
  (unreadable HISTORY_FILE w -> load_shiny_history w = (Ok (PList []), w)) /\
  (forall t raw, files w !! ENCOUNTER_LOG = Some t -> Json.loads t = Ok raw ->
     (forall d, raw <> PDict d) ->
     load_encounter_data w = (Ok empty_ledger, w)) /\
  (forall t d e, files w !! ENCOUNTER_LOG = Some t -> Json.loads t = Ok (PDict d) ->
     py_set (default (PList []) (dict_get (PStr "ids") d)) = Raise e ->
     load_encounter_data w = (Ok empty_ledger, w)) /\
  (forall t d ids, files w !! ENCOUNTER_LOG = Some t -> Json.loads t = Ok (PDict d) ->
     py_set (default (PList []) (dict_get (PStr "ids") d)) = Ok ids ->
     load_encounter_data w
     = (Ok (default (PList []) (dict_get (PStr "names") d), ids,
            default (PDict []) (dict_get (PStr "names_by_id") d)), w)) /\
  (forall t h, files w !! HISTORY_FILE = Some t -> Json.loads t = Ok h ->
     load_shiny_history w = (Ok h, w)).
Proof.
  split; [apply load_encounter_data_returns|]. split; [apply load_shiny_history_returns|].
  split; [|split; [|split; [|split; [|split]]]].
  - unfold unreadable, load_encounter_data, try_except, bind, read_text, pure, ret.
    destruct (files w !! ENCOUNTER_LOG) as [t|]; simpl; [|reflexivity].
    intros [e ->]. reflexivity.
  - unfold unreadable, load_shiny_history, try_except, bind, read_text, pure, ret.
    destruct (files w !! HISTORY_FILE) as [t|]; simpl; [|reflexivity].
    intros [e ->]. reflexivity.
  - intros t raw. apply load_encounter_data_not_object.
  - intros t d e Hf Hl Hids.
    unfold load_encounter_data, try_except, bind, read_text, pure, ret.
    rewrite Hf. simpl. rewrite Hl. simpl.
    destruct (dict_get (PStr "ids") d); simpl in Hids; rewrite Hids; reflexivity.
  - intros t d ids Hf Hl Hids.
    unfold load_encounter_data, try_except, bind, read_text, pure, ret.
    rewrite Hf. simpl. rewrite Hl. simpl.
    destruct (dict_get (PStr "ids") d); simpl in Hids; rewrite Hids;
      destruct (dict_get (PStr "names") d); destruct (dict_get (PStr "names_by_id") d);
      reflexivity.
  - intros t h Hf Hl.
    unfold load_shiny_history, try_except, bind, read_text, pure, ret.
    rewrite Hf. simpl. rewrite Hl. reflexivity.
Qed.

(** ** The round trip through the ledger document *)

Lemma str_keyed_dict d : str_keyed (PDict d) = forallb str_keyed_item d.
Proof. reflexivity. Qed.

Lemma dict_set_str_keyed k x d :
  str_keyed x = true -> forallb str_keyed_item d = true ->
  forallb str_keyed_item (dict_set (PStr k) x d) = true.
Proof.
  intros Hx. induction d as [|[k' y] r IH]; simpl; intros Hd.
  - unfold str_keyed_item. simpl. rewrite Hx. reflexivity.
  - apply andb_true_iff in Hd. destruct Hd as [Hy Hr].
    destruct (key_eqb k' (PStr k)); simpl.
    + rewrite Hr, andb_true_r. unfold str_keyed_item in *. simpl in *.
      destruct k'; try discriminate. exact Hx.
    + rewrite Hy. simpl. apply IH. exact Hr.
Qed.

Lemma dict_of_pairs_str_keyed pairs :
  forallb (fun p => str_keyed (snd p)) pairs = true ->
  str_keyed (Json.dict_of_pairs pairs) = true.
Proof.
  unfold Json.dict_of_pairs. rewrite str_keyed_dict.
  assert (forall d, forallb str_keyed_item d = true ->
                    forallb (fun p => str_keyed (snd p)) pairs = true ->
                    forallb str_keyed_item
                      (fold_left (fun d '(k, v) => dict_set (PStr k) v d) pairs d) = true) as H.
  { induction pairs as [|[k x] r IH]; simpl; intros d Hd Hp; [exact Hd|].
    apply andb_true_iff in Hp. destruct Hp as [Hx Hr].
    apply IH; [apply dict_set_str_keyed; assumption | exact Hr]. }
  apply H. reflexivity.
Qed.

Lemma scan_number_str_keyed l v rest :
  Json.scan_number l = Some (v, rest) -> str_keyed v = true.
Proof.
  unfold Json.scan_number.
  destruct (match l with
            | [] => (false, l)
            | c :: r => if Text.eqb_char c "-" then (true, r) else (false, l)
            end) as [neg l1].
  destruct (Json.int_part l1) as [[ip l2]|]; [|discriminate].
  destruct (match Json.frac_part l2 with Some (ds, r) => (Some ds, r) | None => (None, l2) end)
    as [fp l3].
  destruct (match Json.exp_part l3 with Some (e, r) => (Some e, r) | None => (None, l3) end)
    as [ep l4].
  destruct fp, ep; intros [= <- _]; reflexivity.
Qed.

Lemma literal_str_keyed word v0 l v rest :
  str_keyed v0 = true -> Json.literal word v0 l = Some (v, rest) -> str_keyed v = true.
Proof.
  intros H0. unfold Json.literal. destruct (Text.starts_with _ _); [|discriminate].
  intros [= <- _]. exact H0.
Qed.

(** The scanners of arrays and objects, one step unfolded. *)
Lemma scan_elements_step fuel acc l :
  Json.scan_elements (S fuel) acc l
  = match Json.scan_value fuel l with
    | None => None
    | Some (v, r) =>
        match Json.skip_ws r with
        | c :: r1 =>
            if Text.eqb_char c "]" then Some (PList (rev (v :: acc)), r1)
            else if Text.eqb_char c "," then Json.scan_elements fuel (v :: acc) (Json.skip_ws r1)
            else None
        | [] => None
        end
    end.
Proof. reflexivity. Qed.

Lemma scan_members_step fuel acc l :
  Json.scan_members (S fuel) acc l
  = match Json.scan_string [] l with
    | None => None
    | Some (k, r) =>
        match Json.skip_ws r with
        | c :: r1 =>
            if Text.eqb_char c ":" then
              match Json.scan_value fuel (Json.skip_ws r1) with
              | None => None
              | Some (v, r2) =>
                  match Json.skip_ws r2 with
                  | c2 :: r3 =>
                      if Text.eqb_char c2 "}"
                      then Some (Json.dict_of_pairs (rev ((k, v) :: acc)), r3)
                      else if Text.eqb_char c2 "," then
                        match Json.skip_ws r3 with
                        | q :: r4 =>
                            if Text.eqb_char q Text.quote
                            then Json.scan_members fuel ((k, v) :: acc) r4
                            else None
                        | [] => None
                        end
                      else None
                  | [] => None
                  end
              end
            else None
        | [] => None
        end
    end.
Proof. reflexivity. Qed.

(** The three scanners return values whose dicts are keyed by strings. *)
Lemma scan_str_keyed fuel :
  (forall l v rest, Json.scan_value fuel l = Some (v, rest) -> str_keyed v = true) /\
  (forall acc l v rest, forallb str_keyed acc = true ->
     Json.scan_elements fuel acc l = Some (v, rest) -> str_keyed v = true) /\
  (forall acc l v rest, forallb (fun p => str_keyed (snd p)) acc = true ->
     Json.scan_members fuel acc l = Some (v, rest) -> str_keyed v = true).
Proof.
  induction fuel as [|fuel (IHv & IHe & IHm)].
  - repeat split; intros; discriminate.
  - assert (forall l v rest, Json.scan_value (S fuel) l = Some (v, rest) -> str_keyed v = true) as Hv.
    { intros l v rest. cbn [Json.scan_value]. destruct l as [|c r]; [discriminate|].
      destruct (Text.eqb_char c Text.quote).
      { destruct (Json.scan_string [] r) as [[s rest']|]; [|discriminate].
        intros [= <- _]. reflexivity. }
      destruct (Text.eqb_char c "{").
      { destruct (Json.skip_ws r) as [|c1 r1]; [discriminate|].
        destruct (Text.eqb_char c1 "}"); [intros [= <- _]; reflexivity|].
        destruct (Text.eqb_char c1 Text.quote); [|discriminate].
        apply IHm. reflexivity. }
      destruct (Text.eqb_char c "[").
      { destruct (Json.skip_ws r) as [|c1 r1]; [discriminate|].
        destruct (Text.eqb_char c1 "]"); [intros [= <- _]; reflexivity|].
        apply IHe. reflexivity. }
      destruct (Text.eqb_char c "n"); [apply literal_str_keyed; reflexivity|].
      destruct (Text.eqb_char c "t"); [apply literal_str_keyed; reflexivity|].
      destruct (Text.eqb_char c "f"); [apply literal_str_keyed; reflexivity|].
      destruct (Json.scan_number (c :: r)) as [[v' rest']|] eqn:Hn.
      { intros [= <- _]. apply (scan_number_str_keyed _ _ _ Hn). }
      destruct (Text.eqb_char c "N"); [apply literal_str_keyed; reflexivity|].
      destruct (Text.eqb_char c "I"); [apply literal_str_keyed; reflexivity|].
      destruct (Text.eqb_char c "-"); [apply literal_str_keyed; reflexivity | discriminate]. }
    split; [exact Hv|]. split.
    + intros acc l v rest Hacc. rewrite scan_elements_step.
      destruct (Json.scan_value fuel l) as [[x r]|] eqn:Hx; [|discriminate].
      specialize (IHv _ _ _ Hx).
      destruct (Json.skip_ws r) as [|c r1]; [discriminate|].
      destruct (Text.eqb_char c "]").
      { intros [= <- _]. change (forallb str_keyed (rev (x :: acc)) = true).
        rewrite forallb_forall. intros y Hy.
        rewrite <- in_rev in Hy. destruct Hy as [<- | Hy]; [exact IHv|].
        rewrite forallb_forall in Hacc. apply Hacc. exact Hy. }
      destruct (Text.eqb_char c ","); [|discriminate].
      apply IHe. simpl. rewrite IHv. exact Hacc.
    + intros acc l v rest Hacc. rewrite scan_members_step.
      destruct (Json.scan_string [] l) as [[k r]|]; [|discriminate].
      destruct (Json.skip_ws r) as [|c r1]; [discriminate|].
      destruct (Text.eqb_char c ":"); [|discriminate].
      destruct (Json.scan_value fuel (Json.skip_ws r1)) as [[x r2]|] eqn:Hx; [|discriminate].
      specialize (IHv _ _ _ Hx).
      destruct (Json.skip_ws r2) as [|c2 r3]; [discriminate|].
      destruct (Text.eqb_char c2 "}").
      { intros [= <- _]. apply dict_of_pairs_str_keyed.
        rewrite forallb_forall. intros y Hy.
        change (In y (rev ((k, x) :: acc))) in Hy.
        rewrite <- in_rev in Hy. destruct Hy as [<- | Hy]; [exact IHv|].
        rewrite forallb_forall in Hacc. apply Hacc. exact Hy. }
      destruct (Text.eqb_char c2 ","); [|discriminate].
      destruct (Json.skip_ws r3) as [|q r4]; [discriminate|].
      destruct (Text.eqb_char q Text.quote); [|discriminate].
      apply IHm. simpl. rewrite IHv. exact Hacc.
Qed.

(** [json.loads] never returns a dict with a key that is not a string. *)
Lemma loads_str_keyed text v : Json.loads text = Ok v -> str_keyed v = true.
Proof.
  unfold Json.loads.
  destruct (Json.scan_value _ _) as [[x rest]|] eqn:Hx; [|discriminate].
  destruct (Json.skip_ws rest); [|discriminate].
  intros [= <-]. apply (proj1 (scan_str_keyed _) _ _ _ Hx).
Qed.

(** What [load_encounter_data] returns as the name map has only strings as
    keys. *)
Lemma loaded_name_map_str_keyed w names ids name_map :
  fst (load_encounter_data w) = Ok (names, ids, name_map) -> str_keyed name_map = true.
Proof.
  unfold load_encounter_data, try_except, bind, read_text, pure, ret.
  destruct (files w !! ENCOUNTER_LOG) as [t|]; simpl; [|intros [= _ _ <-]; reflexivity].
  destruct (Json.loads t) as [raw|e] eqn:Hl; simpl; [|intros [= _ _ <-]; reflexivity].
  pose proof (loads_str_keyed _ _ Hl) as Hraw.
  destruct raw; simpl; try (intros [= _ _ <-]; reflexivity).
  destruct (py_set _) as [s|e]; simpl; [|intros [= _ _ <-]; reflexivity].
  intros [= _ _ <-].
  destruct (dict_get (PStr "names_by_id") d) as [x|] eqn:Hx; [|reflexivity].
  rewrite str_keyed_dict in Hraw. clear - Hraw Hx.
  induction d as [|[k y] r IH]; simpl in *; [discriminate|].
  apply andb_true_iff in Hraw. destruct Hraw as [Hy Hr].
  destruct (key_eqb k (PStr "names_by_id")); [|apply IH; assumption].
  injection Hx as <-. unfold str_keyed_item in Hy. simpl in Hy. destruct k; try discriminate. exact Hy.
Qed.

(** No ledger with an integer id as key survives the round trip: whatever
    the disk does, what is loaded after saving it is another name map. *)
Lemma round_trip_loses_int_keys names ids m w k x names' ids' name_map' :
  (PInt k, x) ∈ m ->
  fst (load_encounter_data (snd (save_encounter_data names ids (PDict m) w)))
    = Ok (names', ids', name_map') ->
  name_map' <> PDict m.
Proof.
  intros Hin Hload ->. apply loaded_name_map_str_keyed in Hload.
  rewrite str_keyed_dict in Hload. rewrite forallb_forall in Hload.
  apply list_elem_of_In in Hin. specialize (Hload _ Hin). discriminate Hload.
Qed.

(** C3, evaluated. The ledger of one encounter, saved and loaded back,
    comes back with the id as a string key: the name map is not the one
    that was saved, the lookup by integer id that [_build_dex_grid] makes
    no longer finds the name, and a restarted widget shows the slot of a
    seen id without its name. *)
Example round_trip_turns_int_keys_into_strings :
  let saved := snd (save_encounter_data Sample.names Sample.ids Sample.name_map Sample.offline) in
  fst (load_encounter_data saved)
    = Ok (Sample.names, Sample.ids, PDict [ (PStr "25", PStr "Pikachu") ]) /\
  py_contains_int 25 Sample.name_map = Ok true /\
  py_contains_int 25 (PDict [ (PStr "25", PStr "Pikachu") ]) = Ok false /\
  built (fun v => (id_to_name v, name_lbl <$> dex_cells v !! 25)) Sample.first_session
    = Ok (PDict [ (PInt 25, PStr "Pikachu") ], Some "Pikachu") /\
  built (fun v => (id_to_name v, name_lbl <$> dex_cells v !! 25)) Sample.second_session
    = Ok (PDict [ (PStr "25", PStr "Pikachu") ], Some "***").
Proof. vm_compute. repeat split. Qed.

(** ** The cache *)

Lemma fetch_json_hit url path w t :
  files w !! path = Some t -> fetch_json url path w = (Json.loads t, w).
Proof.
  intros Hf. unfold fetch_json, bind, path_exists, read_text, pure.
  cbv beta. rewrite !Hf. simpl. rewrite ?Hf. simpl. destruct (Json.loads t); reflexivity.
Qed.

(** C6. A cached entry is returned (parsed) without any request and
    without any change to the world. On a miss whose fetch succeeds, exactly
    one request is made, the body of the response becomes the cache entry
    as it is, its parse is returned, and any later request for the same key
    finds the entry and makes no request. *)
Theorem cache_hit_or_single_fetch (url path : string) (w : world) :
  (forall t, files w !! path = Some t -> fetch_json url path w = (Json.loads t, w)) /\
  (forall status body,
     files w !! path = None ->
     remote w url = Response status body -> error_status status = false ->
     next_write_succeeds w ->
     let r := fst (fetch_json url path w) in
     let w' := snd (fetch_json url path w) in
     r = Json.loads body /\
     requested w' = url :: requested w /\
     files w' = <[path := body]> (files w) /\
     forall w'' url', files w'' !! path = files w' !! path ->
                      fetch_json url' path w'' = (Json.loads body, w'')).
Proof.
  split; [intros t; apply fetch_json_hit|].
  intros status body Hf Hr Hs Hw.
  assert (fetch_json url path w =
          (Json.loads body,
           set_faults (tl (faults w))
             (set_files (<[path := body]> (files w)) (set_requested (url :: requested w) w)))) as ->.
  { unfold fetch_json, bind, path_exists, requests_get, raise_for_status, write_text, pure, ret.
    cbv beta. rewrite !Hf. simpl. rewrite Hr. rewrite Hs. simpl.
    unfold next_write_succeeds in Hw.
    destruct w as [fl rm rq fs im ap]; simpl in *.
    destruct fs as [|[f|] rest]; simpl; [| destruct Hw |];
      destruct (Json.loads body); reflexivity. }
  simpl. repeat split.
  intros w'' url' Hf'. apply fetch_json_hit. rewrite Hf'. apply lookup_insert_eq.
Qed.

(** A failed fetch raises its error and writes nothing. *)
Lemma fetch_json_fails url path w :
  files w !! path = None -> fetch_failed (remote w url) ->
  exists e, fst (fetch_json url path w) = Raise e /\ raised_by (remote w url) e /\
            files (snd (fetch_json url path w)) = files w.
Proof.
  unfold fetch_json, bind, path_exists, requests_get, raise_for_status, throw, ret, pure.
  intros Hf Hfail. cbv beta. rewrite !Hf. simpl.
  destruct (remote w url) as [e|status body]; simpl in *.
  - exists e. repeat split.
  - rewrite Hfail. simpl. eexists. repeat split.
Qed.

(** C7. When the file is not cached and the fetch fails, by a transport
    error or by an error status, [fetch_json] raises that error and the
    files are what they were. A file is written only after a response whose
    status is no error. *)
Theorem failed_fetch_leaves_no_entry (url path : string) (w : world) :
  (files w !! path = None -> fetch_failed (remote w url) ->
   exists e, fst (fetch_json url path w) = Raise e /\ raised_by (remote w url) e /\
             files (snd (fetch_json url path w)) = files w) /\
  (files (snd (fetch_json url path w)) <> files w ->
   exists status body, remote w url = Response status body /\ error_status status = false).
Proof.
  split; [apply fetch_json_fails|].
  destruct (files w !! path) as [t|] eqn:Hf.
  - rewrite (fetch_json_hit url path w t Hf). simpl. intros H; destruct H; reflexivity.
  - unfold fetch_json, bind, path_exists, requests_get, raise_for_status, throw, ret, pure.
    cbv beta. rewrite !Hf. simpl.
    destruct (remote w url) as [e|status body]; simpl.
    + intros H; destruct H; reflexivity.
    + destruct (error_status status) eqn:Hs; simpl.
      * intros H; destruct H; reflexivity.
      * intros _. eauto.
Qed.

(** ** The dex grid and the replay of the shiny history *)

(** Building the cell of [pid] touches no other slot. *)
Lemma build_dex_cell_other p pid : p <> pid -> keeps (slot p) (build_dex_cell pid).
Proof.
  intros Hne. unfold build_dex_cell. frame;
    apply keeps_update; intros v; unfold slot; destruct v; simpl.
  - apply lookup_insert_ne. congruence.
  - apply lookup_alter_ne. congruence.
  - apply lookup_alter_ne. congruence.
Qed.

(** The grid has slots for the ids 1 to [MAX_ID] only. *)
Lemma build_dex_grid_slots p : ~ (1 <= p <= MAX_ID) -> keeps (slot p) _build_dex_grid.
Proof.
  intros Hp. unfold _build_dex_grid. apply keeps_for_each.
  intros pid Hin. apply build_dex_cell_other.
  apply elem_of_seqZ in Hin. unfold MAX_ID in *. lia.
Qed.

Lemma append_shiny_tooltip_no_slot pid entry v w :
  dex_cells v !! pid = None ->
  _append_shiny_tooltip pid entry (v, w) = (Ok tt, (v, w)).
Proof.
  intros Hs. unfold _append_shiny_tooltip, bind, self. simpl. rewrite Hs. reflexivity.
Qed.

(** A tooltip is appended to a cell the grid has: the replay gives the
    grid no new slot and takes none away. *)
Lemma append_shiny_tooltip_vacant p pid entry : keeps (vacant p) (_append_shiny_tooltip pid entry).
Proof.
  intros [v w]. unfold _append_shiny_tooltip, bind, self, pure, update. cbn [fst snd].
  destruct (dex_cells v !! pid) as [c|] eqn:Hc; [|reflexivity].
  destruct (rbind _ _) as [line|e]; [|reflexivity].
  unfold vacant. destruct v; simpl in *.
  destruct (decide (p = pid)) as [-> | Hne].
  - rewrite lookup_insert_eq, Hc. reflexivity.
  - rewrite lookup_insert_ne by congruence. reflexivity.
Qed.

Lemma replay_entry_vacant p entry : keeps (vacant p) (replay_entry entry).
Proof.
  unfold replay_entry. apply keeps_bind; [apply keeps_pure | intros pid].
  apply append_shiny_tooltip_vacant.
Qed.

(** C10. At any point of the replay loop of [__init__] (the grid built
    from no cells, then any number of saved entries replayed), replaying a
    saved entry whose dex number is outside 1..[MAX_ID] returns without
    raising and leaves the widget and the world as they were, tooltips
    included. *)
Theorem replay_without_slot_is_noop
    (s0 s1 s : PokedexViewer * world) (before : list pyval) (entry dex : pyval) (pid : Z) :
  dex_cells (fst s0) = ∅ ->
  _build_dex_grid s0 = (Ok tt, s1) ->
  for_each before replay_entry s1 = (Ok tt, s) ->
  py_getitem entry (PStr "dex") = Ok dex -> int_of_tail dex = Ok pid ->
  ~ (1 <= pid <= MAX_ID) ->
  replay_entry entry s = (Ok tt, s).
Proof.
  intros Hempty Hbuild Hbefore Hdex Hint Hout.
  pose proof (build_dex_grid_slots pid Hout s0) as Hslot.
  rewrite Hbuild in Hslot. unfold slot in Hslot. simpl in Hslot.
  rewrite Hempty, lookup_empty in Hslot.
  assert (keeps (vacant pid) (for_each before replay_entry)) as Hkeep
    by (apply keeps_for_each; intros e _; apply replay_entry_vacant).
  specialize (Hkeep s1). rewrite Hbefore in Hkeep. unfold vacant in Hkeep. simpl in Hkeep.
  rewrite Hslot in Hkeep.
  unfold replay_entry, bind, pure. rewrite Hdex. simpl. rewrite Hint.
  destruct s as [v w]. apply append_shiny_tooltip_no_slot.
  simpl in Hkeep. destruct (dex_cells v !! pid); [discriminate Hkeep | reflexivity].
Qed.

(** ** Persisting *)

Lemma chars_length s : length (Text.chars s) = String.length s.
Proof. induction s as [|c s IH]; simpl; [reflexivity | f_equal; exact IH]. Qed.

Lemma prefix_of_all doc : prefix_of (String.length doc) doc = doc.
Proof.
  unfold prefix_of. rewrite <- chars_length, firstn_all.
  apply string_of_list_ascii_of_string.
Qed.

Lemma write_text_outcome path doc w :
  left_on_disk path (Ok doc) w (snd (write_text path doc w)) /\
  (next_write_succeeds w ->
   write_text path doc w = (Ok tt, snd (write_text path doc w)) /\
   files (snd (write_text path doc w)) !! path = Some doc).
Proof.
  unfold left_on_disk, next_write_succeeds, write_text.
  destruct w as [fl rm rq fs im ap]; simpl.
  destruct fs as [|[[|n]|] rest]; simpl.
  - repeat split.
    + intros p Hp. apply lookup_insert_ne. congruence.
    + right. exists doc, (String.length doc). rewrite prefix_of_all, lookup_insert_eq. split; reflexivity.
    + apply lookup_insert_eq.
  - repeat split; [left; reflexivity | contradiction | contradiction].
  - repeat split; try contradiction.
    + intros p Hp. apply lookup_insert_ne. congruence.
    + right. exists doc, n. rewrite lookup_insert_eq. split; reflexivity.
  - repeat split.
    + intros p Hp. apply lookup_insert_ne. congruence.
    + right. exists doc, (String.length doc). rewrite prefix_of_all, lookup_insert_eq. split; reflexivity.
    + apply lookup_insert_eq.
Qed.

Lemma save_outcome path (doc : result string) w :
  let save := try_except (let! d := pure doc in write_text path d) (fun _ => ret tt) in
  fst (save w) = Ok tt /\
  left_on_disk path doc w (snd (save w)) /\
  (next_write_succeeds w -> forall text, doc = Ok text -> files (snd (save w)) !! path = Some text).
Proof.
  unfold try_except, bind, pure, ret. destruct doc as [text|e]; simpl.
  - destruct (write_text_outcome path text w) as [Hleft Hok].
    destruct (write_text path text w) as [[[]|e] w'] eqn:Hw; simpl in *.
    + repeat split; try apply Hleft.
      intros Hn t [= <-]. apply Hok. exact Hn.
    + repeat split; try apply Hleft.
      intros Hn t [= <-]. apply Hok. exact Hn.
  - repeat split.
    + left. reflexivity.
    + intros _ t Ht. discriminate.
Qed.

(** C9, as the code has it. Persisting the ledger or the shiny history
    never raises, and touches no other file. What it leaves at the
    document's path is the document as it was (nothing could be written), or
    the first characters of the new document: all of them when the write
    completes, and only some when it stops part-way, for the text is
    written in place and not through a temporary file. When the disk has
    no fault the new document is there in full. *)
Theorem persist_outcomes (w : world) (names : pyval) (ids : list pyval) (name_map hist : pyval) :
  let wl := snd (save_encounter_data names ids name_map w) in
  let wh := snd (save_shiny_history hist w) in
  fst (save_encounter_data names ids name_map w) = Ok tt /\
  fst (save_shiny_history hist w) = Ok tt /\
  left_on_disk ENCOUNTER_LOG (ledger_document names ids name_map) w wl /\
  left_on_disk HISTORY_FILE (Json.dumps hist) w wh /\
  (next_write_succeeds w ->
   (forall doc, ledger_document names ids name_map = Ok doc -> files wl !! ENCOUNTER_LOG = Some doc) /\
   (forall doc, Json.dumps hist = Ok doc -> files wh !! HISTORY_FILE = Some doc)).
Proof.
  intros wl wh.
  destruct (save_outcome ENCOUNTER_LOG (ledger_document names ids name_map) w) as (H1 & H2 & H3).
  destruct (save_outcome HISTORY_FILE (Json.dumps hist) w) as (H4 & H5 & H6).
  repeat split; try assumption; try apply H2; try apply H5.
  - apply H3. assumption.
  - apply H6. assumption.
Qed.

(** ** Flavor text *)

Lemma chars_text l : Text.chars (Text.text l) = l.
Proof. apply list_ascii_of_string_of_list_ascii. Qed.

Lemma text_chars s : Text.text (Text.chars s) = s.
Proof. apply string_of_list_ascii_of_string. Qed.

Lemma starts_with_split p l :
  Text.starts_with p l = true -> l = p ++ drop (length p) l.
Proof.
  revert l. induction p as [|a p IH]; intros [|b l]; simpl; try discriminate; try reflexivity.
  intros H. apply andb_true_iff in H. destruct H as [Hab Hp].
  apply Ascii.eqb_eq in Hab. subst b. f_equal. apply IH. exact Hp.
Qed.

Lemma starts_with_app p a b :
  Text.starts_with p a = true -> Text.starts_with p (a ++ b) = true.
Proof.
  revert a. induction p as [|x p IH]; intros [|y a]; simpl; try discriminate; try reflexivity.
  intros H. apply andb_true_iff in H. destruct H as [Hxy Hp].
  rewrite Hxy. simpl. apply IH. exact Hp.
Qed.

Lemma first_prefix_some ps l p :
  Text.first_prefix ps l = Some p -> p ∈ ps /\ l = p ++ drop (length p) l.
Proof.
  induction ps as [|q ps IH]; simpl; [discriminate|].
  destruct (Text.starts_with q l) eqn:Hq.
  - intros [= <-]. split; [left | apply starts_with_split; exact Hq].
  - intros H. destruct (IH H) as [Hin Hl]. split; [right; exact Hin | exact Hl].
Qed.

Lemma first_prefix_none_app ps a b :
  Text.first_prefix ps (a ++ b) = None -> Text.first_prefix ps a = None.
Proof.
  induction ps as [|q ps IH]; simpl; [reflexivity|].
  destruct (Text.starts_with q a) eqn:Hq.
  - rewrite (starts_with_app _ _ b Hq). discriminate.
  - destruct (Text.starts_with q (a ++ b)); [discriminate | exact IH].
Qed.

Lemma first_prefix_nil ps :
  Forall (fun p => p <> []) ps -> Text.first_prefix ps [] = None.
Proof.
  induction 1 as [|q ps Hq _ IH]; simpl; [reflexivity|].
  destruct q; [congruence | exact IH].
Qed.

(** Stripping on the left removes whole members of [ps], as many as there
    are. *)
Lemma lstrip_of_spec ps l :
  Forall (fun p => p <> []) ps ->
  exists parts, Forall (fun p => p ∈ ps) parts /\
                l = concat parts ++ Text.lstrip_of ps l /\
                Text.first_prefix ps (Text.lstrip_of ps l) = None.
Proof.
  intros Hne. unfold Text.lstrip_of.
  assert (forall fuel l, (length l <= fuel)%nat ->
            exists parts, Forall (fun p => p ∈ ps) parts /\
                          l = concat parts ++ Text.drop_leading fuel ps l /\
                          Text.first_prefix ps (Text.drop_leading fuel ps l) = None) as H.
  { clear l. induction fuel as [|fuel IH]; intros l Hlen.
    - destruct l; [|simpl in Hlen; lia]. exists []. simpl. repeat split; [constructor|].
      apply first_prefix_nil. exact Hne.
    - simpl. destruct (Text.first_prefix ps l) as [p|] eqn:Hp.
      + destruct (first_prefix_some _ _ _ Hp) as [Hin Hl].
        assert (p <> []) as Hpne by (rewrite Forall_forall in Hne; apply Hne; exact Hin).
        destruct (IH (drop (length p) l)) as (parts & Hparts & Heq & Hnone).
        { rewrite length_drop. destruct p; [congruence|]. simpl. lia. }
        exists (p :: parts). repeat split.
        * constructor; assumption.
        * simpl. rewrite <- app_assoc, <- Heq. exact Hl.
        * exact Hnone.
      + exists []. simpl. repeat split; [constructor | exact Hp]. }
  apply H. lia.
Qed.

Lemma rev_concat {A} (parts : list (list A)) :
  rev (concat parts) = concat (rev (map (@rev A) parts)).
Proof.
  induction parts as [|p parts IH]; simpl; [reflexivity|].
  rewrite rev_app_distr, IH, concat_app. simpl. rewrite app_nil_r. reflexivity.
Qed.

Lemma whitespace_nonempty : Forall (fun p : list ascii => p <> []) Text.whitespace.
Proof. unfold Text.whitespace. simpl. repeat constructor; discriminate. Qed.

Lemma rev_whitespace_nonempty :
  Forall (fun p : list ascii => p <> []) (map (@rev ascii) Text.whitespace).
Proof. unfold Text.whitespace. simpl. repeat constructor; discriminate. Qed.

(** [strip] removes whitespace characters from both ends, and all of
    them. *)
Lemma strip_spec (s : string) :
  exists pre post,
    blanks pre /\ blanks post /\
    Text.chars s = pre ++ Text.chars (Text.strip s) ++ post /\
    ~ starts_blank (Text.chars (Text.strip s)) /\
    ~ ends_blank (Text.chars (Text.strip s)).
Proof.
  unfold Text.strip. rewrite chars_text. set (l := Text.chars s).
  destruct (lstrip_of_spec Text.whitespace l whitespace_nonempty) as (parts1 & Hp1 & Hl1 & Hn1).
  set (m1 := Text.lstrip_of Text.whitespace l) in *.
  unfold Text.rstrip_of.
  destruct (lstrip_of_spec (map (@rev ascii) Text.whitespace) (rev m1) rev_whitespace_nonempty)
    as (parts2 & Hp2 & Hl2 & Hn2).
  set (m2 := Text.lstrip_of (map (@rev ascii) Text.whitespace) (rev m1)) in *.
  assert (m1 = rev m2 ++ concat (rev (map (@rev ascii) parts2))) as Hm1.
  { rewrite <- (rev_involutive m1), Hl2, rev_app_distr, rev_concat. reflexivity. }
  exists (concat parts1), (concat (rev (map (@rev ascii) parts2))).
  split; [exists parts1; split; [exact Hp1 | reflexivity]|].
  split.
  { eexists. split; [|reflexivity].
    apply Forall_forall. intros p Hp.
    rewrite list_elem_of_In, <- in_rev, <- list_elem_of_In in Hp.
    apply list_elem_of_fmap in Hp. destruct Hp as (q & -> & Hq).
    rewrite Forall_forall in Hp2. specialize (Hp2 q Hq).
    apply list_elem_of_fmap in Hp2. destruct Hp2 as (p0 & -> & Hp0).
    rewrite rev_involutive. exact Hp0. }
  split; [rewrite <- Hm1; exact Hl1|].
  split.
  - unfold starts_blank. intros H. apply H.
    apply (first_prefix_none_app _ _ (concat (rev (map (@rev ascii) parts2)))).
    rewrite <- Hm1. exact Hn1.
  - unfold ends_blank. rewrite rev_involutive. intros H. apply H. exact Hn2.
Qed.

Lemma chars_replace_breaks (text : string) :
  Text.chars (Text.replace_char Text.FF " " (Text.replace_char Text.LF " " text))
  = blank_breaks (Text.chars text).
Proof.
  unfold Text.replace_char. rewrite !chars_text, map_map. unfold blank_breaks, is_break.
  apply map_ext. intros c. unfold Text.eqb_char.
  destruct (Ascii.eqb c Text.LF) eqn:H1; simpl; [reflexivity|].
  destruct (Ascii.eqb c Text.FF); reflexivity.
Qed.

(** What [normalize] does to a text: each newline and each form feed
    becomes one space, then whitespace is removed from both ends. *)
Lemma normalize_spec (text : string) :
  exists pre post,
    blanks pre /\ blanks post /\
    blank_breaks (Text.chars text) = pre ++ Text.chars (normalize text) ++ post /\
    ~ starts_blank (Text.chars (normalize text)) /\
    ~ ends_blank (Text.chars (normalize text)).
Proof.
  unfold normalize. rewrite <- chars_replace_breaks. apply strip_spec.
Qed.

Lemma english_entries_tagged l (entries : list (string * string)) :
  Forall2 (fun e p => tagged e (fst p) (snd p)) l entries ->
  english_entries l = Ok (map PStr (texts_in "en" entries)).
Proof.
  induction 1 as [|e [lang text] l entries (x & Hx & Hn & Ht) _ IH]; [reflexivity|].
  simpl in Hn, Ht. cbn [english_entries]. rewrite Hx. cbn [rbind]. rewrite Hn. cbn [rbind].
  change (py_eqb (PStr lang) (PStr "en")) with (String.eqb lang "en").
  unfold texts_in. cbn [List.filter fst].
  destruct (String.eqb lang "en"); [|exact IH].
  rewrite Ht. cbn [rbind]. rewrite IH. reflexivity.
Qed.

(** C8, as the code has it. From a species record whose entries each carry
    a text and a language: with no English entry the flavor text is the
    placeholder; otherwise it is the normalised text of the English entry at
    the position drawn, one position per value of the draw. Normalising
    turns each newline and each form feed into one space (a run of them
    into as many spaces) and trims whitespace from both ends. *)
Theorem flavor_text_of_record (d : draws) (species : pyval)
    (l : list pyval) (entries : list (string * string)) :
  fair d ->
  py_getitem species (PStr "flavor_text_entries") = Ok (PList l) ->
  Forall2 (fun e p => tagged e (fst p) (snd p)) l entries ->
  let en := texts_in "en" entries in
  (en = [] -> flavor_text d species = Ok "(No flavor text found)") /\
  (en <> [] ->
   exists text, (choice d (length en) < length en)%nat /\
                en !! choice d (length en) = Some text /\
                flavor_text d species = Ok (normalize text)) /\
  (forall text, exists pre post,
     blanks pre /\ blanks post /\
     blank_breaks (Text.chars text) = pre ++ Text.chars (normalize text) ++ post /\
     ~ starts_blank (Text.chars (normalize text)) /\
     ~ ends_blank (Text.chars (normalize text))).
Proof.
  intros (_ & _ & Hchoice) Hes Htag en.
  assert (flavor_text d species = pick_flavor d (map PStr en)) as Hflavor.
  { unfold flavor_text. rewrite Hes. cbn [rbind py_iter].
    rewrite (english_entries_tagged _ _ Htag). reflexivity. }
  split; [|split; [|apply normalize_spec]].
  - intros Hen. rewrite Hflavor, Hen. reflexivity.
  - intros Hen. rewrite Hflavor.
    assert (0 < length en)%nat as Hpos by (destruct en; [congruence | simpl; lia]).
    specialize (Hchoice _ Hpos).
    destruct (lookup_lt_is_Some_2 en _ Hchoice) as [text Htext].
    exists text. split; [exact Hchoice|]. split; [exact Htext|].
    unfold pick_flavor. destruct (map PStr en) eqn:Hmap.
    + destruct en; [congruence | discriminate].
    + rewrite <- Hmap, length_map, list_lookup_fmap, Htext. reflexivity.
Qed.

(** ** One generation: which failures abort it *)

Section Through.

Lemma through_quiet {A} (c : M world A) :
  (forall w, remote (snd (c w)) = remote w /\ requested (snd (c w)) = requested w) ->
  lets_errors_through c.
Proof.
  intros H w. destruct (H w) as [Hr Hq]. split; [exact Hr|].
  exists []. split; [exact Hq|]. intros url e Hin. inversion Hin.
Qed.

Lemma through_ret {A} (a : A) : lets_errors_through (@ret world A a).
Proof. apply through_quiet. intros w. split; reflexivity. Qed.

Lemma through_throw {A} (e : exn) : lets_errors_through (@throw world A e).
Proof. apply through_quiet. intros w. split; reflexivity. Qed.

Lemma through_pure {A} (r : result A) : lets_errors_through (@pure world A r).
Proof. apply through_quiet. intros w. split; reflexivity. Qed.

Lemma through_path_exists path : lets_errors_through (path_exists path).
Proof. apply through_quiet. intros w. split; reflexivity. Qed.

Lemma through_read_text path : lets_errors_through (read_text path).
Proof.
  apply through_quiet. intros w. unfold read_text.
  destruct (files w !! path); split; reflexivity.
Qed.

Lemma through_write_text path data : lets_errors_through (write_text path data).
Proof.
  apply through_quiet. intros [fl rm rq fs im ap]. unfold write_text. simpl.
  destruct fs as [|[[|n]|] rest]; split; reflexivity.
Qed.

Lemma through_raise_for_status status : lets_errors_through (@raise_for_status world status).
Proof.
  unfold raise_for_status. destruct (error_status status);
    [apply through_throw | apply through_ret].
Qed.

Lemma through_requests_get url : lets_errors_through (requests_get url).
Proof.
  intros w. unfold requests_get.
  destruct (remote w url) as [e|status body] eqn:Hr; simpl; (split; [reflexivity|]);
    exists [url]; (split; [reflexivity|]); intros u e' Hin He';
    apply list_elem_of_singleton in Hin; subst u; congruence.
Qed.

Lemma through_bind {A B} (c : M world A) (k : A -> M world B) :
  lets_errors_through c -> (forall a, lets_errors_through (k a)) ->
  lets_errors_through (bind c k).
Proof.
  intros Hc Hk w. unfold bind.
  destruct (Hc w) as (Hr & made & Hq & Hfail).
  destruct (c w) as [[a|e] w1]; simpl in *.
  - destruct (Hk a w1) as (Hr' & made' & Hq' & Hfail').
    destruct (k a w1) as [r w2]; simpl in *.
    split; [congruence|]. exists (made' ++ made).
    split; [rewrite Hq', Hq; apply app_assoc|].
    intros url e' Hin He'. apply elem_of_app in Hin. destruct Hin as [Hin | Hin].
    + apply (Hfail' url e' Hin). rewrite Hr. exact He'.
    + specialize (Hfail url e' Hin He'). discriminate.
  - split; [exact Hr|]. exists made. split; [exact Hq|].
    intros url e' Hin He'. specialize (Hfail url e' Hin He'). congruence.
Qed.

End Through.

(** Goals [lets_errors_through c], by the shape of [c]. *)
Ltac through :=
  repeat first
    [ apply through_ret | apply through_throw | apply through_pure
    | apply through_path_exists | apply through_read_text | apply through_write_text
    | apply through_raise_for_status | apply through_requests_get
    | apply through_bind; [| intros ?]
    | match goal with
      | |- lets_errors_through (match ?x with _ => _ end) => destruct x
      | |- lets_errors_through (if ?x then _ else _) => destruct x
      end ].

Lemma through_fetch_json url path : lets_errors_through (fetch_json url path).
Proof. unfold fetch_json. through. Qed.

Lemma through_get_pokemon d : lets_errors_through (get_pokemon d).
Proof.
  unfold get_pokemon. through; try apply through_fetch_json.
  unfold requests_get_value. through.
Qed.

Lemma requests_made_spec {A} (c : M world A) w made :
  requested (snd (c w)) = made ++ requested w -> requests_made c w = made.
Proof.
  intros H. unfold requests_made. rewrite H, length_app, Nat.add_sub.
  apply take_app_length.
Qed.

(** [fetch_json] leaves the remote service and every other file alone. *)
Lemma fetch_json_frame url path w :
  remote (snd (fetch_json url path w)) = remote w /\
  forall p, p <> path -> files (snd (fetch_json url path w)) !! p = files w !! p.
Proof.
  destruct (files w !! path) as [t|] eqn:Hf.
  - rewrite (fetch_json_hit url path w t Hf). split; reflexivity.
  - unfold fetch_json, bind, path_exists, requests_get, raise_for_status, write_text, throw, ret, pure.
    cbv beta. rewrite !Hf. simpl.
    destruct w as [fl rm rq fs im ap]; simpl in *.
    destruct (rm url) as [e|status body]; simpl; [split; reflexivity|].
    destruct (error_status status); simpl; [split; reflexivity|].
    destruct fs as [|[[|n]|] rest]; simpl; try (split; reflexivity);
      try (destruct (Json.loads body); simpl); split; try reflexivity;
      intros p Hp; apply lookup_insert_ne; congruence.
Qed.

(** A document that is not JSON makes [fetch_json] raise. *)
Lemma fetch_json_unparsable url path w t e :
  document url path w = Some t -> Json.loads t = Raise e ->
  exists e', fst (fetch_json url path w) = Raise e'.
Proof.
  unfold document. intros Hd Hl.
  destruct (files w !! path) as [t'|] eqn:Hf.
  - injection Hd as ->. rewrite (fetch_json_hit url path w t Hf), Hl. eauto.
  - unfold fetch_json, bind, path_exists, requests_get, raise_for_status, write_text, throw, ret, pure.
    cbv beta. rewrite !Hf. simpl.
    destruct (remote w url) as [e0|status body]; [discriminate|].
    destruct (error_status status); [discriminate|]. injection Hd as ->. simpl.
    destruct (faults w) as [|[[|n]|] rest]; simpl; rewrite ?Hl; eauto.
Qed.

Lemma paths_differ d : species_path d <> profile_path d.
Proof. unfold species_path, profile_path, CACHE_DIR. simpl. discriminate. Qed.

Lemma run_signal d w :
  fst (run d w) = Ok (match fst (get_pokemon d w) with
                      | Ok c => result_signal c
                      | Raise e => error_signal (exn_str e)
                      end).
Proof.
  unfold run, try_except, bind, ret. destruct (get_pokemon d w) as [[c|e] w']; reflexivity.
Qed.

Lemma run_requests d w : requested (snd (run d w)) = requested (snd (get_pokemon d w)).
Proof.
  unfold run, try_except, bind, ret. destruct (get_pokemon d w) as [[c|e] w']; reflexivity.
Qed.

Lemma get_pokemon_profile_raises d w e :
  fst (fetch_json (profile_url d) (profile_path d) w) = Raise e ->
  fst (get_pokemon d w) = Raise e.
Proof.
  unfold get_pokemon, profile_url, profile_path. unfold bind at 1.
  destruct (fetch_json _ _ w) as [[data|e'] w1]; simpl; congruence.
Qed.

Lemma get_pokemon_species_raises d w data e :
  fst (fetch_json (profile_url d) (profile_path d) w) = Ok data ->
  fst (fetch_json (species_url d) (species_path d)
         (snd (fetch_json (profile_url d) (profile_path d) w))) = Raise e ->
  fst (get_pokemon d w) = Raise e.
Proof.
  unfold get_pokemon, profile_url, profile_path, species_url, species_path. unfold bind at 1.
  destruct (fetch_json _ _ w) as [[data'|e'] w1]; simpl; [|discriminate].
  intros _. unfold bind at 1.
  destruct (fetch_json _ _ w1) as [[species|e'] w2]; simpl; congruence.
Qed.

(** [fetch_json] makes no request, or one for its url. *)
Lemma fetch_json_log url path w :
  remote (snd (fetch_json url path w)) = remote w /\
  (requested (snd (fetch_json url path w)) = requested w \/
   requested (snd (fetch_json url path w)) = url :: requested w).
Proof.
  split; [apply fetch_json_frame|].
  unfold fetch_json, bind, path_exists, read_text, requests_get, raise_for_status, write_text,
    throw, ret, pure. cbv beta.
  destruct (files w !! path) as [t|] eqn:Hf; simpl.
  - rewrite Hf. left. reflexivity.
  - right. destruct w as [fl rm rq fs im ap]; simpl in *.
    destruct (rm url) as [e|status body]; simpl; [reflexivity|].
    destruct (error_status status); simpl; [reflexivity|].
    destruct fs as [|[[|n]|] rest]; simpl; reflexivity.
Qed.

(** The requests of one generation: those for the two documents and, when
    one more was made, the download of the sprite; an error status of that
    download leaves the card as it is and the sprite file unwritten. *)
Lemma get_pokemon_sprite d w :
  exists made,
    requested (snd (get_pokemon d w)) = made ++ requested w /\
    ((forall u, u ∈ made -> u = profile_url d \/ u = species_url d) \/
     exists url rest,
       made = url :: rest /\
       (forall u, u ∈ rest -> u = profile_url d \/ u = species_url d) /\
       forall status body,
         remote w url = Response status body -> error_status status = true ->
         exists c, fst (get_pokemon d w) = Ok c /\ card_sprite_path c = sprite_path d /\
                   files (snd (get_pokemon d w)) !! sprite_path d = None).
Proof.
  remember (get_pokemon d w) as x eqn:Hx. unfold get_pokemon in Hx.
  change (BASE_URL +:+ "/pokemon/" +:+ pretty (randint d)) with (profile_url d) in Hx.
  change (BASE_URL +:+ "/pokemon-species/" +:+ pretty (randint d)) with (species_url d) in Hx.
  change (CACHE_DIR ("pokemon_" +:+ pretty (randint d) +:+ ".json")) with (profile_path d) in Hx.
  change (CACHE_DIR ("species_" +:+ pretty (randint d) +:+ ".json")) with (species_path d) in Hx.
  change (CACHE_DIR (pretty (randint d) +:+ "_"
            +:+ (if random53 d <? SHINY_THRESHOLD then "shiny" else "normal") +:+ ".png"))
    with (sprite_path d) in Hx.
  destruct (fetch_json_log (profile_url d) (profile_path d) w) as [Hr0 Hq0].
  unfold bind at 1 in Hx.
  destruct (fetch_json (profile_url d) (profile_path d) w) as [[data|e] w0]; cbn [fst snd] in *.
  2: { subst x. cbn [fst snd].
       destruct Hq0 as [-> | ->]; [exists [] | exists [profile_url d]];
         (split; [reflexivity|]); left; intros u Hu;
         [inversion Hu | apply list_elem_of_singleton in Hu; auto]. }
  destruct (fetch_json_log (species_url d) (species_path d) w0) as [Hr1 Hq1].
  unfold bind at 1 in Hx.
  destruct (fetch_json (species_url d) (species_path d) w0) as [[species|e] w1]; cbn [fst snd] in *.
  all: assert (exists made1, requested w1 = made1 ++ requested w /\
               forall u, u ∈ made1 -> u = profile_url d \/ u = species_url d) as (made1 & Hq & Hmade1)
    by (destruct Hq0 as [E0 | E0]; destruct Hq1 as [E1 | E1]; rewrite E1, E0;
        [exists [] | exists [species_url d] | exists [profile_url d]
        | exists [species_url d; profile_url d]];
        (split; [reflexivity|]); intros u Hu;
        repeat (apply elem_of_cons in Hu; destruct Hu as [-> | Hu]; [auto|]); inversion Hu).
  2: { subst x. exists made1. split; [exact Hq | left; exact Hmade1]. }
  assert (forall (r : result card), x = (r, w1) -> exists made,
            requested (snd x) = made ++ requested w /\
            ((forall u, u ∈ made -> u = profile_url d \/ u = species_url d) \/
             exists url rest,
               made = url :: rest /\
               (forall u, u ∈ rest -> u = profile_url d \/ u = species_url d) /\
               forall status body,
                 remote w url = Response status body -> error_status status = true ->
                 exists c, fst x = Ok c /\ card_sprite_path c = sprite_path d /\
                           files (snd x) !! sprite_path d = None)) as Hquiet
    by (intros r ->; exists made1; split; [exact Hq | left; exact Hmade1]).
  unfold bind at 1, pure at 1 in Hx.
  destruct (rbind (py_getitem data (PStr "name")) _) as [name|e]; cbn [fst snd] in Hx;
    [|exact (Hquiet _ Hx)].
  unfold bind at 1, pure at 1 in Hx.
  destruct (rbind (py_getitem data (PStr "types")) _) as [types|e]; cbn [fst snd] in Hx;
    [|exact (Hquiet _ Hx)].
  unfold bind at 1, pure at 1 in Hx.
  destruct (flavor_text d species) as [flavor|e]; cbn [fst snd] in Hx;
    [|exact (Hquiet _ Hx)].
  unfold bind at 1, pure at 1 in Hx.
  destruct (rbind (py_getitem data (PStr "sprites")) _) as [sprite_url|e]; cbn [fst snd] in Hx;
    [|exact (Hquiet _ Hx)].
  unfold bind at 1, path_exists at 1 in Hx. cbn [fst snd] in Hx.
  destruct (files w1 !! sprite_path d) as [t|] eqn:Hsp.
  { rewrite bool_decide_eq_true_2 in Hx by eauto. rewrite andb_false_r in Hx.
    unfold bind, ret in Hx. cbn [fst snd] in Hx. exact (Hquiet _ Hx). }
  rewrite bool_decide_eq_false_2 in Hx by (intros [? ?]; discriminate).
  rewrite andb_true_r in Hx.
  destruct (truthy sprite_url) eqn:Htruthy.
  2: { unfold bind, ret in Hx. cbn [fst snd] in Hx. exact (Hquiet _ Hx). }
  destruct sprite_url as [| b | z | f | url | l | dd];
    try (unfold bind, requests_get_value, throw in Hx; cbn [fst snd] in Hx; exact (Hquiet _ Hx)).
  clear Hquiet.
  unfold requests_get_value, bind, requests_get, ret in Hx. cbn [fst snd] in Hx.
  rewrite Hr1, Hr0 in Hx.
  exists (url :: made1). split.
  { subst x. destruct (remote w url) as [e|status body]; cbn [fst snd].
    - simpl. rewrite Hq. reflexivity.
    - destruct (negb (error_status status)); cbn [fst snd].
      + unfold write_text. destruct w1 as [fl rm rq fs im ap]; simpl in *.
        destruct fs as [|[[|n]|] rest]; simpl; rewrite Hq; reflexivity.
      + simpl. rewrite Hq. reflexivity. }
  right. exists url, made1. split; [reflexivity|]. split; [exact Hmade1|].
  intros status body Hremote Herr.
  rewrite Hremote in Hx. cbn [fst snd] in Hx. rewrite Herr in Hx. cbn [negb fst snd] in Hx.
  subst x. eexists. split; [reflexivity|]. split; [reflexivity|].
  simpl. exact Hsp.
Qed.

(** An error status of the sprite download does not abort the generation. *)
Lemma sprite_error_status_emits_card d w url status body :
  url ∈ requests_made (run d) w -> url <> profile_url d -> url <> species_url d ->
  remote w url = Response status body -> error_status status = true ->
  exists c, fst (run d w) = Ok (result_signal c) /\ card_sprite_path c = sprite_path d /\
            files (snd (run d w)) !! sprite_path d = None.
Proof.
  intros Hin Hp Hs Hremote Herr.
  destruct (get_pokemon_sprite d w) as (made & Hq & Hmade).
  rewrite (requests_made_spec (run d) w made) in Hin by (rewrite run_requests; exact Hq).
  destruct Hmade as [Hdocs | (url' & rest & -> & Hrest & Hcard)].
  - destruct (Hdocs url Hin); contradiction.
  - apply elem_of_cons in Hin. destruct Hin as [-> | Hin]; [|destruct (Hrest url Hin); contradiction].
    destruct (Hcard status body Hremote Herr) as (c & Hc & Hpath & Hfile).
    exists c. rewrite run_signal, Hc. split; [reflexivity|]. split; [exact Hpath|].
    unfold run, try_except, bind, ret.
    destruct (get_pokemon d w) as [[c'|e] w']; simpl in *; [exact Hfile | discriminate].
Qed.

(** C5, as the code has it. The worker emits exactly one signal: the card
    when [get_pokemon] returned one, the error otherwise. The generation is
    aborted, with an error signal and no card, by a transport error of any
    request it makes (the sprite download included), by a failed fetch of
    the profile or species document (transport error or error status), and
    by a profile or species document that is not JSON. An error status of
    the sprite download (the one request for a url other than those of the
    two documents) does not abort it: the card is emitted, with the path of
    the sprite file, which was not written. *)
Theorem generation_aborts_on_failed_fetch (d : draws) (w : world) :
  let emitted := fst (run d w) in
  emitted = Ok (match fst (get_pokemon d w) with
                | Ok c => result_signal c
                | Raise e => error_signal (exn_str e)
                end) /\
  (forall url e, url ∈ requests_made (run d) w -> remote w url = NetFail e ->
                 emitted = Ok (error_signal (exn_str e))) /\
  (files w !! profile_path d = None -> fetch_failed (remote w (profile_url d)) ->
   exists msg, emitted = Ok (error_signal msg)) /\
  (files w !! species_path d = None -> fetch_failed (remote w (species_url d)) ->
   exists msg, emitted = Ok (error_signal msg)) /\
  (forall t e, document (profile_url d) (profile_path d) w = Some t -> Json.loads t = Raise e ->
               exists msg, emitted = Ok (error_signal msg)) /\
  (forall t e, document (species_url d) (species_path d) w = Some t -> Json.loads t = Raise e ->
               exists msg, emitted = Ok (error_signal msg)) /\
  (forall url status body,
     url ∈ requests_made (run d) w -> url <> profile_url d -> url <> species_url d ->
     remote w url = Response status body -> error_status status = true ->
     exists c, emitted = Ok (result_signal c) /\ card_sprite_path c = sprite_path d /\
               files (snd (run d w)) !! sprite_path d = None).
Proof.
  intros emitted. unfold emitted.
  assert (forall url status body,
            url ∈ requests_made (run d) w -> url <> profile_url d -> url <> species_url d ->
            remote w url = Response status body -> error_status status = true ->
            exists c, fst (run d w) = Ok (result_signal c) /\ card_sprite_path c = sprite_path d /\
                      files (snd (run d w)) !! sprite_path d = None) as Hsprite
    by apply sprite_error_status_emits_card.
  revert Hsprite. rewrite run_signal. intros Hsprite.
  assert (forall e, fst (get_pokemon d w) = Raise e ->
          exists msg, Ok (match fst (get_pokemon d w) with
                          | Ok c => result_signal c
                          | Raise e => error_signal (exn_str e)
                          end) = @Ok signal (error_signal msg)) as Habort.
  { intros e ->. eauto. }
  (* the profile fetch, then the species fetch in the world it leaves *)
  pose proof (fetch_json_frame (profile_url d) (profile_path d) w) as [Hremote Hfiles].
  set (w1 := snd (fetch_json (profile_url d) (profile_path d) w)) in *.
  assert (files w1 !! species_path d = files w !! species_path d) as Hsame
    by (apply Hfiles, paths_differ).
  assert (forall e, fst (fetch_json (species_url d) (species_path d) w1) = Raise e ->
          exists e', fst (get_pokemon d w) = Raise e') as Hspecies.
  { intros e He.
    destruct (fst (fetch_json (profile_url d) (profile_path d) w)) as [data|e1] eqn:H1.
    - exists e. apply (get_pokemon_species_raises d w data e H1 He).
    - exists e1. apply get_pokemon_profile_raises. exact H1. }
  split; [reflexivity|]. split; [|split; [|split; [|split; [|split; [|exact Hsprite]]]]].
  - intros url e Hin He.
    destruct (through_get_pokemon d w) as (_ & made & Hq & Hfail).
    rewrite (requests_made_spec (run d) w made) in Hin by (rewrite run_requests; exact Hq).
    rewrite (Hfail url e Hin He). reflexivity.
  - intros Hf Hfail.
    destruct (fetch_json_fails (profile_url d) (profile_path d) w Hf Hfail) as (e & He & _).
    apply (Habort e). apply get_pokemon_profile_raises. exact He.
  - intros Hf Hfail.
    pose proof (fetch_json_fails (species_url d) (species_path d) w1) as H.
    rewrite Hsame, Hremote in H. destruct (H Hf Hfail) as (e & He & _).
    destruct (Hspecies e He) as [e' He']. apply (Habort e' He').
  - intros t e Hd Hl.
    destruct (fetch_json_unparsable _ _ _ _ _ Hd Hl) as [e' He'].
    apply (Habort e'). apply get_pokemon_profile_raises. exact He'.
  - intros t e Hd Hl.
    assert (document (species_url d) (species_path d) w1 = Some t) as Hd1.
    { unfold document in *. rewrite Hsame, Hremote. exact Hd. }
    destruct (fetch_json_unparsable _ _ _ _ _ Hd1 Hl) as [e' He'].
    destruct (Hspecies e' He') as [e'' He'']. apply (Habort e'' He'').
Qed.

(** ** The time since the last shiny *)


Lemma ensures_bind {S A B} (P R Q : S -> Prop) (c : M S A) (k : A -> M S B) :
  ensures P c R -> (forall a, ensures R (k a) Q) -> ensures P (bind c k) Q.
Proof.
  intros Hc Hk s HP. unfold bind. specialize (Hc s HP).
  destruct (c s) as [[a|e] s']; [apply Hk; exact Hc | exact I].
Qed.

Lemma ensures_keeps {T A} (part : PokedexViewer -> T) (x : T) (c : method A) :
  keeps part c -> ensures (fun s => part (fst s) = x) c (fun s => part (fst s) = x).
Proof.
  intros Hk s HP. specialize (Hk s). destruct (c s) as [[a|e] s']; [|exact I].
  simpl in Hk. congruence.
Qed.

Lemma update_shiny_delay_label now v w :
  update_shiny_delay now (v, w)
  = (Ok tt, (with_since_lbl (match last_shiny_time v with
                             | None => no_shiny_label
                             | Some last => delay_label (Clock.minutes_between last now)
                             end) v, w)).
Proof.
  unfold update_shiny_delay, bind, self, update. simpl.
  destruct (last_shiny_time v); reflexivity.
Qed.


(** When what follows keeps a part, the part after the whole is the part
    after the first step. *)
Lemma bind_keeps_tail {T A B} (part : PokedexViewer -> T) (c : method A) (k : A -> method B) s :
  (forall a, keeps part (k a)) ->
  part (fst (snd (bind c k s))) = part (fst (snd (c s))).
Proof.
  intros Hk. unfold bind. destruct (c s) as [[a|e] s']; simpl; [apply Hk | reflexivity].
Qed.





(** ** Where the code departs from the specification *)


(** C2 as stated fails. The ledger document is the object with the number
    5 for names, the history document the number 7: both are JSON, neither
    is a ledger or a history. The loaders return them as they are, not the
    empty ledger and the empty list, and the program started on them
    raises instead of starting with no history. *)
Lemma wrong_shape_is_loaded_as_is :
  load_encounter_data Sample.wrong_shape = (Ok (PInt 5, [], PDict []), Sample.wrong_shape) /\
  (PInt 5, @nil pyval, PDict []) <> empty_ledger /\
  load_shiny_history Sample.wrong_shape = (Ok (PInt 7), Sample.wrong_shape) /\
  PInt 7 <> PList [] /\
  forall now, exists e, fst (start now Sample.wrong_shape) = Raise e.
Proof.
  split; [vm_compute; reflexivity|]. split; [discriminate|].
  split; [vm_compute; reflexivity|]. split; [discriminate|].
  intros now. vm_compute. eexists. reflexivity.
Qed.

(** C5 as stated fails. The download of the sprite meets status 404: a
    failed fetch. The generation is not aborted: the worker emits the card,
    whose sprite path names a file that was never written. *)
Lemma sprite_error_status_still_emits_card :
  let url := "https://img.example/25.png" in
  url ∈ requests_made (run Sample.plain) Sample.online /\
  fetch_failed (remote Sample.online url) /\
  fst (run Sample.plain Sample.online)
    = Ok (result_signal (Card 25 "#025" "Pikachu" "Electric" "It keeps its tail  raised."
                              "pokesprites/25_normal.png" false)) /\
  files (snd (run Sample.plain Sample.online)) !! "pokesprites/25_normal.png" = None.
Proof.
  split; [|split; [|split]].
  - apply list_elem_of_In. vm_compute. tauto.
  - vm_compute. reflexivity.
  - vm_compute. reflexivity.
  - vm_compute. reflexivity.
Qed.

(** C8 as stated fails. Two newlines in a row become two spaces, where the
    collapse of the run would leave one. *)
Lemma run_of_breaks_becomes_as_many_spaces :
  flavor_text Sample.plain Sample.terse_species = Ok "a  b" /\
  normalize_collapsing Sample.two_breaks = "a b" /\
  flavor_text Sample.plain Sample.terse_species <> Ok (normalize_collapsing Sample.two_breaks).
Proof.
  split; [|split]; vm_compute; [reflexivity | reflexivity | intros E; discriminate E].
Qed.

(** C9 as stated fails. The disk fails after 12 characters of the write:
    persisting returns as if nothing had happened, and the document on disk
    is neither the previous one nor the new one but the first 12 characters
    of the new one, which no longer reads as a ledger. *)
Lemma failed_write_leaves_half_a_document :
  let w := Sample.failing_disk in
  let w' := snd (save_encounter_data Sample.names Sample.ids Sample.name_map w) in
  let new := Sample.doc (PDict [ (PStr "names", Sample.names);
                                 (PStr "ids", PList Sample.ids);
                                 (PStr "names_by_id", Sample.name_map) ]) in
  fst (save_encounter_data Sample.names Sample.ids Sample.name_map w) = Ok tt /\
  files w' !! ENCOUNTER_LOG = Some (prefix_of 12 new) /\
  files w' !! ENCOUNTER_LOG <> files w !! ENCOUNTER_LOG /\
  files w' !! ENCOUNTER_LOG <> Some new /\
  fst (load_encounter_data w') = Ok empty_ledger.
Proof.
  split; [|split; [|split; [|split]]]; vm_compute;
    try reflexivity; intros E; discriminate E.
Qed.

(** ** The theorems at concrete inputs *)

(** C1 at three encounters, the first id met twice. *)
Lemma ledger_after_encounters_witness :
  let v := with_id_to_name (PDict []) (with_encounters (PList []) blank) in
  let v' := fst (apply_cards Sample.deliveries (v, Sample.offline)) in
  ledger v = empty_ledger /\
  (exists ids name_map,
    encounters v' = PList (map (fun d => PStr (card_name (card_of d))) Sample.deliveries)
    /\ py_len (encounters v') = Ok (Z.of_nat (length Sample.deliveries))
    /\ encounter_ids v' = ids /\ NoDup ids
    /\ (forall x, x ∈ ids <-> exists c, c ∈ map card_of Sample.deliveries /\ x = PInt (card_pid c))
    /\ id_to_name v' = PDict name_map
    /\ (forall pid, dict_get (PInt pid) name_map
                    = option_map PStr (latest_name pid (map card_of Sample.deliveries)))) /\
  ledger v' = (PList [ PStr "Pikachu"; PStr "Charizard"; PStr "Pikachu-gmax" ],
               [ PInt 25; PInt 6 ],
               PDict [ (PInt 25, PStr "Pikachu-gmax"); (PInt 6, PStr "Charizard") ]).
Proof.
  intros v v'. split; [reflexivity|]. split.
  - exact (ledger_after_encounters Sample.deliveries v Sample.offline eq_refl).
  - vm_compute. reflexivity.
Defined.

(** C2, as amended, at a ledger document cut short after 40 characters,
    with no shiny history on disk. *)
Lemma load_outcomes_witness :
  unreadable ENCOUNTER_LOG Sample.cut_short /\
  unreadable HISTORY_FILE Sample.cut_short /\
  load_encounter_data Sample.cut_short = (Ok empty_ledger, Sample.cut_short) /\
  load_shiny_history Sample.cut_short = (Ok (PList []), Sample.cut_short).
Proof.
  assert (unreadable ENCOUNTER_LOG Sample.cut_short) as H1
    by (vm_compute; eexists; reflexivity).
  assert (unreadable HISTORY_FILE Sample.cut_short) as H2
    by (vm_compute; exact I).
  destruct (load_outcomes Sample.cut_short) as (_ & _ & Hl & Hh & _).
  exact (conj H1 (conj H2 (conj (Hl H1) (Hh H2)))).
Defined.

(** Every document cut short of the ledger of one encounter is
    unreadable, whatever the length kept. *)
Example every_cut_of_a_ledger_is_unreadable :
  let text := Sample.doc (PDict [ (PStr "names", Sample.names);
                                  (PStr "ids", PList Sample.ids);
                                  (PStr "names_by_id", Sample.name_map) ]) in
  forallb (fun n => match Json.loads (prefix_of n text) with Ok _ => false | Raise _ => true end)
          (seq 0 (String.length text)) = true /\
  Json.loads text = Ok (PDict [ (PStr "names", Sample.names);
                                (PStr "ids", PList Sample.ids);
                                (PStr "names_by_id", PDict [ (PStr "25", PStr "Pikachu") ]) ]).
Proof. vm_compute. split; reflexivity. Qed.

(** C6 at the profile of Pikachu on an empty cache. *)
Lemma cache_hit_or_single_fetch_witness :
  let url := profile_url Sample.plain in
  let path := profile_path Sample.plain in
  let w := Sample.online in
  let w' := snd (fetch_json url path w) in
  files w !! path = None /\
  remote w url = Response 200 (Sample.doc Sample.pikachu) /\
  error_status 200 = false /\
  next_write_succeeds w /\
  fst (fetch_json url path w) = Json.loads (Sample.doc Sample.pikachu) /\
  requested w' = [ url ] /\
  files w' !! path = Some (Sample.doc Sample.pikachu) /\
  fetch_json url path w' = (Ok Sample.pikachu, w').
Proof.
  intros url path w w'.
  assert (files w !! path = None) as H1 by reflexivity.
  assert (remote w url = Response 200 (Sample.doc Sample.pikachu)) as H2 by reflexivity.
  assert (error_status 200 = false) as H3 by reflexivity.
  assert (next_write_succeeds w) as H4 by exact I.
  destruct (cache_hit_or_single_fetch url path w) as [Hhit Hmiss].
  destruct (Hmiss 200 _ H1 H2 H3 H4) as (Hr & Hq & Hf & Hagain).
  assert (files w' !! path = Some (Sample.doc Sample.pikachu)) as Hentry
    by (unfold w'; rewrite Hf; apply lookup_insert_eq).
  assert (fetch_json url path w' = (Ok Sample.pikachu, w')) as Hsecond
    by (rewrite (Hagain w' url eq_refl); vm_compute; reflexivity).
  exact (conj H1 (conj H2 (conj H3 (conj H4 (conj Hr (conj Hq (conj Hentry Hsecond))))))).
Defined.

(** C7 at an unreachable service and at a sprite that answers 404. *)
Lemma failed_fetch_leaves_no_entry_witness :
  let path := CACHE_DIR "25_normal.png" in
  files Sample.offline !! path = None /\
  fetch_failed (remote Sample.offline "https://img.example/25.png") /\
  fetch_failed (remote Sample.online "https://img.example/25.png") /\
  fst (fetch_json "https://img.example/25.png" path Sample.offline)
    = Raise (Exn RequestException "Max retries exceeded") /\
  fst (fetch_json "https://img.example/25.png" path Sample.online)
    = Raise (Exn HTTPError "404 Error") /\
  files (snd (fetch_json "https://img.example/25.png" path Sample.offline)) = files Sample.offline /\
  files (snd (fetch_json "https://img.example/25.png" path Sample.online)) = files Sample.online.
Proof.
  intros path.
  assert (files Sample.offline !! path = None) as H0 by reflexivity.
  assert (fetch_failed (remote Sample.offline "https://img.example/25.png")) as H1 by exact I.
  assert (fetch_failed (remote Sample.online "https://img.example/25.png")) as H2 by reflexivity.
  destruct (failed_fetch_leaves_no_entry "https://img.example/25.png" path Sample.offline) as [Ha _].
  destruct (failed_fetch_leaves_no_entry "https://img.example/25.png" path Sample.online) as [Hb _].
  destruct (Ha H0 H1) as (e1 & Hr1 & He1 & Hf1).
  destruct (Hb H0 H2) as (e2 & Hr2 & He2 & Hf2).
  simpl in He1, He2. subst e1 e2.
  exact (conj H0 (conj H1 (conj H2 (conj Hr1 (conj Hr2 (conj Hf1 Hf2)))))).
Defined.

(** C5, as amended, at a service that cannot be reached: the request for
    the profile meets a transport error and the worker emits that error;
    and at a service that answers the download of the sprite with status
    404: the worker emits a card. *)
Lemma generation_aborts_on_failed_fetch_witness :
  let d := Sample.plain in
  let w := Sample.offline in
  let url := "https://img.example/25.png" in
  profile_url d ∈ requests_made (run d) w /\
  remote w (profile_url d) = NetFail (Exn RequestException "Max retries exceeded") /\
  files w !! profile_path d = None /\
  fetch_failed (remote w (profile_url d)) /\
  fst (run d w) = Ok (error_signal "Max retries exceeded") /\
  (exists msg, fst (run d w) = Ok (error_signal msg)) /\
  url ∈ requests_made (run d) Sample.online /\
  remote Sample.online url = Response 404 "Not Found" /\
  (exists c, fst (run d Sample.online) = Ok (result_signal c) /\
             card_sprite_path c = sprite_path d /\
             files (snd (run d Sample.online)) !! sprite_path d = None).
Proof.
  intros d w url.
  assert (profile_url d ∈ requests_made (run d) w) as H1
    by (apply list_elem_of_In; vm_compute; tauto).
  assert (remote w (profile_url d) = NetFail (Exn RequestException "Max retries exceeded")) as H2
    by reflexivity.
  assert (files w !! profile_path d = None) as H3 by reflexivity.
  assert (fetch_failed (remote w (profile_url d))) as H4 by exact I.
  assert (url ∈ requests_made (run d) Sample.online) as H5
    by (apply list_elem_of_In; vm_compute; tauto).
  assert (remote Sample.online url = Response 404 "Not Found") as H6 by (vm_compute; reflexivity).
  destruct (generation_aborts_on_failed_fetch d w) as (_ & Hnet & Hprofile & _).
  destruct (generation_aborts_on_failed_fetch d Sample.online) as (_ & _ & _ & _ & _ & _ & Hsprite).
  refine (conj H1 (conj H2 (conj H3 (conj H4 (conj (Hnet _ _ H1 H2) (conj (Hprofile H3 H4)
           (conj H5 (conj H6 (Hsprite url 404 "Not Found" H5 _ _ H6 _)))))))));
    vm_compute; congruence.
Defined.

(** C8, as amended, at a record with a French and an English entry. *)
Lemma flavor_text_of_record_witness :
  let entries := [ ("fr", "Il leve la queue."); ("en", Sample.pikachu_text) ] in
  fair Sample.plain /\
  py_getitem Sample.pikachu_species (PStr "flavor_text_entries")
    = Ok (PList [ Sample.flavor_entry "fr" "Il leve la queue.";
                  Sample.flavor_entry "en" Sample.pikachu_text ]) /\
  Forall2 (fun e p => tagged e (fst p) (snd p))
          [ Sample.flavor_entry "fr" "Il leve la queue.";
            Sample.flavor_entry "en" Sample.pikachu_text ] entries /\
  texts_in "en" entries = [ Sample.pikachu_text ] /\
  (exists text, texts_in "en" entries !! choice Sample.plain 1 = Some text /\
                flavor_text Sample.plain Sample.pikachu_species = Ok (normalize text)) /\
  normalize Sample.pikachu_text = "It keeps its tail  raised.".
Proof.
  intros entries.
  assert (fair Sample.plain) as H1.
  { unfold fair, MAX_ID. simpl. split; [lia|]. split; [lia|]. intros n Hn. exact Hn. }
  assert (py_getitem Sample.pikachu_species (PStr "flavor_text_entries")
          = Ok (PList [ Sample.flavor_entry "fr" "Il leve la queue.";
                        Sample.flavor_entry "en" Sample.pikachu_text ])) as H2 by reflexivity.
  assert (Forall2 (fun e p => tagged e (fst p) (snd p))
            [ Sample.flavor_entry "fr" "Il leve la queue.";
              Sample.flavor_entry "en" Sample.pikachu_text ] entries) as H3.
  { repeat constructor; eexists; repeat split; reflexivity. }
  assert (texts_in "en" entries = [ Sample.pikachu_text ]) as H4 by reflexivity.
  destruct (flavor_text_of_record Sample.plain Sample.pikachu_species _ entries H1 H2 H3)
    as (_ & Hsome & _).
  assert (texts_in "en" entries <> []) as H5 by (rewrite H4; discriminate).
  destruct (Hsome H5) as (text & _ & Hat & Hflavor).
  refine (conj H1 (conj H2 (conj H3 (conj H4 (conj _ _))))).
  - exists text. split; [exact Hat | exact Hflavor].
  - vm_compute. reflexivity.
Defined.

(** C9, as amended, at a disk without faults: the new ledger document is
    on disk in full. *)
Lemma persist_outcomes_witness :
  let w := Sample.offline in
  let wl := snd (save_encounter_data Sample.names Sample.ids Sample.name_map w) in
  next_write_succeeds w /\
  ledger_document Sample.names Sample.ids Sample.name_map
    = Ok (Sample.doc (PDict [ (PStr "names", Sample.names);
                              (PStr "ids", PList Sample.ids);
                              (PStr "names_by_id", Sample.name_map) ])) /\
  files wl !! ENCOUNTER_LOG
    = Some (Sample.doc (PDict [ (PStr "names", Sample.names);
                                (PStr "ids", PList Sample.ids);
                                (PStr "names_by_id", Sample.name_map) ])).
Proof.
  intros w wl.
  assert (next_write_succeeds w) as H1 by exact I.
  assert (ledger_document Sample.names Sample.ids Sample.name_map
          = Ok (Sample.doc (PDict [ (PStr "names", Sample.names);
                                    (PStr "ids", PList Sample.ids);
                                    (PStr "names_by_id", Sample.name_map) ]))) as H2
    by (vm_compute; reflexivity).
  destruct (persist_outcomes w Sample.names Sample.ids Sample.name_map (PList []))
    as (_ & _ & _ & _ & Hfull).
  destruct (Hfull H1) as [Hledger _].
  exact (conj H1 (conj H2 (Hledger _ H2))).
Defined.

(** C10 at a saved entry with dex number 494, one past the grid, replayed
    after an entry of Pikachu. *)
Lemma replay_without_slot_is_noop_witness :
  let s0 := (blank, Sample.offline) in
  let s1 := snd (_build_dex_grid s0) in
  let before := [ PDict [ (PStr "dex", PStr "#025"); (PStr "name", PStr "Pikachu");
                          (PStr "time", PStr "2:15 PM"); (PStr "date", PStr "01/01/2024") ] ] in
  let s := snd (for_each before replay_entry s1) in
  box_tooltip <$> dex_cells (fst s) !! 25 = Some "2:15 PM – 01/01/2024" /\
  ~ (1 <= 494 <= MAX_ID) /\
  replay_entry Sample.stray_entry s = (Ok tt, s).
Proof.
  intros s0 s1 before s.
  assert (box_tooltip <$> dex_cells (fst s) !! 25 = Some "2:15 PM – 01/01/2024") as H0
    by (vm_compute; reflexivity).
  assert (dex_cells (fst s0) = ∅) as H1 by reflexivity.
  assert (_build_dex_grid s0 = (Ok tt, s1)) as H2 by (vm_compute; reflexivity).
  assert (for_each before replay_entry s1 = (Ok tt, s)) as H3 by (vm_compute; reflexivity).
  assert (py_getitem Sample.stray_entry (PStr "dex") = Ok (PStr "#494")) as H4 by reflexivity.
  assert (int_of_tail (PStr "#494") = Ok 494) as H5 by (vm_compute; reflexivity).
  assert (~ (1 <= 494 <= MAX_ID)) as H6 by (unfold MAX_ID; lia).
  exact (conj H0 (conj H6
           (replay_without_slot_is_noop s0 s1 s before Sample.stray_entry _ 494
              H1 H2 H3 H4 H5 H6))).
Defined.


(** * Further properties *)

(** ** The cache and the network *)

(** [fetch_json] writes the body before it parses it. A response with a
    good status whose body is not JSON is therefore cached: the call raises
    the parse error, the body is the cache entry, and every later call for
    the key raises the same error without a request. *)
Theorem unparsable_response_poisons_cache
    (url path : string) (w : world) (status : Z) (body : string) (e : exn) :
  files w !! path = None ->
  remote w url = Response status body -> error_status status = false ->
  next_write_succeeds w ->
  Json.loads body = Raise e ->
  fst (fetch_json url path w) = Raise e /\
  files (snd (fetch_json url path w)) !! path = Some body /\
  forall url' w'', files w'' !! path = Some body ->
                   fetch_json url' path w'' = (Raise e, w'').
Proof.
  intros Hf Hr Hs Hw Hl.
  split; [|split].
  - unfold fetch_json, bind, path_exists, requests_get, raise_for_status, write_text, pure, ret.
    cbv beta. rewrite !Hf. simpl. rewrite Hr, Hs. simpl.
    unfold next_write_succeeds in Hw.
    destruct (faults w) as [|[f|] rest]; simpl; [| destruct Hw |]; rewrite Hl; reflexivity.
  - unfold fetch_json, bind, path_exists, requests_get, raise_for_status, write_text, pure, ret.
    cbv beta. rewrite !Hf. simpl. rewrite Hr, Hs. simpl.
    unfold next_write_succeeds in Hw.
    destruct w as [fl rm rq fs im ap]; simpl in *.
    destruct fs as [|[f|] rest]; simpl; [| destruct Hw |];
      rewrite ?Hl; simpl; apply lookup_insert_eq.
  - intros url' w'' Hf'. rewrite (fetch_json_hit url' path w'' body Hf'), Hl. reflexivity.
Qed.

Lemma bind_pure {S A B} (r : result A) (k : A -> M S B) (s : S) :
  bind (pure r) k s = match r with Ok a => k a s | Raise e => (Raise e, s) end.
Proof. unfold bind, pure. destruct r; reflexivity. Qed.

(** A pokemon whose two documents and sprite are in the cache is served
    from the cache alone: whatever the call returns, no request is made and
    no file is written. *)
Theorem cached_pokemon_leaves_world (d : draws) (w : world) :
  is_Some (files w !! profile_path d) -> is_Some (files w !! species_path d) ->
  is_Some (files w !! sprite_path d) ->
  snd (get_pokemon d w) = w.
Proof.
  intros [t1 H1] [t2 H2] [t3 H3].
  unfold get_pokemon.
  unfold profile_path in H1. unfold species_path in H2. unfold sprite_path in H3.
  unfold bind at 1. rewrite (fetch_json_hit _ _ w t1 H1).
  destruct (Json.loads t1) as [data|e]; [|reflexivity].
  unfold bind at 1. rewrite (fetch_json_hit _ _ w t2 H2).
  destruct (Json.loads t2) as [species|e]; [|reflexivity].
  rewrite bind_pure. destruct (rbind _ _) as [name|e]; [|reflexivity].
  rewrite bind_pure. destruct (rbind _ _) as [types|e]; [|reflexivity].
  rewrite bind_pure. destruct (flavor_text d species) as [flavor|e]; [|reflexivity].
  rewrite bind_pure. destruct (rbind _ _) as [sprite_url|e]; [|reflexivity].
  unfold bind, path_exists, ret. cbv beta. rewrite H3. simpl.
  rewrite andb_false_r. reflexivity.
Qed.

(** ** The card of a draw *)

Lemma bind_ok {S A B} (c : M S A) (k : A -> M S B) (s : S) (b : B) :
  fst (bind c k s) = Ok b ->
  exists a s', c s = (Ok a, s') /\ fst (k a s') = Ok b.
Proof.
  unfold bind. destruct (c s) as [[a|e] s']; simpl; [eauto | discriminate].
Qed.

(** The fields of a card that do not come from the service. *)
Lemma get_pokemon_card d w c :
  fst (get_pokemon d w) = Ok c ->
  card_pid c = randint d /\ card_dex c = dex_label (randint d) /\
  card_sprite_path c = sprite_path d /\
  card_shiny c = (random53 d <? SHINY_THRESHOLD).
Proof.
  unfold get_pokemon. intros H.
  repeat (apply bind_ok in H; destruct H as (? & ? & _ & H)).
  unfold ret in H. simpl in H. injection H as <-. simpl. repeat split.
Qed.

Lemma labels_read_back : forallb label_reads_back (seqZ 1 MAX_ID) = true.
Proof. vm_compute. reflexivity. Qed.

(** For every id [random.randint(1, MAX_ID)] can draw, the card
    [get_pokemon] returns carries that id, the shiny flag of the draw, the
    sprite file of that id and flag, and a dex label of four characters from
    which [int(dex[1:])], as the replay of the history reads it, gives the id
    back. *)
Theorem card_of_a_draw (d : draws) (w : world) (c : card) :
  1 <= randint d <= MAX_ID ->
  fst (get_pokemon d w) = Ok c ->
  card_pid c = randint d /\
  card_shiny c = (random53 d <? SHINY_THRESHOLD) /\
  card_sprite_path c = sprite_path d /\
  String.length (card_dex c) = 4%nat /\
  int_of_tail (PStr (card_dex c)) = Ok (card_pid c).
Proof.
  intros Hr H. destruct (get_pokemon_card d w c H) as (Hp & Hd & Hs & Hy).
  pose proof labels_read_back as Hall. rewrite forallb_forall in Hall.
  assert (label_reads_back (randint d) = true) as Hl.
  { apply Hall. apply list_elem_of_In, elem_of_seqZ. unfold MAX_ID in *. lia. }
  unfold label_reads_back in Hl. apply andb_true_iff in Hl. destruct Hl as [Hlen Hint].
  rewrite Hp, Hd. split; [reflexivity|]. split; [exact Hy|]. split; [exact Hs|].
  split; [apply Nat.eqb_eq; exact Hlen|].
  destruct (int_of_tail _) as [q|]; [|discriminate].
  apply Z.eqb_eq in Hint. rewrite Hint. reflexivity.
Qed.

(** ** What a generation writes *)

Section Spares.
Context {T : Type} (part : world -> T).

Lemma spares_ret {A} (a : A) : spares part (ret a).
Proof. intros w. reflexivity. Qed.

Lemma spares_throw {A} (e : exn) : spares part (@throw _ A e).
Proof. intros w. reflexivity. Qed.

Lemma spares_pure {A} (r : result A) : spares part (pure r).
Proof. intros w. reflexivity. Qed.

Lemma spares_bind {A B} (c : M world A) (k : A -> M world B) :
  spares part c -> (forall a, spares part (k a)) -> spares part (bind c k).
Proof.
  intros Hc Hk w. unfold bind. specialize (Hc w).
  destruct (c w) as [[a|e] w']; simpl in *; [rewrite Hk|]; exact Hc.
Qed.

Lemma spares_try_except {A} (c : M world A) (h : exn -> M world A) :
  spares part c -> (forall e, spares part (h e)) -> spares part (try_except c h).
Proof.
  intros Hc Hh w. unfold try_except. specialize (Hc w).
  destruct (c w) as [[a|e] w']; simpl in *; [|rewrite Hh]; exact Hc.
Qed.

End Spares.

Lemma spares_path_exists p path : spares (stored p) (path_exists path).
Proof. intros w. reflexivity. Qed.

Lemma spares_read_text p path : spares (stored p) (read_text path).
Proof. intros w. unfold read_text. destruct (files w !! path); reflexivity. Qed.

Lemma spares_requests_get p url : spares (stored p) (requests_get url).
Proof.
  intros w. unfold requests_get. destruct (remote w url); destruct w; reflexivity.
Qed.

Lemma spares_raise_for_status p status : spares (stored p) (@raise_for_status world status).
Proof. intros w. unfold raise_for_status. destruct (error_status status); reflexivity. Qed.

(** A write changes the file it names and no other. *)
Lemma spares_write_text p path data : p <> path -> spares (stored p) (write_text path data).
Proof.
  intros Hp w. unfold write_text, stored. destruct w as [fl rm rq fs im ap]; simpl.
  destruct fs as [|[[|n]|] rest]; simpl; try reflexivity; apply lookup_insert_ne; congruence.
Qed.

Lemma spares_fetch_json p url path : p <> path -> spares (stored p) (fetch_json url path).
Proof.
  intros Hp w. unfold stored. apply (proj2 (fetch_json_frame url path w)). exact Hp.
Qed.

(** [get_pokemon] writes the two documents of the id and its sprite, and no
    other file. *)
Lemma get_pokemon_spares d p :
  p <> profile_path d -> p <> species_path d -> p <> sprite_path d ->
  spares (stored p) (get_pokemon d).
Proof.
  intros H1 H2 H3. unfold get_pokemon.
  apply spares_bind; [apply spares_fetch_json; exact H1 | intros data].
  apply spares_bind; [apply spares_fetch_json; exact H2 | intros species].
  repeat (apply spares_bind; [apply spares_pure | intros ?]).
  apply spares_bind; [apply spares_path_exists | intros present].
  apply spares_bind; [| intros ?; apply spares_ret].
  destruct (truthy _ && negb present); [|apply spares_ret].
  apply spares_bind.
  - unfold requests_get_value. destruct a2; try apply spares_throw. apply spares_requests_get.
  - intros [status content]. destruct (negb (error_status status)); [|apply spares_ret].
    apply spares_write_text. exact H3.
Qed.

Lemma ends_differ (a b c : string) :
  rev (Text.chars b) ++ rev (Text.chars a) <> rev (Text.chars c) -> a +:+ b <> c.
Proof.
  intros H E. apply H. rewrite <- E.
  unfold Text.chars. clear. induction a as [|x a IH]; simpl.
  - rewrite app_nil_r. reflexivity.
  - rewrite <- IH, app_assoc. reflexivity.
Qed.

Lemma sprite_path_no_document d :
  ENCOUNTER_LOG <> sprite_path d /\ HISTORY_FILE <> sprite_path d.
Proof.
  unfold ENCOUNTER_LOG, HISTORY_FILE, sprite_path, CACHE_DIR.
  destruct (random53 d <? SHINY_THRESHOLD); split; intros E;
    apply (inj (String.app "pokesprites/")) in E; symmetry in E; revert E;
    apply ends_differ; vm_compute; discriminate.
Qed.

Lemma documents_are_no_cache_files d p :
  p = ENCOUNTER_LOG \/ p = HISTORY_FILE ->
  p <> profile_path d /\ p <> species_path d /\ p <> sprite_path d.
Proof.
  destruct (sprite_path_no_document d) as [He Hh].
  intros [-> | ->]; (split; [|split]); try assumption;
    unfold ENCOUNTER_LOG, HISTORY_FILE, profile_path, species_path, CACHE_DIR; simpl; discriminate.
Qed.

Lemma run_spares d p :
  p <> profile_path d -> p <> species_path d -> p <> sprite_path d ->
  spares (stored p) (run d).
Proof.
  intros H1 H2 H3. unfold run. apply spares_try_except; [|intros e; apply spares_ret].
  apply spares_bind; [apply get_pokemon_spares; assumption | intros c; apply spares_ret].
Qed.

(** A generation, whether it emits a card or an error, never writes the
    ledger document or the shiny-history document: the cache files it
    writes cannot bear their names, for any id. *)
Theorem generation_spares_documents (d : draws) (w : world) :
  files (snd (run d w)) !! ENCOUNTER_LOG = files w !! ENCOUNTER_LOG /\
  files (snd (run d w)) !! HISTORY_FILE = files w !! HISTORY_FILE.
Proof.
  split.
  - destruct (documents_are_no_cache_files d ENCOUNTER_LOG) as (H1 & H2 & H3); [left; reflexivity|].
    apply (run_spares d ENCOUNTER_LOG H1 H2 H3 w).
  - destruct (documents_are_no_cache_files d HISTORY_FILE) as (H1 & H2 & H3); [right; reflexivity|].
    apply (run_spares d HISTORY_FILE H1 H2 H3 w).
Qed.

(** ** A generation that fails *)

(** When [get_pokemon] raises, [fetch_card] ends in [show_error]: it
    returns, the flavor label reads [Error:] and the message of the
    exception, and nothing else of the widget changes; the card shown
    before, the ledger, the history and the grid stay, and so do the two
    documents on disk. *)
Theorem failed_generation_shows_error
    (d : draws) (now now' : Z) (v : PokedexViewer) (w : world) (e : exn) :
  fst (get_pokemon d w) = Raise e ->
  fst (fetch_card d now now' (v, w)) = Ok tt /\
  fst (snd (fetch_card d now now' (v, w))) = with_flavor_lbl ("Error: " +:+ exn_str e) v /\
  files (snd (snd (fetch_card d now now' (v, w)))) !! ENCOUNTER_LOG = files w !! ENCOUNTER_LOG /\
  files (snd (snd (fetch_card d now now' (v, w)))) !! HISTORY_FILE = files w !! HISTORY_FILE.
Proof.
  intros Hraise.
  pose proof (run_signal d w) as Hsig. rewrite Hraise in Hsig.
  destruct (documents_are_no_cache_files d ENCOUNTER_LOG) as (H1 & H2 & H3); [left; reflexivity|].
  destruct (documents_are_no_cache_files d HISTORY_FILE) as (H4 & H5 & H6); [right; reflexivity|].
  pose proof (run_spares d ENCOUNTER_LOG H1 H2 H3 w) as He.
  pose proof (run_spares d HISTORY_FILE H4 H5 H6 w) as Hh.
  unfold stored in He, Hh.
  unfold fetch_card, bind, call. simpl.
  destruct (run d w) as [r w']. simpl in *. subst r. simpl.
  repeat split; assumption.
Qed.

(** ** The grid *)

Lemma append_shiny_tooltip_ids pid entry : keeps grid_ids (_append_shiny_tooltip pid entry).
Proof.
  intros [v w]. unfold _append_shiny_tooltip, bind, self, pure, update, grid_ids. simpl.
  destruct (dex_cells v !! pid) as [c|] eqn:Hc; [|reflexivity].
  destruct (rbind _ _); simpl; [|reflexivity].
  destruct v; simpl in *. apply dom_insert_lookup_L. rewrite Hc. eauto.
Qed.

Lemma update_dex_cell_ids pid sprite_path name : keeps grid_ids (update_dex_cell pid sprite_path name).
Proof.
  intros [v w]. unfold update_dex_cell, bind, self, call, update, QPixmap, grid_ids. simpl.
  destruct (dex_cells v !! pid) as [c|] eqn:Hc; [|reflexivity]. simpl.
  destruct v; simpl in *. apply dom_insert_lookup_L. rewrite Hc. eauto.
Qed.

Lemma update_stats_ids : keeps grid_ids update_stats.
Proof. unfold update_stats. frame. Qed.

Lemma update_shiny_delay_ids now : keeps grid_ids (update_shiny_delay now).
Proof. unfold update_shiny_delay. frame. Qed.

Lemma replay_entry_ids entry : keeps grid_ids (replay_entry entry).
Proof.
  unfold replay_entry. apply keeps_bind; [apply keeps_pure | intros pid].
  apply append_shiny_tooltip_ids.
Qed.

(** Building the cell of [pid] adds [pid] to the grid, whether the loop
    body returns or raises. *)
Lemma build_dex_cell_ids pid s :
  grid_ids (fst (snd (build_dex_cell pid s))) = {[pid]} ∪ grid_ids (fst s).
Proof.
  destruct s as [v w].
  assert (forall c : method unit,
            keeps grid_ids c ->
            grid_ids (fst (snd (bind (update (fun v => with_dex_cells
                         (<[pid := Cell grey_placeholder "***" "No shiny encountered yet."]> (dex_cells v)) v))
                       (fun _ => c) (v, w)))) = {[pid]} ∪ grid_ids v) as H.
  { intros c Hc. unfold bind at 1. unfold update at 1. cbv beta. cbn [fst snd].
    rewrite Hc. destruct v; unfold grid_ids; simpl. apply dom_insert_L. }
  apply H. frame; apply keeps_update; intros v'; destruct v'; unfold grid_ids; simpl;
    apply dom_alter_L.
Qed.

Lemma build_dex_grid_ids l : forall s,
  fst (for_each l build_dex_cell s) = Ok tt ->
  grid_ids (fst (snd (for_each l build_dex_cell s))) = list_to_set l ∪ grid_ids (fst s).
Proof.
  induction l as [|pid l IH]; intros s; simpl.
  - intros _. rewrite ?list_to_set_nil. apply (eq_sym (union_empty_l_L _)).
  - unfold bind. pose proof (build_dex_cell_ids pid s) as Hc.
    destruct (build_dex_cell pid s) as [[[]|e] s1]; simpl in *; [|discriminate].
    intros Hok. rewrite (IH s1 Hok), Hc, ?list_to_set_cons.
    rewrite (comm_L (∪) {[pid]} (list_to_set l)), <- (assoc_L (∪)). reflexivity.
Qed.

Lemma ensures_weaken {S A} (P P' Q Q' : S -> Prop) (c : M S A) :
  ensures P' c Q' -> (forall s, P s -> P' s) -> (forall s, Q' s -> Q s) -> ensures P c Q.
Proof.
  intros H HP HQ s Hs. specialize (H s (HP s Hs)).
  destruct (c s) as [[a|e] s']; [apply HQ; exact H | exact I].
Qed.

Lemma build_dex_grid_ensures :
  ensures (fun s => grid_ids (fst s) = ∅) _build_dex_grid
          (fun s => grid_ids (fst s) = list_to_set (seqZ 1 MAX_ID)).
Proof.
  intros s Hs. unfold _build_dex_grid.
  pose proof (build_dex_grid_ids (seqZ 1 MAX_ID) s) as H.
  destruct (for_each (seqZ 1 MAX_ID) build_dex_cell s) as [[[]|e] s']; [|exact I].
  simpl in H. rewrite (H eq_refl), Hs. apply union_empty_r_L.
Qed.

Lemma init_grid now :
  ensures (fun s => grid_ids (fst s) = ∅) (__init__ now)
          (fun s => grid_ids (fst s) = list_to_set (seqZ 1 MAX_ID)).
Proof.
  unfold __init__.
  eapply ensures_bind; [apply ensures_keeps; frame | intros hist].
  eapply ensures_bind; [apply ensures_keeps; frame | intros ?].
  eapply ensures_bind; [apply ensures_keeps; frame | intros [[names ids] name_map]].
  eapply ensures_bind; [apply ensures_keeps; frame | intros ?].
  eapply ensures_bind; [apply ensures_keeps; frame | intros ?].
  eapply ensures_bind; [apply ensures_keeps; frame | intros ?].
  eapply ensures_bind; [apply build_dex_grid_ensures | intros ?].
  eapply ensures_bind; [apply ensures_keeps; frame | intros v].
  eapply ensures_bind; [apply ensures_keeps; frame | intros entries].
  eapply ensures_bind;
    [apply ensures_keeps; apply keeps_for_each; intros e _; apply replay_entry_ids | intros ?].
  eapply ensures_bind; [apply ensures_keeps; apply update_stats_ids | intros ?].
  apply ensures_keeps. apply update_shiny_delay_ids.
Qed.

(** Whatever the documents on disk hold, a start that succeeds leaves a
    grid with exactly one cell for each id from 1 to [MAX_ID]. *)
Theorem start_builds_whole_grid (now : Z) (w : world) (v : PokedexViewer) :
  fst (start now w) = Ok v -> whole_grid v.
Proof.
  unfold start. pose proof (init_grid now (blank, w)) as H.
  destruct (__init__ now (blank, w)) as [[[]|e] [v' w']]; simpl; [|discriminate].
  intros [= <-]. specialize (H eq_refl). cbn [fst] in H.
  intros p. unfold grid_ids in H.
  rewrite <- elem_of_dom, H, elem_of_list_to_set, elem_of_seqZ. unfold MAX_ID. lia.
Qed.

(** ** The statistics never fail on a widget in working order *)

Lemma dict_set_int_valued k n c : int_valued c -> int_valued (dict_set k (PInt n) c).
Proof.
  unfold int_valued. induction c as [|[k' x] r IH]; simpl; intros H.
  - constructor; [simpl; eauto | constructor].
  - inversion H as [|? ? Hx Hr]; subst.
    destruct (key_eqb k' k); constructor; simpl; eauto.
Qed.

Lemma count_all_returns l : forall acc,
  Forall is_str l -> int_valued acc ->
  exists c, count_all l acc = Ok c /\ int_valued c.
Proof.
  induction l as [|x r IH]; simpl; intros acc Hl Hacc; [eauto|].
  inversion Hl as [|? ? [s ->] Hr]; subst. simpl.
  apply IH; [exact Hr | apply dict_set_int_valued; exact Hacc].
Qed.

Lemma count_names_returns l : forall acc,
  Forall has_name l -> int_valued acc ->
  exists c, count_names l acc = Ok c /\ int_valued c.
Proof.
  induction l as [|x r IH]; simpl; intros acc Hl Hacc; [eauto|].
  inversion Hl as [|? ? [n Hn] Hr]; subst. rewrite Hn. simpl.
  apply IH; [exact Hr | apply dict_set_int_valued; exact Hacc].
Qed.

Lemma max_by_count_returns l : forall best,
  (exists n, snd best = PInt n) -> int_valued l ->
  exists b n, max_by_count best l = Ok b /\ snd b = PInt n.
Proof.
  induction l as [|it r IH]; simpl; intros best [n Hn] Hl; [eauto|].
  inversion Hl as [|? ? [m Hm] Hr]; subst. rewrite Hn, Hm. simpl.
  apply IH; [|exact Hr].
  match goal with |- context [if ?b then _ else _] => destruct b end; eauto.
Qed.

Lemma most_common_1_returns c :
  int_valued c ->
  most_common_1 c = Ok [] \/ exists k n, most_common_1 c = Ok [(k, PInt n)].
Proof.
  destruct c as [|it r]; simpl; intros Hc; [left; reflexivity|].
  inversion Hc as [|? ? Hit Hr]; subst.
  destruct (max_by_count_returns r it Hit Hr) as ([k x] & n & -> & Hx).
  simpl in Hx. subst x. right. eauto.
Qed.

(** On a widget in working order [update_stats] returns, and it changes
    the label of the statistics only. *)
Lemma update_stats_returns v w :
  sound v -> exists lbl, update_stats (v, w) = (Ok tt, (with_stats_lbl lbl v, w)).
Proof.
  intros ((names & Hn & Hstr) & _ & (hist & Hh & Hnamed)).
  destruct (count_all_returns names [] Hstr) as (c1 & Hc1e & Hc1); [constructor|].
  destruct (count_names_returns hist [] Hnamed) as (c2 & Hc2e & Hc2); [constructor|].
  unfold update_stats, bind, self, pure, update, ret, py_counter. cbn [fst snd].
  rewrite Hn, Hh. cbn [py_len py_iter rbind]. rewrite Hc1e, Hc2e. cbn [rbind].
  destruct (most_common_1_returns c1 Hc1) as [-> | (k1 & n1 & ->)];
    destruct (most_common_1_returns c2 Hc2) as [-> | (k2 & n2 & ->)];
    simpl; eauto.
Qed.

(** ** A session never fails on a widget in working order *)

Lemma returns_bind {S A B} (P : S -> Prop) (R : A -> S -> Prop) (Q : B -> S -> Prop)
    (c : M S A) (k : A -> M S B) :
  returns P c R -> (forall a, returns (R a) (k a) Q) -> returns P (bind c k) Q.
Proof.
  intros Hc Hk s HP. destruct (Hc s HP) as (a & s1 & E & HR).
  unfold bind. rewrite E. apply (Hk a s1 HR).
Qed.

Lemma returns_update G (f : PokedexViewer -> PokedexViewer) :
  (forall v, sound v -> sound (f v)) -> (forall v, grid_ids (f v) = grid_ids v) ->
  returns (in_order G) (update f) (fun _ => in_order G).
Proof.
  intros Hs Hg [v w] [Hv HG]. exists tt, (f v, w). split; [reflexivity|].
  split; simpl; [apply Hs; exact Hv | rewrite Hg; exact HG].
Qed.

(** The updates of the labels and of the window. *)
Ltac label_update :=
  apply returns_update; [intros [] H; exact H | intros []; reflexivity].

Lemma sound_keeps {A} (c : method A) s :
  keeps ledger c -> keeps shiny_history c -> sound (fst s) -> sound (fst (snd (c s))).
Proof.
  intros Hl Hh. specialize (Hl s). specialize (Hh s). unfold ledger in Hl.
  unfold sound. injection Hl as -> _ ->. rewrite Hh. tauto.
Qed.

Lemma log_encounter_returns G pid name :
  returns (in_order G) (log_encounter pid name) (fun _ => in_order G).
Proof.
  intros [v w] [Hv HG]. simpl in Hv, HG.
  destruct Hv as ((names & Hn & Hstr) & (name_map & Hm) & (hist & Hh & Hnamed)).
  destruct (log_encounter_ledger pid name v w names name_map Hn Hm) as [Hok Hl].
  assert (keeps shiny_history (log_encounter pid name)) as Kh by (unfold log_encounter; frame).
  assert (keeps grid_ids (log_encounter pid name)) as Kg by (unfold log_encounter; frame).
  specialize (Kh (v, w)). specialize (Kg (v, w)).
  destruct (log_encounter pid name (v, w)) as [[[]|e] [v1 w1]]; simpl in *; [|discriminate].
  exists tt, (v1, w1). split; [reflexivity|]. unfold ledger in Hl. injection Hl as Hn1 _ Hm1.
  split; simpl; [|congruence].
  split; [|split].
  - exists (names ++ [PStr name]). split; [exact Hn1|].
    apply Forall_app. split; [exact Hstr|]. constructor; [eexists; reflexivity | constructor].
  - eauto.
  - exists hist. split; [congruence | exact Hnamed].
Qed.

Lemma QPixmap_returns G path :
  returns (in_order G) (call (QPixmap path)) (fun _ => in_order G).
Proof. intros [v w] H. unfold call, QPixmap. simpl. eauto. Qed.

Lemma update_stats_in_order G : returns (in_order G) update_stats (fun _ => in_order G).
Proof.
  intros [v w] [Hv HG]. destruct (update_stats_returns v w Hv) as [lbl ->].
  exists tt, (with_stats_lbl lbl v, w). split; [reflexivity|].
  destruct v; exact (conj Hv HG).
Qed.

Lemma update_shiny_delay_in_order G now :
  returns (in_order G) (update_shiny_delay now) (fun _ => in_order G).
Proof.
  intros [v w] [Hv HG]. rewrite update_shiny_delay_label.
  eexists tt, _. split; [reflexivity|]. destruct v; exact (conj Hv HG).
Qed.

Lemma update_dex_cell_in_order G pid sprite_path name :
  pid ∈ G -> returns (in_order G) (update_dex_cell pid sprite_path name) (fun _ => in_order G).
Proof.
  intros Hp [v w] [Hv HG]. simpl in Hv, HG.
  pose proof (update_dex_cell_ids pid sprite_path name (v, w)) as Hids.
  assert (keeps ledger (update_dex_cell pid sprite_path name)) as Kl
    by (unfold update_dex_cell; frame).
  assert (keeps shiny_history (update_dex_cell pid sprite_path name)) as Kh
    by (unfold update_dex_cell; frame).
  pose proof (sound_keeps _ (v, w) Kl Kh Hv) as Hs.
  assert (is_Some (dex_cells v !! pid)) as [c Hc]
    by (apply elem_of_dom; unfold grid_ids in HG; rewrite HG; exact Hp).
  revert Hids Hs. unfold update_dex_cell, bind, self, call, QPixmap, update. simpl.
  rewrite Hc. simpl. intros Hids Hs. eexists tt, _. split; [reflexivity|].
  split; [exact Hs | simpl in *; congruence].
Qed.

Lemma append_shiny_tooltip_in_order G pid entry t d :
  py_getitem entry (PStr "time") = Ok t -> py_getitem entry (PStr "date") = Ok d ->
  returns (in_order G) (_append_shiny_tooltip pid entry) (fun _ => in_order G).
Proof.
  intros Ht Hd [v w] [Hv HG]. simpl in Hv, HG.
  pose proof (append_shiny_tooltip_ids pid entry (v, w)) as Hids.
  assert (keeps ledger (_append_shiny_tooltip pid entry)) as Kl
    by (unfold _append_shiny_tooltip; frame).
  assert (keeps shiny_history (_append_shiny_tooltip pid entry)) as Kh
    by (unfold _append_shiny_tooltip; frame).
  pose proof (sound_keeps _ (v, w) Kl Kh Hv) as Hs.
  revert Hids Hs. unfold _append_shiny_tooltip, bind, self, pure, update. simpl.
  rewrite Ht, Hd. simpl.
  destruct (dex_cells v !! pid) as [c|]; simpl; intros Hids Hs;
    eexists tt, _; (split; [reflexivity|]); (split; [exact Hs | simpl in *; congruence]).
Qed.

Lemma save_shiny_history_in_order G hist :
  returns (in_order G) (call (save_shiny_history hist)) (fun _ => in_order G).
Proof.
  intros [v w] H. unfold call. simpl.
  pose proof (save_shiny_history_returns hist w) as Hs.
  destruct (save_shiny_history hist w) as [r w']. simpl in Hs. subst r.
  exists tt, (v, w'). split; [reflexivity | exact H].
Qed.

(** The branch of a shiny encounter: it returns, with the entry of the
    encounter added to the history. *)
Lemma log_shiny_in_order G c now now' :
  returns (in_order G)
          (log_shiny (card_pid c) (card_dex c) (card_name c) now now')
          (fun _ => in_order G).
Proof.
  unfold log_shiny.
  eapply returns_bind; [label_update | intros ?].
  eapply returns_bind; [label_update | intros ?].
  eapply returns_bind; [label_update | intros ?].
  eapply returns_bind with (R := fun _ => in_order G);
    [intros s H; exists (snd s), s; split; [reflexivity | exact H] | intros w0].
  intros [v w] [Hv HG].
  destruct Hv as (Hnames & Hmap & (hist & Hh & Hnamed)).
  unfold bind at 1. unfold self at 1. cbn [fst snd]. simpl in Hh. rewrite Hh. simpl py_append.
  rewrite bind_pure.
  match goal with |- exists a s', ?k (v, w) = _ /\ _ =>
    assert (returns (in_order G) k (fun _ => in_order G)) as Hrest end.
  {
    eapply returns_bind with (R := fun _ => in_order G).
    - apply returns_update; [|intros []; reflexivity].
      intros v0 (Hn0 & Hm0 & _). destruct v0; simpl in *.
      split; [exact Hn0|]. split; [exact Hm0|].
      eexists. split; [reflexivity|]. apply Forall_app. split; [exact Hnamed|].
      constructor; [|constructor]. eexists. reflexivity.
    - intros ?.
      eapply returns_bind; [apply save_shiny_history_in_order | intros ?].
      eapply returns_bind; [label_update | intros ?].
      eapply returns_bind; [apply update_shiny_delay_in_order | intros ?].
      eapply append_shiny_tooltip_in_order; reflexivity. }
  apply Hrest. split; [|exact HG]. simpl. split; [exact Hnames|]. split; [exact Hmap|]. eauto.
Qed.

Lemma apply_card_in_order G c now now' :
  card_pid c ∈ G -> returns (in_order G) (apply_card c now now') (fun _ => in_order G).
Proof.
  intros Hp.
  pose proof (log_shiny_in_order G c now now') as Hshiny.
  destruct c as [pid dex name types flavor sprite_path shiny]. simpl in Hp, Hshiny.
  unfold apply_card.
  eapply returns_bind; [apply log_encounter_returns | intros ?].
  eapply returns_bind; [apply QPixmap_returns | intros pix].
  eapply returns_bind; [label_update | intros ?].
  eapply returns_bind; [label_update | intros ?].
  eapply returns_bind; [label_update | intros ?].
  eapply returns_bind; [label_update | intros ?].
  eapply returns_bind with (R := fun _ => in_order G).
  - destruct shiny; [exact Hshiny|].
    eapply returns_bind; [label_update | intros ?].
    eapply returns_bind; [label_update | intros ?].
    label_update.
  - intros ?.
    eapply returns_bind; [apply update_dex_cell_in_order; exact Hp | intros ?].
    apply update_stats_in_order.
Qed.

(** On a widget in working order, every encounter with an id of the grid
    is applied without an exception, whatever the disk does, and leaves the
    widget in working order with the same grid: a session of any length
    never fails in [apply_card]. *)
Theorem session_never_raises
    (calls : list delivery) (G : gset Z) (v : PokedexViewer) (w : world) :
  sound v -> grid_ids v = G ->
  (forall d, d ∈ calls -> card_pid (card_of d) ∈ G) ->
  all_return calls (v, w) /\
  sound (fst (apply_cards calls (v, w))) /\
  grid_ids (fst (apply_cards calls (v, w))) = G.
Proof.
  revert v w. induction calls as [|[[c now] now'] rest IH]; intros v w Hv HG Hin.
  - simpl. auto.
  - assert (card_pid c ∈ G) as Hc by (apply (Hin (c, now, now')); left).
    destruct (apply_card_in_order G c now now' Hc (v, w) (conj Hv HG)) as ([] & [v1 w1] & E & Hv1 & HG1).
    simpl. rewrite E. simpl.
    destruct (IH v1 w1 Hv1 HG1) as (Hall & Hs & Hg).
    { intros d Hd. apply Hin. right. exact Hd. }
    auto.
Qed.

(** ** The first run *)

Lemma build_dex_cell_unseen pid v w :
  encounter_ids v = [] ->
  build_dex_cell pid (v, w) = (Ok tt, (with_dex_cells (<[pid := unseen_cell]> (dex_cells v)) v, w)).
Proof.
  intros H. destruct v. simpl in H. subst.
  unfold build_dex_cell, bind, update, self, ret. reflexivity.
Qed.

Lemma build_fresh_grid l : forall v w,
  encounter_ids v = [] ->
  for_each l build_dex_cell (v, w)
  = (Ok tt, (with_dex_cells (fresh_cells l (dex_cells v)) v, w)).
Proof.
  induction l as [|p l IH]; intros v w H; simpl.
  - destruct v; reflexivity.
  - unfold bind. rewrite (build_dex_cell_unseen p v w H).
    rewrite IH by (destruct v; exact H). destruct v; reflexivity.
Qed.

Lemma fresh_cells_lookup l : forall m p,
  fresh_cells l m !! p = if bool_decide (p ∈ l) then Some unseen_cell else m !! p.
Proof.
  induction l as [|q l IH]; intros m p; simpl.
  - reflexivity.
  - unfold fresh_cells in *. simpl. rewrite IH.
    destruct (bool_decide (p ∈ l)) eqn:Hl.
    + apply bool_decide_eq_true in Hl. rewrite bool_decide_eq_true_2 by (right; exact Hl). reflexivity.
    + apply bool_decide_eq_false in Hl. destruct (decide (p = q)) as [->|Hne].
      * rewrite bool_decide_eq_true_2 by left. apply lookup_insert_eq.
      * rewrite bool_decide_eq_false_2 by (intros Hin; apply elem_of_cons in Hin; tauto).
        apply lookup_insert_ne. congruence.
Qed.

Lemma load_shiny_history_unreadable w :
  unreadable HISTORY_FILE w -> load_shiny_history w = (Ok (PList []), w).
Proof.
  unfold unreadable, load_shiny_history, try_except, bind, read_text, pure, ret.
  destruct (files w !! HISTORY_FILE) as [t|]; simpl; [|reflexivity].
  intros [e ->]. reflexivity.
Qed.

Lemma load_encounter_data_unreadable w :
  unreadable ENCOUNTER_LOG w -> load_encounter_data w = (Ok empty_ledger, w).
Proof.
  unfold unreadable, load_encounter_data, try_except, bind, read_text, pure, ret.
  destruct (files w !! ENCOUNTER_LOG) as [t|]; simpl; [|reflexivity].
  intros [e ->]. reflexivity.
Qed.

(** The first run, or a run on documents that cannot be read: the program
    starts without an exception and without touching the world; the ledger
    and the history are empty, the grid has its [MAX_ID] cells, each a grey
    placeholder named [***] with the tooltip of no shiny, and the labels
    count no encounter and no shiny. *)
Theorem first_run (now : Z) (w : world) :
  unreadable ENCOUNTER_LOG w -> unreadable HISTORY_FILE w ->
  exists v,
    start now w = (Ok v, w) /\
    ledger v = empty_ledger /\ shiny_history v = PList [] /\ last_shiny_time v = None /\
    (forall p, dex_cells v !! p = if bool_decide (1 <= p <= MAX_ID) then Some unseen_cell else None) /\
    stats_lbl v = "🎯 Encounters: 0" /\ since_lbl v = no_shiny_label.
Proof.
  intros Hl Hh. unfold start, __init__.
  unfold bind at 1. unfold call at 1. cbn [fst snd]. rewrite (load_shiny_history_unreadable w Hh).
  unfold bind at 1. unfold update at 1. cbn [fst snd].
  unfold bind at 1. unfold call at 1. cbn [fst snd]. rewrite (load_encounter_data_unreadable w Hl).
  unfold empty_ledger.
  unfold bind at 1. unfold update at 1. cbn [fst snd].
  unfold bind at 1. unfold update at 1. cbn [fst snd].
  unfold bind at 1. unfold update at 1. cbn [fst snd].
  unfold bind at 1. unfold _build_dex_grid. rewrite build_fresh_grid by reflexivity.
  unfold bind, self, pure, update, update_stats, update_shiny_delay, ret. cbn -[fresh_cells seqZ].
  eexists. split; [reflexivity|]. cbn -[fresh_cells seqZ].
  repeat (split; [reflexivity|]). split; [|split; reflexivity].
  intros p. rewrite fresh_cells_lookup, lookup_empty.
  destruct (bool_decide (1 <= p <= MAX_ID)) eqn:Hp.
  - apply bool_decide_eq_true in Hp. rewrite bool_decide_eq_true_2; [reflexivity|].
    apply elem_of_seqZ. unfold MAX_ID in *. lia.
  - apply bool_decide_eq_false in Hp. rewrite bool_decide_eq_false_2; [reflexivity|].
    rewrite elem_of_seqZ. unfold MAX_ID in *. lia.
Qed.

(** ** A history document of another shape *)

Lemma raises_bind_first {S A B} (P : S -> Prop) (c : M S A) (k : A -> M S B) :
  raises_from P c -> raises_from P (bind c k).
Proof.
  intros Hc s HP. destruct (Hc s HP) as [e He]. unfold bind.
  destruct (c s) as [[a|e'] s']; simpl in *; [discriminate | eauto].
Qed.

Lemma raises_bind_next {S A B} (P Q : S -> Prop) (c : M S A) (k : A -> M S B) :
  ensures P c Q -> (forall a, raises_from Q (k a)) -> raises_from P (bind c k).
Proof.
  intros Hc Hk s HP. specialize (Hc s HP). unfold bind.
  destruct (c s) as [[a|e'] s']; simpl in *; [apply Hk; exact Hc | eauto].
Qed.

Lemma raises_for_each {S A} (l : list A) (body : A -> M S unit) (x : A) :
  x ∈ l -> raises_from (fun _ => True) (body x) -> raises_from (fun _ => True) (for_each l body).
Proof.
  intros Hin Hx. induction l as [|y l IH]; [inversion Hin|].
  simpl. apply elem_of_cons in Hin. destruct Hin as [<- | Hin].
  - apply raises_bind_first. exact Hx.
  - apply raises_bind_next with (Q := fun _ => True); [|intros _; apply IH; exact Hin].
    intros s _. destruct (body y s) as [[a|e] s']; exact I.
Qed.

Lemma replay_entry_raises entry x :
  replayed_id entry = Raise x -> raises_from (fun _ => True) (replay_entry entry).
Proof.
  intros H s _. unfold replay_entry, bind, pure. unfold replayed_id, rbind in H.
  unfold rbind. rewrite H. simpl. eauto.
Qed.

(** The loader accepts any JSON value as the history, and the constructor
    replays it outside any [try]. When the document is JSON but cannot be
    iterated, or holds an item from which [int(entry["dex"][1:])] cannot be
    read, the program does not start: [__init__] raises. *)
Theorem start_fails_on_misshapen_history (now : Z) (w : world) (t : string) (h : pyval) :
  files w !! HISTORY_FILE = Some t -> Json.loads t = Ok h ->
  (forall entries, py_iter h = Ok entries ->
     exists entry x, entry ∈ entries /\ replayed_id entry = Raise x) ->
  exists e, fst (start now w) = Raise e.
Proof.
  intros Hf Hl Hbad.
  assert (load_shiny_history w = (Ok h, w)) as Hload.
  { unfold load_shiny_history, try_except, bind, read_text, pure. rewrite Hf. simpl.
    rewrite Hl. reflexivity. }
  assert (exists e, fst (__init__ now (blank, w)) = Raise e) as [e He].
  { unfold __init__.
    unfold bind at 1. unfold call at 1. cbn [fst snd]. rewrite Hload.
    unfold bind at 1. unfold update at 1. cbn [fst snd].
    match goal with |- exists e, fst (?rest ?s0) = _ =>
      assert (raises_from (fun s => shiny_history (fst s) = h) rest) as Hr end.
    { eapply raises_bind_next; [apply ensures_keeps; frame | intros [[names ids] name_map]].
      eapply raises_bind_next; [apply ensures_keeps; frame | intros ?].
      eapply raises_bind_next; [apply ensures_keeps; frame | intros ?].
      eapply raises_bind_next; [apply ensures_keeps; frame | intros ?].
      eapply raises_bind_next;
        [apply ensures_keeps; unfold _build_dex_grid; apply keeps_for_each; intros pid _;
         unfold build_dex_cell; frame | intros ?].
      intros [v1 w1] Hh. simpl in Hh.
      unfold bind at 1. unfold self at 1. cbn [fst snd]. rewrite Hh.
      rewrite bind_pure.
      destruct (py_iter h) as [entries|x] eqn:Hit; [|eauto].
      destruct (Hbad entries eq_refl) as (entry & x & Hin & Hx).
      apply raises_bind_first with (P := fun _ => True); [|exact I].
      apply (raises_for_each entries replay_entry entry Hin).
      apply (replay_entry_raises entry x Hx). }
    apply Hr. reflexivity. }
  exists e. unfold start. destruct (__init__ now (blank, w)) as [[a|e'] [v' w']]; simpl in *;
    [discriminate | congruence].
Qed.

(** ** What a method leaves of the world *)

Section WorldFrame.
Context {T : Type} (part : world -> T).

Lemma world_keeps_ret {A} (a : A) : world_keeps part (ret a).
Proof. intros s. reflexivity. Qed.

Lemma world_keeps_throw {A} (e : exn) : world_keeps part (@throw _ A e).
Proof. intros s. reflexivity. Qed.

Lemma world_keeps_pure {A} (r : result A) : world_keeps part (pure r).
Proof. intros s. reflexivity. Qed.

Lemma world_keeps_self : world_keeps part self.
Proof. intros s. reflexivity. Qed.

Lemma world_keeps_the_world : world_keeps part the_world.
Proof. intros s. reflexivity. Qed.

Lemma world_keeps_update (f : PokedexViewer -> PokedexViewer) : world_keeps part (update f).
Proof. intros s. reflexivity. Qed.

Lemma world_keeps_call {A} (c : M world A) : spares part c -> world_keeps part (call c).
Proof. intros Hc [v w]. unfold call. simpl. specialize (Hc w). destruct (c w). exact Hc. Qed.

Lemma world_keeps_bind {A B} (c : method A) (k : A -> method B) :
  world_keeps part c -> (forall a, world_keeps part (k a)) -> world_keeps part (bind c k).
Proof.
  intros Hc Hk s. unfold bind. specialize (Hc s).
  destruct (c s) as [[a|e] s']; simpl in *; [rewrite Hk|]; exact Hc.
Qed.

Lemma world_keeps_for_each {A} (l : list A) (body : A -> method unit) :
  (forall a, world_keeps part (body a)) -> world_keeps part (for_each l body).
Proof.
  intros Hb. induction l as [|x r IH]; simpl.
  - apply world_keeps_ret.
  - apply world_keeps_bind; [apply Hb | intros _; exact IH].
Qed.

Lemma spares_QPixmap path : spares part (QPixmap path).
Proof. intros w. reflexivity. Qed.

End WorldFrame.

(** Goals [world_keeps part c], by the shape of [c]; what is left is about
    the module-level functions [c] calls. *)
Ltac world_frame :=
  repeat first
    [ apply world_keeps_ret | apply world_keeps_throw | apply world_keeps_pure
    | apply world_keeps_self | apply world_keeps_the_world | apply world_keeps_update
    | apply world_keeps_call
    | apply world_keeps_for_each; intros ?
    | apply world_keeps_bind; [| intros ?]
    | apply spares_QPixmap
    | apply spares_path_exists
    | match goal with
      | |- world_keeps _ (match ?x with _ => _ end) => destruct x
      | |- world_keeps _ (if ?x then _ else _) => destruct x
      end ].

(** A write keeps the locale. *)
Lemma spares_am_pm_write_text path data : spares am_pm (write_text path data).
Proof.
  intros w. unfold write_text. destruct w as [fl rm rq fs im ap]; simpl.
  destruct fs as [|[[|n]|] rest]; reflexivity.
Qed.

Lemma spares_am_pm_save_encounter_data names ids name_map :
  spares am_pm (save_encounter_data names ids name_map).
Proof.
  unfold save_encounter_data. apply spares_try_except; [|intros e; apply spares_ret].
  apply spares_bind; [apply spares_pure | intros doc; apply spares_am_pm_write_text].
Qed.

Lemma spares_am_pm_save_shiny_history hist : spares am_pm (save_shiny_history hist).
Proof.
  unfold save_shiny_history. apply spares_try_except; [|intros e; apply spares_ret].
  apply spares_bind; [apply spares_pure | intros doc; apply spares_am_pm_write_text].
Qed.

Lemma apply_card_am_pm c now now' : world_keeps am_pm (apply_card c now now').
Proof.
  destruct c as [pid dex name types flavor sprite_path shiny].
  unfold apply_card, log_encounter, log_shiny, update_dex_cell, update_stats,
    update_shiny_delay, _append_shiny_tooltip.
  world_frame;
    first [apply spares_am_pm_save_encounter_data | apply spares_am_pm_save_shiny_history].
Qed.

(** ** The history of a session *)

Lemma log_encounter_am_pm pid name : world_keeps am_pm (log_encounter pid name).
Proof. unfold log_encounter. world_frame. apply spares_am_pm_save_encounter_data. Qed.

Lemma log_shiny_history c now now' v w hist :
  shiny_history v = PList hist ->
  shiny_history (fst (snd (log_shiny (card_pid c) (card_dex c) (card_name c) now now' (v, w))))
  = PList (hist ++ [shiny_entry (am_pm w) c now]).
Proof.
  intros Hh. destruct v. simpl in Hh. subst.
  unfold log_shiny.
  do 7 (unfold bind at 1; simpl).
  unfold bind at 1. unfold call at 1. simpl.
  match goal with |- context [save_shiny_history ?h ?w0] =>
    pose proof (save_shiny_history_returns h w0) as Hs;
    destruct (save_shiny_history h w0) as [r w'] end.
  simpl in Hs. subst r. simpl.
  unfold bind at 1. simpl.
  rewrite bind_keeps_tail by (intros ?; unfold _append_shiny_tooltip; frame).
  rewrite update_shiny_delay_label. reflexivity.
Qed.

(** One encounter on a well-shaped widget adds its entry to the history
    when it is shiny, and leaves the history alone otherwise. *)
Lemma apply_card_history c now now' v w names name_map hist :
  encounters v = PList names -> id_to_name v = PDict name_map ->
  shiny_history v = PList hist ->
  shiny_history (fst (snd (apply_card c now now' (v, w))))
  = PList (hist ++ shiny_entries (am_pm w) [(c, now, now')]).
Proof.
  intros Hn Hm Hh.
  pose proof (log_shiny_history c now now') as Hshiny.
  destruct c as [pid dex name types flavor sprite_path shiny]. simpl in Hshiny.
  destruct (log_encounter_ledger pid name v w names name_map Hn Hm) as [Hok _].
  assert (shiny_history (fst (snd (log_encounter pid name (v, w)))) = shiny_history v) as Hkeep.
  { assert (keeps shiny_history (log_encounter pid name)) as K by (unfold log_encounter; frame).
    apply (K (v, w)). }
  pose proof (log_encounter_am_pm pid name (v, w)) as Hap.
  unfold apply_card. unfold bind at 1.
  destruct (log_encounter pid name (v, w)) as [[[]|e] [v1 w1]]; simpl in Hok, Hkeep, Hap; [|discriminate].
  unfold bind at 1. unfold call at 1, QPixmap at 1. simpl.
  do 4 (unfold bind at 1; simpl).
  rewrite bind_keeps_tail
    by (intros ?; apply keeps_bind; [unfold update_dex_cell | intros ?; unfold update_stats]; frame).
  destruct shiny; simpl.
  - rewrite <- Hap. apply Hshiny. destruct v1; simpl in *. congruence.
  - rewrite app_nil_r. destruct v1; simpl in *. congruence.
Qed.

Lemma shiny_entries_app ampm a b :
  shiny_entries ampm (a ++ b) = shiny_entries ampm a ++ shiny_entries ampm b.
Proof. unfold shiny_entries. apply flat_map_app. Qed.

Lemma apply_cards_history calls : forall v w hist,
  well_shaped v -> shiny_history v = PList hist ->
  shiny_history (fst (apply_cards calls (v, w))) = PList (hist ++ shiny_entries (am_pm w) calls).
Proof.
  induction calls as [|[[c now] now'] rest IH]; intros v w hist Hw Hh.
  - simpl. rewrite app_nil_r. exact Hh.
  - destruct Hw as ((names & Hn) & (name_map & Hm) & _).
    pose proof (apply_card_history c now now' v w names name_map hist Hn Hm Hh) as H1.
    pose proof (apply_card_ledger c now now' v w names name_map Hn Hm) as Hl.
    pose proof (apply_card_am_pm c now now' (v, w)) as Hap.
    simpl apply_cards.
    destruct (apply_card c now now' (v, w)) as [r [v1 w1]]. simpl in H1, Hl, Hap.
    unfold ledger in Hl. injection Hl as Hn1 _ Hm1. cbn [snd].
    rewrite (IH v1 w1 _ (conj (ex_intro _ _ Hn1) (conj (ex_intro _ _ Hm1) (ex_intro _ _ H1))) H1).
    rewrite Hap, <- app_assoc.
    change ((c, now, now') :: rest) with ([(c, now, now')] ++ rest).
    rewrite shiny_entries_app. reflexivity.
Qed.

(** Over a session the history grows by one entry for each shiny card, in
    the order of the encounters, each entry holding the dex label and the
    name of its card and the time and the date of its clock; no other card
    adds or changes an entry. *)
Theorem shiny_history_after_encounters
    (calls : list delivery) (v : PokedexViewer) (w : world) (hist : list pyval) :
  well_shaped v -> shiny_history v = PList hist ->
  shiny_history (fst (apply_cards calls (v, w)))
    = PList (hist ++ shiny_entries (am_pm w) calls) /\
  length (shiny_entries (am_pm w) calls)
    = length (List.filter (fun d => card_shiny (card_of d)) calls).
Proof.
  intros Hw Hh. split.
  - apply apply_cards_history; assumption.
  - induction calls as [|[[c now] now'] rest IH]; [reflexivity|].
    simpl. unfold card_of at 1. simpl. destruct (card_shiny c); simpl; rewrite IH; reflexivity.
Qed.

(** ** Memory and disk *)

Lemma write_text_clean path doc w :
  faults w = [] ->
  exists w', write_text path doc w = (Ok tt, w') /\ faults w' = [] /\
             files w' = <[path := doc]> (files w).
Proof.
  intros Hf. unfold write_text. rewrite Hf. destruct w; simpl in *. eauto.
Qed.

Lemma save_clean path (doc : result string) w :
  faults w = [] ->
  let save := try_except (let! d := pure doc in write_text path d) (fun _ => ret tt) in
  faults (snd (save w)) = [] /\
  (forall text, doc = Ok text -> files (snd (save w)) !! path = Some text) /\
  (forall p, p <> path -> files (snd (save w)) !! p = files w !! p).
Proof.
  intros Hf. unfold try_except, bind, pure, ret. destruct doc as [text|e]; simpl.
  - destruct (write_text_clean path text w Hf) as (w' & -> & Hf' & Hfiles). simpl.
    rewrite Hfiles. split; [exact Hf'|]. split.
    + intros t [= <-]. apply lookup_insert_eq.
    + intros p Hp. apply lookup_insert_ne. congruence.
  - split; [exact Hf|]. split; [discriminate | reflexivity].
Qed.

Lemma documents_differ : HISTORY_FILE <> ENCOUNTER_LOG.
Proof. unfold HISTORY_FILE, ENCOUNTER_LOG, CACHE_DIR. simpl. discriminate. Qed.

Lemma calm_keeps {A} (c : method A) : world_keeps faults c -> calm c.
Proof. intros H s Hs. rewrite H. exact Hs. Qed.

Lemma calm_bind {A B} (c : method A) (k : A -> method B) :
  calm c -> (forall a, calm (k a)) -> calm (bind c k).
Proof.
  intros Hc Hk s Hs. unfold bind. specialize (Hc s Hs).
  destruct (c s) as [[a|e] s']; simpl in *; [apply Hk|]; exact Hc.
Qed.

Lemma calm_save_encounter_data names ids name_map :
  calm (call (save_encounter_data names ids name_map)).
Proof.
  intros [v w] Hs. simpl in Hs. unfold call. simpl.
  pose proof (save_clean ENCOUNTER_LOG (ledger_document names ids name_map) w Hs) as [H _].
  unfold save_encounter_data, ledger_document in *.
  destruct (try_except _ _ w). exact H.
Qed.

Lemma calm_save_shiny_history hist : calm (call (save_shiny_history hist)).
Proof.
  intros [v w] Hs. simpl in Hs. unfold call. simpl.
  pose proof (save_clean HISTORY_FILE (Json.dumps hist) w Hs) as [H _].
  unfold save_shiny_history in *.
  destruct (try_except _ _ w). exact H.
Qed.

(** Goals [calm c], by the shape of [c]. *)
Ltac calm_frame :=
  repeat first
    [ apply calm_save_encounter_data | apply calm_save_shiny_history
    | apply calm_bind; [| intros ?]
    | match goal with
      | |- calm (match ?x with _ => _ end) => destruct x
      | |- calm (if ?x then _ else _) => destruct x
      end
    | apply calm_keeps; world_frame ].

Lemma apply_card_calm c now now' : calm (apply_card c now now').
Proof.
  destruct c as [pid dex name types flavor sprite_path shiny].
  unfold apply_card, log_encounter, log_shiny, update_dex_cell, update_stats,
    update_shiny_delay, _append_shiny_tooltip.
  calm_frame.
Qed.

Lemma returns_then_always {S A B} (P R Q : S -> Prop) (c : M S A) (k : A -> M S B) :
  returns P c (fun _ => R) -> (forall a, always R (k a) Q) -> always P (bind c k) Q.
Proof.
  intros Hc Hk s HP. destruct (Hc s HP) as (a & s1 & E & HR).
  unfold bind. rewrite E. apply (Hk a s1 HR).
Qed.

Lemma always_then_keep {S A B} (P Q : S -> Prop) (c : M S A) (k : A -> M S B) :
  always P c Q -> (forall a, always Q (k a) Q) -> always P (bind c k) Q.
Proof.
  intros Hc Hk s HP. specialize (Hc s HP). unfold bind.
  destruct (c s) as [[a|e] s1]; simpl in *; [apply Hk|]; exact Hc.
Qed.

Lemma spares_save_shiny_history p hist :
  p <> HISTORY_FILE -> spares (stored p) (save_shiny_history hist).
Proof.
  intros Hp. unfold save_shiny_history. apply spares_try_except; [|intros e; apply spares_ret].
  apply spares_bind; [apply spares_pure | intros doc; apply spares_write_text; exact Hp].
Qed.

Lemma spares_save_encounter_data p names ids name_map :
  p <> ENCOUNTER_LOG -> spares (stored p) (save_encounter_data names ids name_map).
Proof.
  intros Hp. unfold save_encounter_data. apply spares_try_except; [|intros e; apply spares_ret].
  apply spares_bind; [apply spares_pure | intros doc; apply spares_write_text; exact Hp].
Qed.

(** A method that keeps the ledger and the ledger document keeps the one
    the dump of the other; so for the history. *)
Lemma ledger_on_disk_kept {A} (c : method A) s :
  keeps ledger c -> world_keeps (stored ENCOUNTER_LOG) c ->
  ledger_on_disk s -> ledger_on_disk (snd (c s)).
Proof.
  intros Hl Hw H doc. specialize (Hl s). specialize (Hw s). unfold stored in Hw.
  unfold ledger in Hl. injection Hl as -> -> ->. rewrite Hw. apply H.
Qed.

Lemma history_on_disk_kept {A} (c : method A) s :
  keeps shiny_history c -> world_keeps (stored HISTORY_FILE) c ->
  history_on_disk s -> history_on_disk (snd (c s)).
Proof.
  intros Hl Hw H doc. specialize (Hl s). specialize (Hw s). unfold stored in Hw.
  rewrite Hl, Hw. apply H.
Qed.

Lemma well_shaped_kept {A} (c : method A) s :
  keeps ledger c -> keeps shiny_history c -> well_shaped (fst s) -> well_shaped (fst (snd (c s))).
Proof.
  intros Hl Hh. specialize (Hl s). specialize (Hh s). unfold ledger in Hl.
  unfold well_shaped. injection Hl as -> _ ->. rewrite Hh. tauto.
Qed.

(** The block that logs an encounter, on a disk without faults: it
    returns with the ledger on disk. *)
Lemma log_encounter_logged pid name hist :
  returns (fun s => faults (snd s) = [] /\ well_shaped (fst s) /\ shiny_history (fst s) = PList hist)
          (log_encounter pid name) (fun _ => logged hist).
Proof.
  intros [v w] (Hf & Hw & Hh). simpl in Hf, Hw, Hh.
  destruct Hw as ((names & Hn) & (name_map & Hm) & Hhist).
  destruct v. simpl in Hn, Hm, Hh. subst.
  unfold log_encounter, bind, self, pure, update, call. simpl.
  match goal with |- context [save_encounter_data ?a ?b ?c w] =>
    pose proof (save_clean ENCOUNTER_LOG (ledger_document a b c) w Hf) as (Hf' & Hdoc & _);
    pose proof (save_encounter_data_returns a b c w) as Hs;
    unfold ledger_document in Hf', Hdoc; fold (save_encounter_data a b c) in Hf', Hdoc;
    destruct (save_encounter_data a b c w) as [r w'] end.
  simpl in *. subst r. eexists tt, _. split; [reflexivity|].
  split; [exact Hf'|]. split; [|split; [|reflexivity]].
  - split; [eauto|]. split; simpl; eauto.
  - intros doc Hd. apply Hdoc. exact Hd.
Qed.

Lemma logged_update hist (f : PokedexViewer -> PokedexViewer) :
  (forall v, ledger (f v) = ledger v) -> (forall v, shiny_history (f v) = shiny_history v) ->
  returns (logged hist) (update f) (fun _ => logged hist).
Proof.
  intros Hl Hh [v w] (Hf & Hw & Hd & Hs). exists tt, (f v, w). split; [reflexivity|].
  specialize (Hl v). specialize (Hh v). unfold ledger in Hl. injection Hl as H1 H2 H3.
  unfold logged, ledger_on_disk, well_shaped in *. simpl in *.
  rewrite H1, H2, H3, Hh. auto.
Qed.

Ltac logged_label := apply logged_update; intros []; reflexivity.

Lemma mirrored_kept {A} (c : method A) :
  keeps ledger c -> keeps shiny_history c ->
  world_keeps (stored ENCOUNTER_LOG) c -> world_keeps (stored HISTORY_FILE) c -> calm c ->
  always mirrored c mirrored.
Proof.
  intros Hl Hh He Hf Hc s (H1 & H2 & H3 & H4).
  split; [apply Hc; exact H1|]. split; [apply well_shaped_kept; assumption|].
  split; [apply ledger_on_disk_kept | apply history_on_disk_kept]; assumption.
Qed.

Lemma log_shiny_mirrored pid dex name now now' hist :
  always (logged hist) (log_shiny pid dex name now now') mirrored.
Proof.
  unfold log_shiny.
  eapply returns_then_always; [logged_label | intros ?].
  eapply returns_then_always; [logged_label | intros ?].
  eapply returns_then_always; [logged_label | intros ?].
  eapply returns_then_always with (R := logged hist);
    [intros s H; exists (snd s), s; split; [reflexivity | exact H] | intros w0].
  intros [v w] (Hf & Hw & Hd & Hs). simpl in Hf, Hw, Hs.
  unfold bind at 1. unfold self at 1. cbn [fst snd]. rewrite Hs. simpl py_append.
  rewrite bind_pure.
  unfold bind at 1. unfold update at 1. cbn [fst snd].
  unfold bind at 1. unfold call at 1. cbn [fst snd].
  match goal with |- context [save_shiny_history ?h w] =>
    pose proof (save_clean HISTORY_FILE (Json.dumps h) w Hf) as (Hf' & Hdoc & Hother);
    pose proof (save_shiny_history_returns h w) as Hret;
    fold (save_shiny_history h) in Hf', Hdoc, Hother;
    destruct (save_shiny_history h w) as [r w'] end.
  simpl in Hf', Hdoc, Hother, Hret. subst r.
  match goal with |- mirrored (snd (?tail ?s1)) =>
    assert (always mirrored tail mirrored) as Htail; [|apply Htail] end.
  - apply mirrored_kept; unfold update_shiny_delay, _append_shiny_tooltip;
      [frame | frame | world_frame | world_frame | calm_frame].
  - destruct Hw as (Hn & Hm & _).
    split; [exact Hf'|]. split; [|split].
    + destruct v; simpl in *. split; [exact Hn|]. split; [exact Hm | eauto].
    + intros doc. destruct v; simpl in *. rewrite (Hother ENCOUNTER_LOG).
      * apply Hd.
      * intros E. apply documents_differ. symmetry. exact E.
    + intros doc. destruct v; simpl in *. apply Hdoc.
Qed.

Lemma written_kept {A} (c : method A) :
  keeps ledger c -> keeps shiny_history c ->
  world_keeps (stored ENCOUNTER_LOG) c -> calm c ->
  always written c written.
Proof.
  intros Hl Hh He Hc s (H1 & H2 & H3).
  split; [apply Hc; exact H1|]. split; [apply well_shaped_kept; assumption|].
  apply ledger_on_disk_kept; assumption.
Qed.

Lemma always_weaken {S A} (P P' Q Q' : S -> Prop) (c : M S A) :
  always P' c Q' -> (forall s, P s -> P' s) -> (forall s, Q' s -> Q s) -> always P c Q.
Proof. intros H HP HQ s Hs. apply HQ, H, HP, Hs. Qed.

Lemma QPixmap_logged hist path :
  returns (logged hist) (call (QPixmap path)) (fun _ => logged hist).
Proof. intros [v w] H. unfold call, QPixmap. simpl. eauto. Qed.

(** One encounter on a disk without faults: when the slot ends, by a return
    or by an exception, the ledger document is the dump of the ledger in
    memory, and after a shiny encounter so is the history document. *)
Lemma apply_card_written c now now' hist :
  always (fun s => faults (snd s) = [] /\ well_shaped (fst s) /\ shiny_history (fst s) = PList hist)
         (apply_card c now now')
         (fun s => written s /\ (card_shiny c = true -> history_on_disk s)).
Proof.
  destruct c as [pid dex name types flavor sprite_path shiny]. unfold apply_card.
  eapply returns_then_always; [apply log_encounter_logged | intros ?].
  eapply returns_then_always; [apply QPixmap_logged | intros pix].
  eapply returns_then_always; [logged_label | intros ?].
  eapply returns_then_always; [logged_label | intros ?].
  eapply returns_then_always; [logged_label | intros ?].
  eapply returns_then_always; [logged_label | intros ?].
  destruct shiny; simpl.
  - apply always_weaken with (P' := logged hist) (Q' := mirrored); [|auto|].
    + apply always_then_keep; [apply log_shiny_mirrored | intros ?].
      apply mirrored_kept; unfold update_dex_cell, update_stats;
        [frame | frame | world_frame | world_frame | calm_frame].
    + intros s (H1 & H2 & H3 & H4). split; [exact (conj H1 (conj H2 H3)) | intros _; exact H4].
  - apply always_weaken with (P' := written) (Q' := written).
    + apply written_kept; unfold update_dex_cell, update_stats;
        [frame | frame | world_frame | calm_frame].
    + intros s (H1 & H2 & H3 & _). exact (conj H1 (conj H2 H3)).
    + intros s H. split; [exact H | discriminate].
Qed.

(** An encounter that is not shiny leaves the history and its document
    alone. *)
Lemma apply_card_plain_history c now now' s :
  card_shiny c = false -> history_on_disk s -> history_on_disk (snd (apply_card c now now' s)).
Proof.
  destruct c as [pid dex name types flavor sprite_path shiny]. simpl. intros ->.
  apply history_on_disk_kept;
    unfold apply_card, log_encounter, update_dex_cell, update_stats.
  - frame.
  - world_frame. apply spares_save_encounter_data. apply documents_differ.
Qed.

Lemma session_written calls : forall v w,
  faults w = [] -> well_shaped v ->
  let s' := apply_cards calls (v, w) in
  faults (snd s') = [] /\ well_shaped (fst s') /\
  (calls <> [] \/ ledger_on_disk (v, w) -> ledger_on_disk s') /\
  (history_on_disk (v, w) \/ (exists d, d ∈ calls /\ card_shiny (card_of d) = true) ->
   history_on_disk s').
Proof.
  induction calls as [|[[c now] now'] rest IH]; intros v w Hf Hw; simpl.
  - split; [exact Hf|]. split; [exact Hw|]. split.
    + intros [H | H]; [destruct H; reflexivity | exact H].
    + intros [H | (d & Hd & _)]; [exact H | inversion Hd].
  - destruct Hw as (Hn & Hm & (hist & Hh)).
    pose proof (apply_card_written c now now' hist (v, w)
                  (conj Hf (conj (conj Hn (conj Hm (ex_intro _ hist Hh))) Hh)))
      as ((Hf1 & Hw1 & Hl1) & Hs1).
    pose proof (apply_card_plain_history c now now' (v, w)) as Hp1.
    destruct (apply_card c now now' (v, w)) as [r [v1 w1]]. simpl in *.
    destruct (IH v1 w1 Hf1 Hw1) as (Hf' & Hw' & Hl' & Hh').
    split; [exact Hf'|]. split; [exact Hw'|]. split.
    + intros _. apply Hl'. right. exact Hl1.
    + intros [H | (d & Hd & Hshiny)].
      * apply Hh'. left. destruct (card_shiny c); [apply Hs1; reflexivity | apply Hp1; auto].
      * apply elem_of_cons in Hd. destruct Hd as [-> | Hd].
        -- apply Hh'. left. apply Hs1. exact Hshiny.
        -- apply Hh'. right. eauto.
Qed.

(** On a disk without faults the documents follow the memory: after any
    session of at least one encounter the ledger document is the dump of the
    ledger in memory; and the history document is the dump of the history in
    memory when it was so before the session or when the session had a shiny
    encounter. *)
Theorem session_is_written_through
    (calls : list delivery) (v : PokedexViewer) (w : world) :
  well_shaped v -> faults w = [] -> calls <> [] ->
  ledger_on_disk (apply_cards calls (v, w)) /\
  (history_on_disk (v, w) \/ (exists d, d ∈ calls /\ card_shiny (card_of d) = true) ->
   history_on_disk (apply_cards calls (v, w))).
Proof.
  intros Hw Hf Hne. destruct (session_written calls v w Hf Hw) as (_ & _ & Hl & Hh).
  split; [apply Hl; left; exact Hne | exact Hh].
Qed.

(** ** The round trip through a JSON document *)

Lemma chars_app a b : Text.chars (a +:+ b) = Text.chars a ++ Text.chars b.
Proof. unfold Text.chars. induction a as [|x a IH]; simpl; [reflexivity | rewrite IH; reflexivity]. Qed.

Lemma pyval_ind' (P : pyval -> Prop) :
  P PNone -> (forall b, P (PBool b)) -> (forall z, P (PInt z)) -> (forall f, P (PFloat f)) ->
  (forall s, P (PStr s)) ->
  (forall l, Forall P l -> P (PList l)) ->
  (forall d, Forall (fun kx => P (snd kx)) d -> P (PDict d)) ->
  forall v, P v.
Proof.
  intros HN HB HI HF HS HL HD. fix IH 1. intros [| b | z | f | s | l | d].
  - exact HN.
  - apply HB.
  - apply HI.
  - apply HF.
  - apply HS.
  - apply HL. induction l as [|x r IHr]; constructor; [apply IH | exact IHr].
  - apply HD. induction d as [|[k x] r IHr]; constructor; [apply IH | exact IHr].
Qed.

Lemma stable_list l : stable (PList l) <-> Forall stable l.
Proof.
  induction l as [|x r IH]; simpl.
  - split; [constructor | trivial].
  - simpl in IH. rewrite IH. split.
    + intros [H1 H2]. constructor; assumption.
    + intros H. inversion H; subst. split; assumption.
Qed.

Lemma code_points_ascii l : forall fuel,
  forallb (fun c => Text.ord c <? 128) l = true -> (length l <= fuel)%nat ->
  Text.code_points fuel l = map (fun c => Text.text [c]) l.
Proof.
  induction l as [|c r IH]; intros fuel Hl Hf.
  - destruct fuel; reflexivity.
  - destruct fuel as [|fuel]; [simpl in Hf; lia|].
    simpl in Hl. apply andb_true_iff in Hl. destruct Hl as [Hc Hr].
    cbn [Text.code_points]. unfold Text.utf8_len.
    assert ((Text.ord c <? 192) = true) as -> by (apply Z.ltb_lt; apply Z.ltb_lt in Hc; lia).
    simpl. rewrite drop_0. rewrite IH; [reflexivity | exact Hr | simpl in Hf; lia].
Qed.

Lemma characters_ascii s :
  ascii_text s = true -> Text.characters s = map (fun c => Text.text [c]) (Text.chars s).
Proof.
  intros H. unfold Text.characters. apply code_points_ascii; [exact H|].
  rewrite chars_length. lia.
Qed.

Lemma escape_scan c :
  (Text.ord c <? 128) = true ->
  forall acc rest, Json.scan_string acc (Json.escape (Text.text [c]) ++ rest)
                   = Json.scan_string (c :: acc) rest.
Proof.
  destruct c as [b0 b1 b2 b3 b4 b5 b6 b7].
  destruct b7; [destruct b0, b1, b2, b3, b4, b5, b6; discriminate|].
  intros _ acc rest.
  destruct b0, b1, b2, b3, b4, b5, b6; reflexivity.
Qed.

Lemma scan_escaped l : forall acc rest,
  forallb (fun c => Text.ord c <? 128) l = true ->
  Json.scan_string acc (flat_map Json.escape (map (fun c => Text.text [c]) l) ++ Text.quote :: rest)
  = Some (Text.text (rev acc ++ l), rest).
Proof.
  induction l as [|c r IH]; intros acc rest Hl.
  - simpl. rewrite app_nil_r. reflexivity.
  - simpl in Hl. apply andb_true_iff in Hl. destruct Hl as [Hc Hr].
    cbn [map flat_map]. rewrite <- app_assoc, (escape_scan c Hc), (IH _ _ Hr).
    simpl. rewrite <- app_assoc. reflexivity.
Qed.

(** A written string starts with a quote, and what follows the quote reads
    back as the string. *)
Lemma scan_encode_str s :
  ascii_text s = true ->
  exists body, Text.chars (Json.encode_str s) = Text.quote :: body /\
               forall rest, Json.scan_string [] (body ++ rest) = Some (s, rest).
Proof.
  intros Hs. unfold Json.encode_str. rewrite chars_text, (characters_ascii s Hs).
  eexists. split; [reflexivity|]. intros rest.
  rewrite <- app_assoc. change ([Text.quote] ++ rest) with (Text.quote :: rest).
  rewrite (scan_escaped _ [] rest Hs). simpl.
  rewrite text_chars. reflexivity.
Qed.

(** *** Integers *)

Lemma digits_value_snoc ds c :
  Json.digits_value (ds ++ [c]) = 10 * Json.digits_value ds + Text.digit_value c.
Proof. unfold Json.digits_value. rewrite fold_left_app. reflexivity. Qed.

Lemma pretty_N_char_digit (m : N) :
  (m < 10)%N ->
  Text.is_digit (pretty_N_char m) = true /\
  Text.digit_value (pretty_N_char m) = Z.of_N m /\
  (m <> 0%N -> Text.eqb_char (pretty_N_char m) "0" = false).
Proof.
  intros H.
  assert (m = 0 \/ m = 1 \/ m = 2 \/ m = 3 \/ m = 4 \/ m = 5 \/ m = 6 \/ m = 7 \/ m = 8 \/ m = 9)%N
    as Hm by lia.
  repeat (destruct Hm as [-> | Hm]); try subst m;
    (split; [reflexivity | split; [reflexivity | intros Hne; try reflexivity; destruct Hne; reflexivity]]).
Qed.

(** The digits [pretty] writes for a natural number. *)
Lemma pretty_N_go_digits (x : N) :
  exists ds, (forall s, Text.chars (pretty_N_go x s) = ds ++ Text.chars s) /\
             forallb Text.is_digit ds = true /\
             Json.digits_value ds = Z.of_N x /\
             ((0 < x)%N -> exists c r, ds = c :: r /\ Text.eqb_char c "0" = false).
Proof.
  induction (N.lt_wf_0 x) as [x _ IH].
  assert (x = 0 \/ 0 < x)%N as [-> | Hpos] by lia.
  - exists []. split; [intros s; rewrite pretty_N_go_0; reflexivity|].
    split; [reflexivity|]. split; [reflexivity | lia].
  - destruct (IH (x `div` 10)%N) as (ds & Hds & Hdig & Hval & Hlead).
    { apply N.div_lt; lia. }
    destruct (pretty_N_char_digit (x `mod` 10)%N) as (Hc1 & Hc2 & Hc3).
    { apply N.mod_lt. lia. }
    exists (ds ++ [pretty_N_char (x `mod` 10)]). split; [|split; [|split]].
    + intros s. rewrite pretty_N_go_step by exact Hpos. rewrite Hds. simpl.
      rewrite <- app_assoc. reflexivity.
    + rewrite forallb_app, Hdig. simpl. rewrite Hc1. reflexivity.
    + rewrite digits_value_snoc, Hval, Hc2.
      pose proof (N.div_mod x 10 ltac:(lia)) as E. apply (f_equal Z.of_N) in E.
      rewrite N2Z.inj_add, N2Z.inj_mul in E. change (Z.of_N 10) with 10 in E. symmetry. exact E.
    + intros _. destruct (N.eq_0_gt_0_cases (x `div` 10)) as [Hz | Hnz].
      * assert (ds = []) as ->.
        { specialize (Hds ""). rewrite Hz, pretty_N_go_0 in Hds. simpl in Hds.
          rewrite app_nil_r in Hds. congruence. }
        simpl. eexists _, []. split; [reflexivity|]. apply Hc3.
        pose proof (N.div_mod x 10 ltac:(lia)) as E. rewrite Hz in E. intros Hm. rewrite Hm in E.
        simpl in E. subst x. inversion Hpos.
      * destruct (Hlead Hnz) as (c & r & -> & Hc). exists c, (r ++ [pretty_N_char (x `mod` 10)]).
        split; [reflexivity | exact Hc].
Qed.

Lemma span_digits_app ds rest :
  forallb Text.is_digit ds = true ->
  match rest with [] => true | c :: _ => negb (Text.is_digit c) end = true ->
  Json.span_digits (ds ++ rest) = (ds, rest).
Proof.
  intros Hds Hrest. induction ds as [|d ds IH]; simpl.
  - destruct rest as [|c r]; [reflexivity|]. simpl.
    apply negb_true_iff in Hrest. rewrite Hrest. reflexivity.
  - simpl in Hds. apply andb_true_iff in Hds. destruct Hds as [Hd Hr].
    rewrite Hd, (IH Hr). reflexivity.
Qed.

Lemma tail_ok_spec rest :
  tail_ok rest = true ->
  Json.frac_part rest = None /\ Json.exp_part rest = None /\
  match rest with [] => true | c :: _ => negb (Text.is_digit c) end = true.
Proof.
  destruct rest as [|c r]; simpl; [auto|]. intros H.
  apply negb_true_iff in H. apply orb_false_iff in H. destruct H as [H HE].
  apply orb_false_iff in H. destruct H as [H He].
  apply orb_false_iff in H. destruct H as [Hd Hp].
  rewrite Hp, He, HE, Hd. auto.
Qed.

(** A digit is none of the characters that open another kind of value. *)
Lemma digit_opens_number c :
  Text.is_digit c = true ->
  Text.eqb_char c "-" = false /\ Text.eqb_char c Text.quote = false /\
  Text.eqb_char c "{" = false /\ Text.eqb_char c "[" = false /\
  Text.eqb_char c "n" = false /\ Text.eqb_char c "t" = false /\
  Text.eqb_char c "f" = false /\ Text.eqb_char c "]" = false /\ Json.is_ws c = false.
Proof.
  destruct c as [b0 b1 b2 b3 b4 b5 b6 b7].
  destruct b0, b1, b2, b3, b4, b5, b6, b7; intros H; try discriminate H; repeat split.
Qed.

Lemma scan_digits ds c r rest (neg : bool) :
  ds = c :: r -> forallb Text.is_digit ds = true -> Text.eqb_char c "0" = false ->
  tail_ok rest = true ->
  Json.scan_number ((if neg then ["-"%char] else []) ++ ds ++ rest)
  = Some (PInt (if neg then - Json.digits_value ds else Json.digits_value ds), rest).
Proof.
  intros -> Hds Hc Hrest.
  destruct (tail_ok_spec rest Hrest) as (Hfrac & Hexp & Hnd).
  pose proof Hds as Hds'. simpl in Hds'. apply andb_true_iff in Hds'. destruct Hds' as [Hcd _].
  destruct (digit_opens_number c Hcd) as (Hdash & _).
  unfold Json.scan_number.
  assert (match (if neg then ["-"%char] else []) ++ (c :: r) ++ rest with
          | [] => (false, (if neg then ["-"%char] else []) ++ (c :: r) ++ rest)
          | c0 :: r0 => if Text.eqb_char c0 "-"
                        then (true, r0)
                        else (false, (if neg then ["-"%char] else []) ++ (c :: r) ++ rest)
          end = (neg, (c :: r) ++ rest)) as ->.
  { destruct neg; simpl; [reflexivity | rewrite Hdash; reflexivity]. }
  unfold Json.int_part. cbn [app]. rewrite Hc, Hcd.
  change (c :: r ++ rest) with ((c :: r) ++ rest).
  rewrite (span_digits_app (c :: r) rest Hds Hnd). rewrite Hfrac, Hexp. reflexivity.
Qed.

Lemma chars_pretty_pos p :
  exists c r, Text.chars (pretty (Zpos p)) = c :: r /\
              forallb Text.is_digit (c :: r) = true /\ Text.eqb_char c "0" = false /\
              Json.digits_value (c :: r) = Zpos p.
Proof.
  destruct (pretty_N_go_digits (Npos p)) as (ds & Hds & Hdig & Hval & Hlead).
  destruct (Hlead eq_refl) as (c & r & -> & Hc).
  exists c, r. split; [|auto].
  unfold pretty, pretty_Z, pretty, pretty_positive, pretty, pretty_N.
  destruct (decide (N.pos p = 0%N)) as [E|_]; [discriminate E|].
  rewrite Hds. simpl. rewrite app_nil_r. reflexivity.
Qed.

(** An integer reads back as it was written. *)
Lemma scan_number_pretty (z : Z) rest :
  tail_ok rest = true ->
  Json.scan_number (Text.chars (pretty z) ++ rest) = Some (PInt z, rest).
Proof.
  intros Hrest. destruct z as [|p|p].
  - destruct (tail_ok_spec rest Hrest) as (Hfrac & Hexp & _).
    change (Text.chars (pretty 0)) with ["0"%char]. unfold Json.scan_number. simpl.
    rewrite Hfrac, Hexp. reflexivity.
  - destruct (chars_pretty_pos p) as (c & r & E & Hdig & Hc & Hval).
    rewrite E. pose proof (scan_digits (c :: r) c r rest false eq_refl Hdig Hc Hrest) as H.
    simpl in H. simpl. rewrite H, Hval. reflexivity.
  - destruct (chars_pretty_pos p) as (c & r & E & Hdig & Hc & Hval).
    change (pretty (Z.neg p)) with ("-" +:+ pretty (Zpos p)).
    rewrite chars_app, E.
    pose proof (scan_digits (c :: r) c r rest true eq_refl Hdig Hc Hrest) as H.
    simpl in H. simpl. rewrite H, Hval. reflexivity.
Qed.

(** The first character of a written integer. *)
Lemma pretty_opens_number (z : Z) :
  exists c r, Text.chars (pretty z) = c :: r /\ (Text.is_digit c = true \/ c = "-"%char).
Proof.
  destruct z as [|p|p].
  - exists "0"%char, []. split; [reflexivity | left; reflexivity].
  - destruct (chars_pretty_pos p) as (c & r & E & Hdig & _).
    exists c, r. split; [exact E|]. left. simpl in Hdig. apply andb_true_iff in Hdig. tauto.
  - exists "-"%char. eexists. change (pretty (Z.neg p)) with ("-" +:+ pretty (Zpos p)).
    rewrite chars_app. split; [reflexivity | right; reflexivity].
Qed.

(** *** Layout *)

Lemma skip_ws_stop c r : Json.is_ws c = false -> Json.skip_ws (c :: r) = c :: r.
Proof. intros H. simpl. rewrite H. reflexivity. Qed.

Lemma chars_newline_indent n :
  Text.chars (Json.newline_indent n) = Text.LF :: replicate (2 * n) " "%char.
Proof. unfold Json.newline_indent. apply chars_text. Qed.

Lemma skip_ws_spaces n l : Json.skip_ws (replicate n " "%char ++ l) = Json.skip_ws l.
Proof. induction n as [|n IH]; simpl; [reflexivity | exact IH]. Qed.

Lemma skip_ws_indent n l :
  Json.skip_ws (Text.chars (Json.newline_indent n) ++ l) = Json.skip_ws l.
Proof. rewrite chars_newline_indent. simpl. apply skip_ws_spaces. Qed.

Lemma tail_ok_indent n l : tail_ok (Text.chars (Json.newline_indent n) ++ l) = true.
Proof. rewrite chars_newline_indent. reflexivity. Qed.

Lemma length_newline_indent n : (1 <= length (Text.chars (Json.newline_indent n)))%nat.
Proof. rewrite chars_newline_indent. simpl. lia. Qed.

(** *** The two equations of [encode] on containers *)

Lemma items_rmap level l :
  (fix items (l : list pyval) : result (list string) :=
     match l with
     | [] => Ok []
     | x :: r =>
         rbind (Json.encode (S level) x) (fun y =>
         rbind (items r) (fun ys => Ok (y :: ys)))
     end) l
  = rmap (Json.encode (S level)) l.
Proof.
  induction l as [|y l IH]; [reflexivity|]. cbn [rmap]. rewrite <- IH. reflexivity.
Qed.

Lemma items_encode_items level d :
  (fix items (d : list (pyval * pyval)) : result (list string) :=
     match d with
     | [] => Ok []
     | (k, x) :: r =>
         rbind (Json.key_str k) (fun ks =>
         rbind (Json.encode (S level) x) (fun y =>
         rbind (items r) (fun ys => Ok ((Json.encode_str ks +:+ ": " +:+ y) :: ys))))
     end) d
  = encode_items level d.
Proof.
  induction d as [|[k y] d IH]; [reflexivity|]. cbn [encode_items]. rewrite <- IH. reflexivity.
Qed.

Lemma encode_list level x r :
  Json.encode level (PList (x :: r))
  = rbind (rmap (Json.encode (S level)) (x :: r))
          (fun parts => Ok (Json.bracket "[" "]" level parts)).
Proof. rewrite <- items_rmap. reflexivity. Qed.

Lemma encode_dict level kx r :
  Json.encode level (PDict (kx :: r))
  = rbind (encode_items level (kx :: r))
          (fun parts => Ok (Json.bracket "{" "}" level parts)).
Proof. rewrite <- items_encode_items. destruct kx. reflexivity. Qed.

Lemma rmap_ok {A B} (f : A -> result B) l parts :
  rmap f l = Ok parts -> Forall2 (fun x p => f x = Ok p) l parts.
Proof.
  revert parts. induction l as [|x r IH]; simpl; intros parts H.
  - injection H as <-. constructor.
  - destruct (f x) as [p|e] eqn:Hx; simpl in H; [|discriminate].
    destruct (rmap f r) as [ps|e]; simpl in H; [|discriminate].
    injection H as <-. constructor; [exact Hx | apply IH; reflexivity].
Qed.

(** *** What a written value starts with *)

Lemma chars_bracket op cl level parts :
  Text.chars (Json.bracket op cl level parts)
  = Text.chars op ++ Text.chars (Json.newline_indent (S level))
    ++ Text.chars (Text.join ("," +:+ Json.newline_indent (S level)) parts)
    ++ Text.chars (Json.newline_indent level) ++ Text.chars cl.
Proof. unfold Json.bracket. rewrite !chars_app. reflexivity. Qed.

Lemma encode_opens v level doc rest :
  stable v -> Json.encode level v = Ok doc -> opens_value (Text.chars doc ++ rest).
Proof.
  unfold opens_value. destruct v as [| b | z | f | s | l | d]; intros Hv He.
  - injection He as <-. eexists _, _. split; [reflexivity | split; reflexivity].
  - injection He as <-. destruct b; eexists _, _; (split; [reflexivity | split; reflexivity]).
  - injection He as <-. destruct (pretty_opens_number z) as (c & r & E & Hc). rewrite E.
    exists c, (r ++ rest). split; [reflexivity|]. destruct Hc as [Hd | ->].
    + destruct (digit_opens_number c Hd) as (_ & _ & _ & _ & _ & _ & _ & H1 & H2). auto.
    + split; reflexivity.
  - destruct Hv.
  - injection He as <-. destruct (scan_encode_str s Hv) as (body & E & _). rewrite E.
    eexists _, _. split; [reflexivity | split; reflexivity].
  - destruct l as [|x r].
    + injection He as <-. eexists _, _. split; [reflexivity | split; reflexivity].
    + rewrite encode_list in He. destruct (rmap _ _) as [parts|e]; [|discriminate].
      injection He as <-. rewrite chars_bracket. eexists _, _.
      split; [reflexivity | split; reflexivity].
  - destruct d as [|kx r].
    + injection He as <-. eexists _, _. split; [reflexivity | split; reflexivity].
    + rewrite encode_dict in He. destruct (encode_items _ _) as [parts|e]; [|discriminate].
      injection He as <-. rewrite chars_bracket. eexists _, _.
      split; [reflexivity | split; reflexivity].
Qed.

(** *** Arrays *)

Lemma join_cons2 sep p p2 ps :
  Text.join sep (p :: p2 :: ps) = p +:+ sep +:+ Text.join sep (p2 :: ps).
Proof. reflexivity. Qed.

Lemma join_opens level x p ps tail :
  Json.encode (S level) x = Ok p -> stable x ->
  opens_value (Text.chars (Text.join ("," +:+ Json.newline_indent (S level)) (p :: ps)) ++ tail).
Proof.
  intros Hx Hs. destruct ps as [|p2 ps].
  - simpl. apply (encode_opens x (S level) p tail Hs Hx).
  - rewrite join_cons2, chars_app, <- app_assoc. apply (encode_opens x (S level) p _ Hs Hx).
Qed.

Lemma scan_elements_join level rest xs : forall parts,
  Forall2 (fun x p => Json.encode (S level) x = Ok p) xs parts -> xs <> [] ->
  Forall reads xs -> Forall stable xs ->
  forall f acc,
    (length (Text.chars (Text.join ("," +:+ Json.newline_indent (S level)) parts)) < f)%nat ->
    Json.scan_elements f acc
      (Text.chars (Text.join ("," +:+ Json.newline_indent (S level)) parts)
       ++ Text.chars (Json.newline_indent level) ++ "]"%char :: rest)
    = Some (PList (rev acc ++ xs), rest).
Proof.
  induction xs as [|x xs IH]; intros parts HF Hne Hr Hs f acc Hlen; [contradiction|].
  inversion HF as [|? p ? ps Hx Hrest]; subst.
  inversion Hr as [|? ? Hrx Hrxs]; subst. inversion Hs as [|? ? Hsx Hsxs]; subst.
  destruct f as [|f]; [lia|]. rewrite scan_elements_step.
  destruct xs as [|x2 xs'].
  - inversion Hrest; subst. simpl Text.join in *.
    rewrite (Hrx (S level) p Hx f _ ltac:(lia) (tail_ok_indent level _)).
    rewrite skip_ws_indent, (skip_ws_stop "]"%char rest eq_refl). reflexivity.
  - inversion Hrest as [|? p2 ? ps' Hx2 Hrest']; subst.
    rewrite join_cons2 in *. rewrite !chars_app in Hlen. rewrite !length_app in Hlen.
    rewrite !chars_app, <- !app_assoc.
    change (Text.chars "," ++ ?l) with (","%char :: l).
    match goal with |- context [Json.scan_value f (Text.chars p ++ ?t)] =>
      rewrite (Hrx (S level) p Hx f t ltac:(lia) eq_refl) end.
    rewrite (skip_ws_stop ","%char _ eq_refl).
    change (Text.eqb_char "," "]") with false. change (Text.eqb_char "," ",") with true. cbv iota.
    rewrite skip_ws_indent.
    inversion Hsxs as [|? ? Hsx2 _]; subst.
    destruct (join_opens level x2 p2 ps'
                (Text.chars (Json.newline_indent level) ++ "]"%char :: rest) Hx2 Hsx2)
      as (c & r & E & Hws & _).
    rewrite E, (skip_ws_stop c r Hws), <- E.
    rewrite (IH (p2 :: ps') Hrest ltac:(discriminate) Hrxs Hsxs f (x :: acc)).
    + simpl. rewrite <- app_assoc. reflexivity.
    + change (length (Text.chars ",")) with 1%nat in Hlen. lia.
Qed.

(** *** Objects *)

Lemma stable_dict d :
  stable (PDict d) <->
  NoDup (map fst d) /\
  Forall (fun kx => (exists s, fst kx = PStr s /\ ascii_text s = true) /\ stable (snd kx)) d.
Proof.
  cbn [stable]. apply and_iff_compat_l.
  induction d as [|kx r IH].
  - split; [constructor | trivial].
  - rewrite IH. split.
    + intros (H1 & H2 & H3). constructor; [split|]; assumption.
    + intros H. inversion H as [|? ? [H1 H2] H3]; subst. auto.
Qed.

Lemma encode_items_members level d : forall parts,
  encode_items level d = Ok parts ->
  Forall (fun kx => exists s, fst kx = PStr s /\ ascii_text s = true) d ->
  Forall2 (member_text level) d parts.
Proof.
  induction d as [|[k x] r IH]; intros parts He Hk.
  - injection He as <-. constructor.
  - inversion Hk as [|? ? (s & Hs & Ha) Hr]; subst. simpl in Hs. subst k.
    cbn [encode_items Json.key_str rbind] in He.
    destruct (Json.encode (S level) x) as [y|e] eqn:Hy; [|discriminate].
    cbn [rbind] in He. destruct (encode_items level r) as [ps|e]; [|discriminate].
    injection He as <-. constructor; [|apply IH; [reflexivity | exact Hr]].
    exists s, y. auto.
Qed.

Lemma scan_members_join level d : forall parts,
  Forall2 (member_text level) d parts -> d <> [] ->
  Forall (fun kx => reads (snd kx)) d -> Forall (fun kx => stable (snd kx)) d ->
  exists M,
    Text.chars (Text.join ("," +:+ Json.newline_indent (S level)) parts) = Text.quote :: M /\
    forall f acc rest,
      (length (Text.chars (Text.join ("," +:+ Json.newline_indent (S level)) parts)) < f)%nat ->
      Json.scan_members f acc
        (M ++ Text.chars (Json.newline_indent level) ++ "}"%char :: rest)
      = Some (Json.dict_of_pairs (rev acc ++ pairs_of d), rest).
Proof.
  induction d as [|kx d IH]; intros parts HF Hne Hr Hs; [contradiction|].
  inversion HF as [|? p ? ps (s & y & Hk & Ha & Hy & Hp) Hrest]; subst.
  inversion Hr as [|? ? Hrx Hrxs]; subst. inversion Hs as [|? ? Hsx Hsxs]; subst.
  destruct (scan_encode_str s Ha) as (body & Ebody & Hbody).
  destruct d as [|kx2 d'].
  - inversion Hrest; subst. simpl Text.join.
    exists (body ++ ":"%char :: " "%char :: Text.chars y).
    split; [rewrite !chars_app, Ebody; reflexivity|].
    intros f acc rest Hlen.
    rewrite !chars_app, Ebody in Hlen. rewrite !length_app in Hlen.
    change (Text.chars ": ") with [":"%char; " "%char] in Hlen. cbn [length] in Hlen.
    destruct f as [|f]; [lia|]. rewrite scan_members_step.
    rewrite <- app_assoc, Hbody. cbn [app].
    rewrite (skip_ws_stop ":"%char _ eq_refl).
    change (Text.eqb_char ":" ":") with true. cbv iota.
    change (Json.skip_ws (" "%char :: ?l)) with (Json.skip_ws l).
    destruct (encode_opens (snd kx) (S level) y
                (Text.chars (Json.newline_indent level) ++ "}"%char :: rest) Hsx Hy)
      as (c & r & E & Hws & _).
    rewrite E, (skip_ws_stop c r Hws), <- E.
    rewrite (Hrx (S level) y Hy f _ ltac:(lia) (tail_ok_indent level _)).
    rewrite skip_ws_indent, (skip_ws_stop "}"%char rest eq_refl).
    change (Text.eqb_char "}" "}") with true. cbv iota.
    unfold pairs_of. simpl. rewrite Hk. reflexivity.
  - inversion Hrest as [|? p2 ? ps' Hm2 Hrest']; subst.
    destruct (IH (p2 :: ps') Hrest ltac:(discriminate) Hrxs Hsxs) as (M2 & EM2 & HM2).
    rewrite join_cons2.
    exists (body ++ ":"%char :: " "%char :: Text.chars y
            ++ ","%char :: Text.chars (Json.newline_indent (S level)) ++ Text.quote :: M2).
    split.
    { rewrite !chars_app, Ebody, EM2. simpl. rewrite <- !app_assoc. reflexivity. }
    intros f acc rest Hlen.
    rewrite !chars_app, Ebody in Hlen. rewrite !length_app in Hlen.
    change (Text.chars ": ") with [":"%char; " "%char] in Hlen.
    change (Text.chars ",") with [","%char] in Hlen. cbn [length] in Hlen.
    destruct f as [|f]; [lia|]. rewrite scan_members_step.
    rewrite <- app_assoc, Hbody. cbn [app].
    rewrite (skip_ws_stop ":"%char _ eq_refl).
    change (Text.eqb_char ":" ":") with true. cbv iota.
    change (Json.skip_ws (" "%char :: ?l)) with (Json.skip_ws l).
    repeat (rewrite <- app_assoc; cbn [app]).
    destruct (encode_opens (snd kx) (S level) y
                (","%char :: Text.chars (Json.newline_indent (S level))
                 ++ Text.quote :: M2 ++ Text.chars (Json.newline_indent level) ++ "}"%char :: rest)
                Hsx Hy)
      as (c & r & E & Hws & _).
    rewrite E, (skip_ws_stop c r Hws), <- E.
    match goal with |- context [Json.scan_value f (Text.chars y ++ ?t)] =>
      rewrite (Hrx (S level) y Hy f t ltac:(lia) eq_refl) end.
    rewrite (skip_ws_stop ","%char _ eq_refl).
    change (Text.eqb_char "," "}") with false. change (Text.eqb_char "," ",") with true. cbv iota.
    rewrite skip_ws_indent, (skip_ws_stop Text.quote _ eq_refl).
    change (Text.eqb_char Text.quote Text.quote) with true. cbv iota.
    rewrite (HM2 f ((s, snd kx) :: acc) rest).
    + unfold pairs_of. simpl. rewrite Hk, <- app_assoc. reflexivity.
    + lia.
Qed.

Lemma dict_set_absent s x acc :
  Forall (fun kx => exists a, fst kx = PStr a /\ a <> s) acc ->
  dict_set (PStr s) x acc = acc ++ [(PStr s, x)].
Proof.
  induction acc as [|[k y] r IH]; intros H; [reflexivity|].
  inversion H as [|? ? (a & Ha & Hne) Hr]; subst. simpl in Ha. subst k.
  cbn [dict_set]. unfold key_eqb at 1. cbn [xnum_of].
  apply String.eqb_neq in Hne. rewrite Hne. rewrite (IH Hr). reflexivity.
Qed.

Lemma fold_dict_set d : forall acc,
  NoDup (map fst (acc ++ d)) ->
  Forall (fun kx => exists s, fst kx = PStr s) (acc ++ d) ->
  fold_left (fun (m : list (pyval * pyval)) '(k, v) => dict_set (PStr k) v m) (pairs_of d) acc
  = acc ++ d.
Proof.
  induction d as [|[k x] d IH]; intros acc Hnd Hk; simpl.
  - rewrite app_nil_r. reflexivity.
  - assert (exists s, k = PStr s) as [s ->].
    { apply Forall_app in Hk. destruct Hk as [_ Hk]. inversion Hk as [|? ? [s Hs] _]; subst. eauto. }
    rewrite dict_set_absent.
    + rewrite IH; rewrite <- app_assoc; [reflexivity | exact Hnd | exact Hk].
    + rewrite map_app in Hnd. apply NoDup_app in Hnd. destruct Hnd as (_ & Hdisj & _).
      apply Forall_app in Hk. destruct Hk as [Hacc _].
      rewrite Forall_forall in Hacc |- *. intros [k' y] Hin.
      destruct (Hacc _ Hin) as [a Ha]. simpl in Ha. subst k'. exists a. split; [reflexivity|].
      intros ->. apply (Hdisj (PStr s)).
      * apply list_elem_of_fmap. exists (PStr s, y). split; [reflexivity | exact Hin].
      * left.
Qed.

Lemma dict_of_pairs_distinct d :
  NoDup (map fst d) -> Forall (fun kx => exists s, fst kx = PStr s) d ->
  Json.dict_of_pairs (pairs_of d) = PDict d.
Proof.
  intros Hnd Hk. unfold Json.dict_of_pairs. f_equal. apply (fold_dict_set d [] Hnd Hk).
Qed.

(** *** Every stable value reads back *)

Lemma reads_literal word v :
  (forall level, Json.encode level v = Ok word) ->
  (forall rest, Json.scan_value 1 (Text.chars word ++ rest) = Some (v, rest)) ->
  (forall fuel rest, Json.scan_value (S fuel) (Text.chars word ++ rest)
                     = Json.scan_value 1 (Text.chars word ++ rest)) ->
  reads v.
Proof.
  intros He H1 Hf level doc Hd fuel rest Hlen _. rewrite He in Hd. injection Hd as <-.
  destruct fuel as [|fuel].
  - specialize (H1 []). destruct (Text.chars word); [discriminate H1 | simpl in Hlen; lia].
  - rewrite Hf. apply H1.
Qed.

Lemma stable_reads v : stable v -> reads v.
Proof.
  induction v as [| b | z | f | s | l IH | d IH] using pyval_ind'; intros Hv.
  - apply (reads_literal "null"); reflexivity.
  - destruct b; [apply (reads_literal "true") | apply (reads_literal "false")]; reflexivity.
  - intros level doc Hd fuel rest Hlen Hrest. injection Hd as <-.
    destruct (pretty_opens_number z) as (c & r & E & Hc).
    destruct fuel as [|fuel]; [rewrite E in Hlen; simpl in Hlen; lia|].
    pose proof (scan_number_pretty z rest Hrest) as Hn. rewrite E in Hn |- *.
    cbn [app Json.scan_value]. cbn [app] in Hn.
    destruct Hc as [Hd | ->].
    + destruct (digit_opens_number c Hd) as (_ & H1 & H2 & H3 & H4 & H5 & H6 & _).
      rewrite H1, H2, H3, H4, H5, H6, Hn. reflexivity.
    + change (Text.eqb_char "-" Text.quote) with false. change (Text.eqb_char "-" "{") with false.
      change (Text.eqb_char "-" "[") with false. change (Text.eqb_char "-" "n") with false.
      change (Text.eqb_char "-" "t") with false. change (Text.eqb_char "-" "f") with false.
      cbv iota. rewrite Hn. reflexivity.
  - destruct Hv.
  - intros level doc Hd fuel rest Hlen Hrest. injection Hd as <-.
    destruct (scan_encode_str s Hv) as (body & E & Hbody).
    destruct fuel as [|fuel]; [rewrite E in Hlen; simpl in Hlen; lia|].
    rewrite E. cbn [app Json.scan_value].
    change (Text.eqb_char Text.quote Text.quote) with true. cbv iota.
    rewrite Hbody. reflexivity.
  - apply stable_list in Hv.
    intros level doc Hd fuel rest Hlen Hrest.
    destruct l as [|x r].
    + injection Hd as <-. destruct fuel as [|fuel]; [simpl in Hlen; lia | reflexivity].
    + rewrite encode_list in Hd.
      destruct (rmap (Json.encode (S level)) (x :: r)) as [parts|e] eqn:Hparts; [|discriminate].
      injection Hd as <-. apply rmap_ok in Hparts.
      rewrite chars_bracket in Hlen |- *. rewrite !length_app in Hlen.
      change (Text.chars "[") with ["["%char] in *. change (Text.chars "]") with ["]"%char] in *.
      cbn [length] in Hlen.
      destruct fuel as [|fuel]; [lia|].
      repeat (rewrite <- app_assoc; cbn [app]). cbn [Json.scan_value].
      change (Text.eqb_char "[" Text.quote) with false. change (Text.eqb_char "[" "{") with false.
      change (Text.eqb_char "[" "[") with true. cbv iota.
      rewrite skip_ws_indent.
      assert (Forall reads (x :: r)) as Hreads.
      { rewrite Forall_forall in IH, Hv |- *. intros y Hy. apply IH; [exact Hy | apply Hv; exact Hy]. }
      inversion Hparts as [|? p ? ps Hx Hps]; subst.
      inversion Hv as [|? ? Hsx _]; subst.
      destruct (join_opens level x p ps
                  (Text.chars (Json.newline_indent level) ++ "]"%char :: rest) Hx Hsx)
        as (c & r' & E & Hws & Hnb).
      rewrite E, (skip_ws_stop c r' Hws). rewrite Hnb, <- E.
      rewrite (scan_elements_join level rest (x :: r) (p :: ps) Hparts ltac:(discriminate)
                 Hreads Hv fuel []); [reflexivity | lia].
  - apply stable_dict in Hv. destruct Hv as [Hnd Hv].
    intros level doc Hd fuel rest Hlen Hrest.
    destruct d as [|kx r].
    + injection Hd as <-. destruct fuel as [|fuel]; [simpl in Hlen; lia | reflexivity].
    + rewrite encode_dict in Hd.
      destruct (encode_items level (kx :: r)) as [parts|e] eqn:Hparts; [|discriminate].
      injection Hd as <-.
      apply encode_items_members in Hparts;
        [|rewrite Forall_forall in Hv |- *; intros y Hy; apply (Hv y Hy)].
      rewrite chars_bracket in Hlen |- *. rewrite !length_app in Hlen.
      change (Text.chars "{") with ["{"%char] in *. change (Text.chars "}") with ["}"%char] in *.
      cbn [length] in Hlen.
      destruct fuel as [|fuel]; [lia|].
      assert (Forall (fun kx => reads (snd kx)) (kx :: r)) as Hreads.
      { rewrite Forall_forall in IH, Hv |- *. intros y Hy. apply IH; [exact Hy | apply Hv; exact Hy]. }
      assert (Forall (fun kx => stable (snd kx)) (kx :: r)) as Hstable.
      { rewrite Forall_forall in Hv |- *. intros y Hy. apply Hv; exact Hy. }
      destruct (scan_members_join level (kx :: r) parts Hparts ltac:(discriminate) Hreads Hstable)
        as (M & EM & HM).
      rewrite EM. repeat (rewrite <- app_assoc; cbn [app]). cbn [Json.scan_value].
      change (Text.eqb_char "{" Text.quote) with false. change (Text.eqb_char "{" "{") with true.
      cbv iota. rewrite skip_ws_indent. cbn [app].
      rewrite (skip_ws_stop Text.quote _ eq_refl).
      change (Text.eqb_char Text.quote "}") with false.
      change (Text.eqb_char Text.quote Text.quote) with true. cbv iota.
      rewrite (HM fuel [] rest) by lia.
      simpl rev. cbn [app]. rewrite dict_of_pairs_distinct; [reflexivity | exact Hnd |].
      rewrite Forall_forall in Hv |- *. intros y Hy. destruct (Hv y Hy) as [(s & Hs & _) _]. eauto.
Qed.

Lemma stable_encodes v : stable v -> forall level, exists doc, Json.encode level v = Ok doc.
Proof.
  induction v as [| b | z | f | s | l IH | d IH] using pyval_ind'; intros Hv level;
    try (eexists; reflexivity).
  - apply stable_list in Hv. destruct l as [|x r]; [eexists; reflexivity|].
    rewrite encode_list.
    assert (exists parts, rmap (Json.encode (S level)) (x :: r) = Ok parts) as [parts ->].
    { clear - IH Hv. induction (x :: r) as [|y l IHl]; [eexists; reflexivity|].
      inversion IH as [|? ? Hy Hl]; subst. inversion Hv as [|? ? Hsy Hsl]; subst.
      destruct (Hy Hsy (S level)) as [p Hp]. destruct (IHl Hl Hsl) as [ps Hps].
      cbn [rmap]. rewrite Hp, Hps. eexists. reflexivity. }
    eexists. reflexivity.
  - apply stable_dict in Hv. destruct Hv as [_ Hv]. destruct d as [|kx r]; [eexists; reflexivity|].
    rewrite encode_dict.
    assert (exists parts, encode_items level (kx :: r) = Ok parts) as [parts ->].
    { clear - IH Hv. induction (kx :: r) as [|[k y] l IHl]; [eexists; reflexivity|].
      inversion IH as [|? ? Hy Hl]; subst. inversion Hv as [|? ? [(s & Hs & _) Hsy] Hsl]; subst.
      simpl in Hs, Hy, Hsy. subst k.
      destruct (Hy Hsy (S level)) as [p Hp]. destruct (IHl Hl Hsl) as [ps Hps].
      cbn [encode_items Json.key_str rbind]. rewrite Hp, Hps. eexists. reflexivity. }
    eexists. reflexivity.
Qed.

(** A stable value is written without an error, and [json.loads] of the
    text is the value. *)
Lemma dumps_loads v :
  stable v -> exists doc, Json.dumps v = Ok doc /\ Json.loads doc = Ok v.
Proof.
  intros Hv. destruct (stable_encodes v Hv 0%nat) as [doc Hd]. exists doc. split; [exact Hd|].
  unfold Json.loads.
  destruct (encode_opens v 0%nat doc [] Hv Hd) as (c & r & E & Hws & _).
  rewrite app_nil_r in E. rewrite E, (skip_ws_stop c r Hws), <- E.
  pose proof (stable_reads v Hv 0%nat doc Hd (2 * length (Text.chars doc) + 2)%nat [] ltac:(lia) eq_refl)
    as H.
  rewrite app_nil_r in H. rewrite H. reflexivity.
Qed.

(** ** ASCII texts *)

Lemma ascii_text_app a b : ascii_text (a +:+ b) = ascii_text a && ascii_text b.
Proof. unfold ascii_text. rewrite chars_app, forallb_app. reflexivity. Qed.

Lemma digit_is_ascii c : Text.is_digit c = true -> (Text.ord c <? 128) = true.
Proof.
  unfold Text.is_digit. intros H. apply andb_true_iff in H. destruct H as [_ H].
  apply Z.leb_le in H. apply Z.ltb_lt. lia.
Qed.

Lemma ascii_pretty (z : Z) : ascii_text (pretty z) = true.
Proof.
  assert (forall p, ascii_text (pretty (Zpos p)) = true) as Hpos.
  { intros p. destruct (chars_pretty_pos p) as (c & r & E & Hdig & _).
    unfold ascii_text. rewrite E. rewrite forallb_forall in Hdig |- *.
    intros x Hx. apply digit_is_ascii, Hdig, Hx. }
  destruct z as [|p|p]; [reflexivity | apply Hpos |].
  change (pretty (Z.neg p)) with ("-" +:+ pretty (Zpos p)).
  rewrite ascii_text_app, Hpos. reflexivity.
Qed.

Lemma ascii_zero_pad width s : ascii_text s = true -> ascii_text (Text.zero_pad width s) = true.
Proof.
  intros Hs. unfold Text.zero_pad. rewrite ascii_text_app, Hs, andb_true_r.
  unfold ascii_text. rewrite chars_text.
  induction (width - String.length s)%nat as [|n IH]; [reflexivity | exact IH].
Qed.

Lemma ascii_fmt_0d width n : ascii_text (Text.fmt_0d width n) = true.
Proof.
  unfold Text.fmt_0d. destruct (n <? 0).
  - rewrite ascii_text_app. simpl. apply ascii_zero_pad, ascii_pretty.
  - apply ascii_zero_pad, ascii_pretty.
Qed.

Lemma ascii_strftime_date t : ascii_text (Clock.strftime_date t) = true.
Proof.
  unfold Clock.strftime_date. destruct (Clock.date_of t) as [[y m] d].
  rewrite !ascii_text_app, !ascii_fmt_0d. reflexivity.
Qed.

Lemma ascii_strftime_time ampm t :
  ascii_locale ampm -> ascii_text (Clock.strftime_time ampm t) = true.
Proof.
  intros H. unfold Clock.strftime_time.
  rewrite !ascii_text_app, !ascii_fmt_0d, H. reflexivity.
Qed.

Lemma ascii_lstrip_char c s : ascii_text s = true -> ascii_text (Text.lstrip_char c s) = true.
Proof.
  unfold ascii_text, Text.lstrip_char. rewrite chars_text. intros H.
  destruct (lstrip_of_spec [[c]] (Text.chars s)) as (parts & _ & E & _).
  { constructor; [discriminate | constructor]. }
  rewrite E, forallb_app in H. apply andb_true_iff in H. tauto.
Qed.

(** The entry of a shiny encounter is stable when the card and the locale
    are ASCII. *)
Lemma stable_shiny_entry ampm c now :
  ascii_locale ampm -> ascii_card c -> stable (shiny_entry ampm c now).
Proof.
  intros Hl [Hd Hn]. unfold shiny_entry. apply stable_dict. split.
  - simpl. repeat constructor; rewrite ?elem_of_cons, ?elem_of_nil; intros H;
      repeat (destruct H as [H | H]; [discriminate H|]); exact H.
  - repeat constructor; simpl; eauto using ascii_lstrip_char, ascii_strftime_time, ascii_strftime_date.
Qed.

(** ** The history comes back *)

Lemma load_shiny_history_reads w doc hist :
  files w !! HISTORY_FILE = Some doc -> Json.loads doc = Ok hist ->
  load_shiny_history w = (Ok hist, w).
Proof.
  intros Hf Hl. unfold load_shiny_history, try_except, bind, read_text, pure.
  rewrite Hf. simpl. rewrite Hl. reflexivity.
Qed.

(** A stable history that was written in full is loaded back as it was. *)
Theorem history_round_trip (hist : pyval) (w : world) :
  stable hist -> next_write_succeeds w ->
  fst (load_shiny_history (snd (save_shiny_history hist w))) = Ok hist.
Proof.
  intros Hs Hw. destruct (dumps_loads hist Hs) as (doc & Hd & Hl).
  destruct (save_outcome HISTORY_FILE (Json.dumps hist) w) as (_ & _ & Hfile).
  specialize (Hfile Hw doc Hd). fold (save_shiny_history hist) in Hfile.
  rewrite (load_shiny_history_reads _ doc hist Hfile Hl). reflexivity.
Qed.

(** ** The ledger comes back, its keys as strings *)

Lemma encode_items_stringified level m :
  int_keyed m -> encode_items level (stringified m) = encode_items level m.
Proof.
  unfold int_keyed. induction 1 as [|[k x] r [z Hz] Hr IH]; [reflexivity|].
  simpl in Hz. subst k. cbn [stringified map str_key fst snd encode_items Json.key_str].
  fold (stringified r). rewrite IH. reflexivity.
Qed.

Lemma encode_stringified level m :
  int_keyed m -> Json.encode level (PDict (stringified m)) = Json.encode level (PDict m).
Proof.
  intros Hk. destruct m as [|kx r]; [reflexivity|].
  change (stringified (kx :: r)) with (str_key kx :: stringified r).
  rewrite !encode_dict. change (str_key kx :: stringified r) with (stringified (kx :: r)).
  rewrite (encode_items_stringified level (kx :: r) Hk). reflexivity.
Qed.

Lemma stable_stringified m : tidy_map m -> stable (PDict (stringified m)).
Proof.
  intros (Hk & Hnd & Hv). apply stable_dict. split.
  - clear Hv. unfold int_keyed in Hk.
    induction m as [|[k x] r IH]; simpl; [constructor|].
    inversion Hk as [|? ? [z Hz] Hkr]; subst. inversion Hnd as [|? ? Hnot Hndr]; subst.
    simpl in Hz. subst k. simpl.
    constructor; [|apply IH; assumption].
    intros Hin. apply Hnot. apply list_elem_of_fmap in Hin. destruct Hin as (kx' & Hk' & Hin).
    apply list_elem_of_fmap in Hin. destruct Hin as ([k'' y] & -> & Hin). simpl in Hk'.
    rewrite Forall_forall in Hkr. destruct (Hkr _ Hin) as [z' Hz']. simpl in Hz'. subst k''.
    simpl in Hk'. injection Hk' as Hp. apply (inj pretty) in Hp. subst z'.
    apply list_elem_of_fmap. exists (PInt z, y). split; [reflexivity | exact Hin].
  - unfold stringified, int_keyed in *. rewrite Forall_forall in Hv, Hk |- *. intros kx Hin.
    apply list_elem_of_fmap in Hin. destruct Hin as ([k x] & -> & Hin).
    destruct (Hk _ Hin) as [z Hz]. simpl in Hz. subst k.
    destruct (Hv _ Hin) as (s & Hs & Ha). simpl in Hs. subst x. simpl.
    split; [exists (pretty z); split; [reflexivity | apply ascii_pretty] | exact Ha].
Qed.

Lemma set_of_list_ints ids : forall acc,
  Forall is_int (acc ++ ids) -> NoDup (acc ++ ids) -> set_of_list ids acc = Ok (acc ++ ids).
Proof.
  induction ids as [|x ids IH]; intros acc Hi Hnd; simpl.
  - rewrite app_nil_r. reflexivity.
  - assert (is_int x) as [z ->].
    { apply Forall_app in Hi. destruct Hi as [_ Hi]. inversion Hi; assumption. }
    simpl. unfold set_add.
    assert (set_mem (PInt z) acc = false) as ->.
    { apply not_true_is_false. intros Hm. apply set_mem_int in Hm.
      - apply NoDup_app in Hnd. destruct Hnd as (_ & Hdisj & _). apply (Hdisj _ Hm). left.
      - apply Forall_app in Hi. tauto. }
    rewrite IH; rewrite <- app_assoc; [reflexivity | exact Hi | exact Hnd].
Qed.

(** The value the ledger document holds after the round trip. *)
Lemma stable_ledger names ids m :
  tidy_ledger names ids m ->
  stable (PDict [ (PStr "names", PList names); (PStr "ids", PList ids);
                  (PStr "names_by_id", PDict (stringified m)) ]).
Proof.
  intros (Hn & Hi & _ & Hm). apply stable_dict. split.
  - simpl. repeat constructor; rewrite ?elem_of_cons, ?elem_of_nil; intros H;
      repeat (destruct H as [H | H]; [discriminate H|]); exact H.
  - constructor; [|constructor; [|constructor; [|constructor]]]; cbn [fst snd];
      (split; [eexists; split; reflexivity|]).
    + apply stable_list. rewrite Forall_forall in Hn |- *. intros x Hx.
      destruct (Hn x Hx) as (s & -> & Ha). exact Ha.
    + apply stable_list. rewrite Forall_forall in Hi |- *. intros x Hx.
      destruct (Hi x Hx) as [z ->]. exact I.
    + apply stable_stringified. exact Hm.
Qed.


(** ** A session and the restart after it *)

Lemma load_tidy_ledger w names ids m :
  tidy_ledger names ids m ->
  (forall doc, ledger_document (PList names) ids (PDict m) = Ok doc ->
               files w !! ENCOUNTER_LOG = Some doc) ->
  load_encounter_data w = (Ok (PList names, ids, PDict (stringified m)), w).
Proof.
  intros Ht Hfile.
  destruct (dumps_loads _ (stable_ledger names ids m Ht)) as (doc & Hd & Hl).
  assert (ledger_document (PList names) ids (PDict m) = Ok doc) as Hdoc.
  { destruct Ht as (_ & _ & _ & Hk & _).
    unfold ledger_document, Json.dumps in *. rewrite encode_dict in Hd |- *.
    cbn [encode_items Json.key_str rbind] in Hd |- *.
    rewrite (encode_stringified 1 m Hk) in Hd. exact Hd. }
  specialize (Hfile doc Hdoc).
  unfold load_encounter_data, try_except, bind, read_text, pure, ret.
  rewrite Hfile. simpl. rewrite Hl. simpl.
  destruct Ht as (_ & Hi & Hnd & _).
  unfold py_set. simpl. unfold key_eqb. simpl.
  rewrite (set_of_list_ints ids [] Hi Hnd). reflexivity.
Qed.

(** The ledger the program builds from ASCII names, written in full and
    loaded back: the names and the ids are those that were saved, and the
    name map has each integer key replaced by its decimal text. *)
Theorem ledger_round_trip (names ids : list pyval) (m : list (pyval * pyval)) (w : world) :
  tidy_ledger names ids m -> next_write_succeeds w ->
  fst (load_encounter_data (snd (save_encounter_data (PList names) ids (PDict m) w)))
  = Ok (PList names, ids, PDict (stringified m)).
Proof.
  intros Ht Hw.
  rewrite (load_tidy_ledger _ names ids m Ht); [reflexivity|].
  intros doc Hdoc.
  destruct (save_outcome ENCOUNTER_LOG (ledger_document (PList names) ids (PDict m)) w)
    as (_ & _ & Hfile).
  apply (Hfile Hw doc Hdoc).
Qed.


Lemma stable_shiny_entries ampm calls :
  ascii_locale ampm -> (forall d, d ∈ calls -> ascii_card (card_of d)) ->
  Forall stable (shiny_entries ampm calls).
Proof.
  intros Hl. induction calls as [|[[c now] now'] rest IH]; intros Hc; [constructor|].
  unfold shiny_entries. cbn [flat_map]. fold (shiny_entries ampm rest).
  apply Forall_app. split; [|apply IH; intros d Hd; apply Hc; right; exact Hd].
  destruct (card_shiny c); [|constructor].
  constructor; [|constructor]. apply stable_shiny_entry; [exact Hl|].
  apply (Hc (c, now, now')). left.
Qed.


(** ** A name map with keys of both kinds *)






(** *** The name map after any number of restarts *)
















(** ** The cache over time *)

Lemma asks_bind {A B} n m (c : M world A) (k : A -> M world B) :
  asks n c -> (forall a, asks m (k a)) -> asks (n + m) (bind c k).
Proof.
  intros Hc Hk w. destruct (Hc w) as (made & E & Hn). unfold bind.
  destruct (c w) as [[a|e] w1]; simpl in *.
  - destruct (Hk a w1) as (made' & E' & Hm). exists (made' ++ made).
    rewrite E', E, app_assoc, length_app. split; [reflexivity | lia].
  - exists made. split; [exact E | lia].
Qed.

Lemma asks_quiet {A} (c : M world A) : spares requested c -> asks 0 c.
Proof. intros H w. exists []. rewrite H. split; [reflexivity | simpl; lia]. Qed.

Lemma asks_more {A} n m (c : M world A) : (n <= m)%nat -> asks n c -> asks m c.
Proof. intros Hnm H w. destruct (H w) as (made & E & Hn). exists made. split; [exact E | lia]. Qed.

Lemma asks_requests_get url : asks 1 (requests_get url).
Proof.
  intros w. exists [url]. unfold requests_get.
  destruct (remote w url); destruct w; simpl; split; (reflexivity || lia).
Qed.

Lemma spares_requested_write_text path data : spares requested (write_text path data).
Proof.
  intros w. unfold write_text. destruct w as [fl rm rq fs im ap]; simpl.
  destruct fs as [|[[|n]|] rest]; reflexivity.
Qed.

Lemma asks_fetch_json url path : asks 1 (fetch_json url path).
Proof.
  unfold fetch_json.
  apply (asks_bind 0 1); [apply asks_quiet; intros w; reflexivity | intros cached].
  destruct cached.
  - apply (asks_more 0); [lia|]. apply (asks_bind 0 0).
    + apply asks_quiet. intros w. unfold read_text. destruct (files w !! path); reflexivity.
    + intros t. apply asks_quiet. apply spares_pure.
  - apply (asks_bind 1 0); [apply asks_requests_get | intros [status body]].
    apply (asks_bind 0 0).
    + apply asks_quiet. intros w. unfold raise_for_status. destruct (error_status status); reflexivity.
    + intros _. apply (asks_bind 0 0); [apply asks_quiet, spares_requested_write_text | intros _].
      apply asks_quiet, spares_pure.
Qed.

(** One generation makes at most three requests: the profile, the species
    and the sprite, each only when it is not in the cache. *)
Theorem generation_asks_at_most_thrice (d : draws) (w : world) :
  (length (requests_made (run d) w) <= 3)%nat.
Proof.
  assert (asks 3 (get_pokemon d)) as H.
  { unfold get_pokemon.
    apply (asks_bind 1 2); [apply asks_fetch_json | intros data].
    apply (asks_bind 1 1); [apply asks_fetch_json | intros species].
    apply (asks_bind 0 1); [apply asks_quiet, spares_pure | intros name].
    apply (asks_bind 0 1); [apply asks_quiet, spares_pure | intros types].
    apply (asks_bind 0 1); [apply asks_quiet, spares_pure | intros flavor].
    apply (asks_bind 0 1); [apply asks_quiet, spares_pure | intros sprite_url].
    apply (asks_bind 0 1); [apply asks_quiet; intros w0; reflexivity | intros present].
    apply (asks_bind 1 0); [| intros _; apply asks_quiet, spares_ret].
    destruct (truthy sprite_url && negb present); [|apply (asks_more 0); [lia | apply asks_quiet, spares_ret]].
    apply (asks_bind 1 0).
    - unfold requests_get_value.
      destruct sprite_url; try (apply (asks_more 0); [lia | apply asks_quiet, spares_throw]).
      apply asks_requests_get.
    - intros [status content]. destruct (negb (error_status status)).
      + apply asks_quiet, spares_requested_write_text.
      + apply asks_quiet, spares_ret. }
  destruct (H w) as (made & E & Hn).
  rewrite <- run_requests in E. rewrite (requests_made_spec (run d) w made E). exact Hn.
Qed.

(** [fetch_json] never writes over a file that exists. *)
Lemma fetch_json_holds url path p t w :
  holds p t w -> holds p t (snd (fetch_json url path w)).
Proof.
  unfold holds. intros Hp. destruct (files w !! path) as [t'|] eqn:Hf.
  - rewrite (fetch_json_hit url path w t' Hf). exact Hp.
  - rewrite (proj2 (fetch_json_frame url path w) p); [exact Hp|]. congruence.
Qed.

(** The cache only grows: a generation, whatever the service answers and
    whatever the disk does, leaves every file that exists as it is. Cached
    documents and sprites are never fetched again, rewritten or removed. *)
Theorem generation_keeps_cached_files (d : draws) (w : world) (p t : string) :
  files w !! p = Some t -> files (snd (run d w)) !! p = Some t.
Proof.
  intros Hp.
  assert (always (holds p t) (get_pokemon d) (holds p t)) as H.
  { unfold get_pokemon.
    apply always_then_keep; [intros w0; apply fetch_json_holds | intros data].
    apply always_then_keep; [intros w0; apply fetch_json_holds | intros species].
    apply always_then_keep; [intros w0 H0; exact H0 | intros name].
    apply always_then_keep; [intros w0 H0; exact H0 | intros types].
    apply always_then_keep; [intros w0 H0; exact H0 | intros flavor].
    apply always_then_keep; [intros w0 H0; exact H0 | intros sprite_url].
    intros w0 H0. unfold holds in *. unfold bind at 1. unfold path_exists at 1. cbn [fst snd].
    match goal with |- context [bool_decide (is_Some (files w0 !! ?sp))] =>
      destruct (files w0 !! sp) as [t0|] eqn:Hs end.
    - rewrite bool_decide_eq_true_2 by eauto. rewrite andb_false_r. exact H0.
    - rewrite bool_decide_eq_false_2 by (intros [? ?]; discriminate).
      unfold bind, ret. destruct (truthy sprite_url && negb false); [|exact H0].
      unfold requests_get_value.
      destruct sprite_url; try exact H0.
      unfold requests_get. destruct (remote w0 s) as [e|status content]; [destruct w0; exact H0|].
      cbn [fst snd]. destruct (negb (error_status status)); [|destruct w0; exact H0].
      match goal with |- context [write_text ?sp content ?w1] =>
        pose proof (spares_write_text p sp content) as Hw;
        assert (p <> sp) as Hne by (intros ->; destruct w0; simpl in *; congruence);
        specialize (Hw Hne w1); unfold stored in Hw;
        destruct (write_text sp content w1) as [[[]|e] w2] end;
        simpl in *; rewrite Hw; destruct w0; exact H0. }
  unfold run, try_except, bind, ret. specialize (H w Hp). unfold holds in H.
  destruct (get_pokemon d w) as [[c|e] w']; exact H.
Qed.

(** ** The lines of a tooltip *)

Lemma first_prefix_none ps l :
  Text.first_prefix ps l = None <-> Forall (fun p => Text.starts_with p l = false) ps.
Proof.
  induction ps as [|p ps IH]; simpl.
  - split; [constructor | reflexivity].
  - destruct (Text.starts_with p l) eqn:Hp.
    + split; [discriminate | intros H; inversion H; congruence].
    + rewrite IH. split; [intros H; constructor; assumption | intros H; inversion H; assumption].
Qed.

(** A boundary that does not hold a newline and starts in [l ++ LF :: rest]
    at the first character of a non-empty [l] starts in [l]. *)
Lemma starts_with_before_newline p l rest :
  Text.LF ∉ p -> Text.starts_with p (l ++ Text.LF :: rest) = true -> Text.starts_with p l = true.
Proof.
  revert l. induction p as [|a p IH]; intros l Hp H; [destruct l; reflexivity|].
  destruct l as [|b l]; simpl in H |- *.
  - apply andb_true_iff in H. destruct H as [H _].
    unfold Text.eqb_char in H. apply Ascii.eqb_eq in H. subst a. destruct Hp. left.
  - apply andb_true_iff in H. destruct H as [H1 H2]. rewrite H1. simpl.
    apply IH; [|exact H2]. intros Hin. apply Hp. right. exact Hin.
Qed.

Lemma no_boundary_before_newline c r rest :
  Text.first_prefix Text.line_breaks (c :: r) = None ->
  Text.first_prefix Text.line_breaks ((c :: r) ++ Text.LF :: rest) = None.
Proof.
  rewrite !first_prefix_none. intros H.
  assert (Text.eqb_char (Text.chr 13) c = false /\ Text.eqb_char (Text.chr 10) c = false) as [H13 H10].
  { unfold Text.line_breaks in H. simpl in H.
    inversion H as [|? ? _ H1]; subst. inversion H1 as [|? ? Ha H2]; subst.
    inversion H2 as [|? ? Hb _]; subst. simpl in Ha, Hb.
    rewrite andb_true_r in Ha, Hb. split; assumption. }
  unfold Text.line_breaks in *. simpl map in *.
  repeat match goal with
         | H : Forall _ (_ :: _) |- _ => inversion H; clear H; subst
         end.
  repeat constructor;
    try (apply not_true_is_false; intros Hs;
         apply (starts_with_before_newline _ (c :: r) rest) in Hs;
         [congruence
         | rewrite ?elem_of_cons, elem_of_nil; intros Hin;
           repeat (destruct Hin as [Hin | Hin]; [vm_compute in Hin; discriminate Hin|]);
           exact Hin]).
  - cbn [app Text.starts_with]. rewrite H13. reflexivity.
  - cbn [app Text.starts_with]. rewrite H10. reflexivity.
Qed.

(** A line without a boundary, then a newline: [split_lines] gives the
    line and goes on behind the newline. *)
Lemma split_lines_line l : forall cur fuel rest,
  no_break l = true -> (length l < fuel)%nat ->
  Text.split_lines fuel cur (l ++ Text.LF :: rest)
  = Text.text (rev cur ++ l) :: Text.split_lines (fuel - length l - 1) [] rest.
Proof.
  induction l as [|c r IH]; intros cur fuel rest Hl Hf.
  - destruct fuel as [|fuel]; [simpl in Hf; lia|].
    simpl. rewrite app_nil_r, Nat.sub_0_r. reflexivity.
  - destruct fuel as [|fuel]; [simpl in Hf; lia|].
    cbn [no_break] in Hl.
    destruct (Text.first_prefix Text.line_breaks (c :: r)) eqn:Hc; [discriminate|].
    cbn [Text.split_lines app].
    change (c :: r ++ Text.LF :: rest) with ((c :: r) ++ Text.LF :: rest).
    rewrite (no_boundary_before_newline c r rest Hc). cbn [app].
    rewrite (IH (c :: cur) fuel rest Hl) by (simpl in Hf; lia).
    simpl. rewrite <- app_assoc. reflexivity.
Qed.

(** The last line. *)
Lemma split_lines_last l : forall cur fuel,
  no_break l = true -> (length l < fuel)%nat -> rev cur ++ l <> [] ->
  Text.split_lines fuel cur l = [Text.text (rev cur ++ l)].
Proof.
  induction l as [|c r IH]; intros cur fuel Hl Hf Hne.
  - destruct fuel as [|fuel]; [simpl in Hf; lia|].
    rewrite app_nil_r in Hne |- *. simpl. destruct cur as [|x cur]; [destruct Hne; reflexivity|].
    reflexivity.
  - destruct fuel as [|fuel]; [simpl in Hf; lia|].
    cbn [no_break] in Hl.
    destruct (Text.first_prefix Text.line_breaks (c :: r)) eqn:Hc; [discriminate|].
    cbn [Text.split_lines]. rewrite Hc.
    rewrite (IH (c :: cur) fuel Hl) by (simpl in Hf; lia || (simpl; rewrite <- app_assoc; simpl;
      intros E; apply app_eq_nil in E; destruct E; discriminate)).
    simpl. rewrite <- app_assoc. reflexivity.
Qed.

Lemma chars_join_newline p ps :
  Text.chars (Text.join (Text.bytes [10%nat]) (p :: ps))
  = match ps with
    | [] => Text.chars p
    | _ => Text.chars p ++ Text.LF :: Text.chars (Text.join (Text.bytes [10%nat]) ps)
    end.
Proof. destruct ps; [reflexivity|]. rewrite join_cons2, !chars_app. reflexivity. Qed.

(** The lines of a listing are the lines listed. *)
Lemma split_lines_join lines : forall fuel,
  lines <> [] -> Forall listable lines ->
  (length (Text.chars (Text.join (Text.bytes [10%nat]) lines)) < fuel)%nat ->
  Text.split_lines fuel [] (Text.chars (Text.join (Text.bytes [10%nat]) lines)) = lines.
Proof.
  induction lines as [|p ps IH]; intros fuel Hne Hl Hf; [contradiction|].
  inversion Hl as [|? ? (Hp1 & Hp2 & _) Hps]; subst.
  rewrite chars_join_newline in Hf |- *. destruct ps as [|p2 ps].
  - rewrite split_lines_last; [simpl; rewrite text_chars; reflexivity | exact Hp2 | exact Hf |].
    simpl. intros E. apply Hp1. rewrite <- (text_chars p), E. reflexivity.
  - rewrite length_app in Hf. cbn [length] in Hf.
    rewrite split_lines_line by (exact Hp2 || lia).
    simpl rev. cbn [app]. rewrite text_chars, IH; [reflexivity | discriminate | exact Hps | lia].
Qed.

Lemma splitlines_listing lines :
  lines <> [] -> Forall listable lines ->
  Text.splitlines (Text.join (Text.bytes [10%nat]) lines) = lines.
Proof.
  intros Hne Hl. unfold Text.splitlines. apply split_lines_join; [exact Hne | exact Hl|].
  rewrite chars_length. lia.
Qed.

Lemma join_not_empty sep p ps : p <> "" -> Text.join sep (p :: ps) <> "".
Proof.
  intros Hp. destruct ps as [|p2 ps]; [exact Hp|]. rewrite join_cons2.
  destruct p; [destruct Hp; reflexivity | discriminate].
Qed.

Lemma listing_snoc lines line :
  listing (lines ++ [line]) = Text.join (Text.bytes [10%nat]) (lines ++ [line]).
Proof. destruct lines; reflexivity. Qed.

(** [_append_shiny_tooltip] on a cell whose tooltip lists [lines]: the
    tooltip lists [lines] and the line of the entry; nothing else
    changes. *)
Lemma append_shiny_tooltip_lists pid entry v w c lines t d :
  dex_cells v !! pid = Some c -> box_tooltip c = listing lines -> Forall listable lines ->
  py_getitem entry (PStr "time") = Ok t -> py_getitem entry (PStr "date") = Ok d ->
  _append_shiny_tooltip pid entry (v, w)
  = (Ok tt, (with_dex_cells
               (<[pid := Cell (pix_lbl c) (name_lbl c)
                              (listing (lines ++ [py_str t +:+ " – " +:+ py_str d]))]>
                  (dex_cells v)) v, w)).
Proof.
  intros Hc Ht Hl Htime Hdate.
  unfold _append_shiny_tooltip, bind, self, pure, update. cbn [fst snd].
  rewrite Hc, Htime, Hdate. cbn [rbind]. cbv zeta. rewrite Ht, listing_snoc.
  destruct lines as [|p ps].
  - assert (String.eqb (listing []) "" = false) as -> by (vm_compute; reflexivity).
    assert (Text.splitlines (listing []) = [listing []]) as -> by (vm_compute; reflexivity).
    cbv iota.
    assert (Text.startswith "No shiny" (listing []) = true) as -> by (vm_compute; reflexivity).
    reflexivity.
  - inversion Hl as [|? ? (Hp1 & _ & Hp3) _]; subst.
    cbn [listing].
    assert (String.eqb (Text.join (Text.bytes [10%nat]) (p :: ps)) "" = false) as ->.
    { apply String.eqb_neq. apply join_not_empty. exact Hp1. }
    rewrite splitlines_listing by (discriminate || exact Hl).
    cbv iota. rewrite Hp3. reflexivity.
Qed.

Lemma lines_of_snoc p items pid line :
  lines_of p (items ++ [(pid, line)])
  = if pid =? p then lines_of p items ++ [line] else lines_of p items.
Proof.
  unfold lines_of. rewrite List.filter_app, map_app. simpl.
  destruct (pid =? p); simpl; [reflexivity | apply app_nil_r].
Qed.

Lemma lines_of_listable p items :
  Forall (fun it => listable (snd it)) items -> Forall listable (lines_of p items).
Proof.
  unfold lines_of. induction 1 as [|it r Hit Hr IH]; simpl; [constructor|].
  destruct (fst it =? p); simpl; [constructor; assumption | exact IH].
Qed.

(** One saved entry replayed on a grid that lists [items]: the grid lists
    [items] and the entry. *)
Lemma replay_entry_lists e it items base v w :
  replays_as e it -> Forall (fun it => listable (snd it)) items ->
  lists_items base (dex_cells v) items ->
  exists cells,
    replay_entry e (v, w) = (Ok tt, (with_dex_cells cells v, w)) /\
    lists_items base cells (items ++ [it]).
Proof.
  intros [(Hid & t & d & Ht & Hd & Hline) Hlistable] Hitems Hgrid.
  destruct it as [pid line]. simpl in Hid, Hline, Hlistable.
  unfold replay_entry. unfold bind at 1, pure at 1.
  change (rbind (py_getitem e (PStr "dex")) (fun dex => int_of_tail dex)) with (replayed_id e).
  rewrite Hid.
  pose proof (Hgrid pid) as Hpid.
  destruct (base !! pid) as [c0|] eqn:Hbase; simpl in Hpid.
  - rewrite (append_shiny_tooltip_lists pid e v w _ (lines_of pid items) (PStr t) (PStr d) Hpid eq_refl
               (lines_of_listable pid items Hitems) Ht Hd).
    eexists. split; [reflexivity|]. intros p. rewrite lines_of_snoc.
    destruct (Z.eqb_spec pid p) as [<- | Hne].
    + rewrite lookup_insert_eq, Hbase. simpl. rewrite Hline. reflexivity.
    + rewrite lookup_insert_ne by congruence. apply Hgrid.
  - rewrite (append_shiny_tooltip_no_slot pid e v w Hpid).
    exists (dex_cells v). split; [destruct v; reflexivity|]. intros p. rewrite lines_of_snoc.
    destruct (Z.eqb_spec pid p) as [<- | Hne]; [|apply Hgrid].
    rewrite Hpid, Hbase. reflexivity.
Qed.

Lemma replay_lists entries : forall items items0 base v w,
  Forall2 replays_as entries items -> Forall (fun it => listable (snd it)) items0 ->
  lists_items base (dex_cells v) items0 ->
  exists cells,
    for_each entries replay_entry (v, w) = (Ok tt, (with_dex_cells cells v, w)) /\
    lists_items base cells (items0 ++ items).
Proof.
  induction entries as [|e entries IH]; intros items items0 base v w HF H0 Hgrid.
  - inversion HF; subst. exists (dex_cells v). rewrite app_nil_r.
    split; [destruct v; reflexivity | exact Hgrid].
  - inversion HF as [|? it ? items' He Hrest]; subst.
    destruct (replay_entry_lists e it items0 base v w He H0 Hgrid) as (cells1 & E1 & H1).
    cbn [for_each]. unfold bind. rewrite E1.
    destruct (IH items' (items0 ++ [it]) base (with_dex_cells cells1 v) w Hrest) as (cells & E & H).
    + apply Forall_app. split; [exact H0|]. constructor; [apply He | constructor].
    + destruct v; exact H1.
    + exists cells. rewrite E. split; [destruct v; reflexivity|].
      rewrite <- app_assoc in H. exact H.
Qed.

(** The loop of [__init__] that initialises the tooltips, on a grid that
    was just built: it returns, it changes the tooltips only, and the
    tooltip of each cell lists, one per line and in their order, the time
    and date of the saved entries whose dex label names the id of the
    cell; a cell no entry names keeps the tooltip of no shiny. *)
Theorem replay_lists_history
    (entries : list pyval) (items : list (Z * string)) (v : PokedexViewer) (w : world) :
  Forall2 replays_as entries items ->
  (forall p c, dex_cells v !! p = Some c -> box_tooltip c = listing []) ->
  exists cells,
    for_each entries replay_entry (v, w) = (Ok tt, (with_dex_cells cells v, w)) /\
    forall p, cells !! p
              = (fun c => Cell (pix_lbl c) (name_lbl c) (listing (lines_of p items)))
                  <$> dex_cells v !! p.
Proof.
  intros HF Hfresh.
  destruct (replay_lists entries items [] (dex_cells v) v w HF) as (cells & E & H).
  - constructor.
  - intros p. destruct (dex_cells v !! p) as [c|] eqn:Hc; [|reflexivity].
    pose proof (Hfresh p c Hc) as Ht. destruct c as [px nm tip]. simpl in Ht. subst tip.
    reflexivity.
  - exists cells. split; [exact E | exact H].
Qed.

(** ** The names of a restarted grid *)

Lemma dict_get_int_str_keyed pid d :
  forallb str_keyed_item d = true -> dict_get (PInt pid) d = None.
Proof.
  induction d as [|[k x] r IH]; simpl; intros H; [reflexivity|].
  apply andb_true_iff in H. destruct H as [Hk Hr].
  unfold str_keyed_item in Hk. simpl in Hk. destruct k; try discriminate.
  unfold key_eqb. simpl. apply IH. exact Hr.
Qed.

(** With a name map keyed by strings, the body of the grid loop never
    finds the name of its id: it leaves a nameless grid nameless. *)
Lemma build_dex_cell_nameless pid d :
  ensures (fun s => nameless (fst s) /\ id_to_name (fst s) = PDict d /\ str_keyed (PDict d) = true)
          (build_dex_cell pid)
          (fun s => nameless (fst s)).
Proof.
  intros [v w] (Hn & Hd & Hk). simpl in Hn, Hd.
  assert (forall cells, (forall p c, cells !! p = Some c -> name_lbl c = "***") ->
            nameless (with_dex_cells cells v)) as Hset.
  { intros cells Hc. destruct v; exact Hc. }
  assert (forall p c, <[pid := Cell grey_placeholder "***" "No shiny encountered yet."]> (dex_cells v) !! p
                      = Some c -> name_lbl c = "***") as H1.
  { intros p c. destruct (decide (p = pid)) as [-> | Hne].
    - rewrite lookup_insert_eq. intros [= <-]. reflexivity.
    - rewrite lookup_insert_ne by congruence. apply Hn. }
  rewrite str_keyed_dict in Hk.
  unfold build_dex_cell, bind, update, self, call, path_exists, QPixmap, pure, ret. cbn [fst snd].
  destruct v as [hist enc ids names lst img dl dls tl sv fl sl stl wt cells]. simpl in *. subst names.
  destruct (set_mem (PInt pid) ids); [|apply (Hset _ H1)].
  simpl. rewrite (dict_get_int_str_keyed pid d Hk).
  destruct (bool_decide _); simpl.
  - apply Hset. intros p c. destruct (decide (p = pid)) as [-> | Hne].
    + rewrite lookup_alter_eq, lookup_insert_eq. simpl. intros [= <-]. reflexivity.
    + rewrite lookup_alter_ne, lookup_insert_ne by congruence.
      intros Hc. apply (Hn p c). exact Hc.
  - apply (Hset _ H1).
Qed.

Lemma for_each_ensures {S A} (P : S -> Prop) (f : A -> M S unit) l :
  (forall a, ensures P (f a) P) -> ensures P (for_each l f) P.
Proof.
  intros Hf. induction l as [|a l IH]; simpl.
  - intros s Hs. exact Hs.
  - eapply ensures_bind; [apply Hf | intros _; exact IH].
Qed.

Lemma append_shiny_tooltip_nameless pid entry :
  ensures (fun s => nameless (fst s)) (_append_shiny_tooltip pid entry)
          (fun s => nameless (fst s)).
Proof.
  intros [v w] Hn. simpl in Hn.
  unfold _append_shiny_tooltip, bind, self, pure, update. cbn [fst snd].
  destruct (dex_cells v !! pid) as [c|] eqn:Hc; [|exact Hn].
  match goal with |- context [rbind ?a ?b] => destruct (rbind a b) as [line|e] end;
    [|exact I].
  simpl. intros p c'. destruct v; simpl in *.
  destruct (decide (p = pid)) as [-> | Hne].
  - rewrite lookup_insert_eq. intros [= <-]. simpl. apply (Hn pid c Hc).
  - rewrite lookup_insert_ne by congruence. apply Hn.
Qed.

Lemma build_dex_cell_names_unread pid :
  ensures (fun s => names_unread (fst s)) (build_dex_cell pid) (fun s => names_unread (fst s)).
Proof.
  intros [v w] [Hk Hn]. cbn [fst] in Hk, Hn.
  assert (keeps id_to_name (build_dex_cell pid)) as Hkeep by (unfold build_dex_cell; frame).
  specialize (Hkeep (v, w)).
  destruct (id_to_name v) as [| | | | | |d] eqn:Hd.
  7: { pose proof (build_dex_cell_nameless pid d (v, w) (conj (Hn eq_refl) (conj Hd Hk))) as H.
       destruct (build_dex_cell pid (v, w)) as [[[]|e] [v' w']]; [|exact I].
       cbn [fst snd] in *. split; rewrite Hkeep, Hd; [exact Hk | intros _; exact H]. }
  all: destruct (build_dex_cell pid (v, w)) as [[[]|e] [v' w']]; [|exact I];
    cbn [fst snd] in *; split; rewrite Hkeep, Hd; [exact Hk | discriminate].
Qed.

Lemma replay_entry_names_unread entry :
  ensures (fun s => names_unread (fst s)) (replay_entry entry) (fun s => names_unread (fst s)).
Proof.
  intros [v w] [Hk Hn]. cbn [fst] in Hk, Hn.
  assert (keeps id_to_name (replay_entry entry)) as Hkeep
    by (unfold replay_entry, _append_shiny_tooltip; frame).
  specialize (Hkeep (v, w)).
  assert (ensures (fun s => nameless (fst s)) (replay_entry entry) (fun s => nameless (fst s))) as H.
  { unfold replay_entry. eapply ensures_bind; [|intros pid; apply append_shiny_tooltip_nameless].
    intros s Hs. unfold pure. destruct (rbind _ _); [exact Hs | exact I]. }
  specialize (H (v, w)).
  destruct (replay_entry entry (v, w)) as [[[]|e] [v' w']]; [|exact I].
  cbn [fst snd] in *. split; rewrite Hkeep; [exact Hk|].
  intros Hdict. apply H, Hn, Hdict.
Qed.

Lemma keeps_names_unread {A} (c : method A) :
  keeps (fun v => (id_to_name v, dex_cells v)) c ->
  ensures (fun s => names_unread (fst s)) c (fun s => names_unread (fst s)).
Proof.
  intros Hkeep [v w] H. specialize (Hkeep (v, w)).
  destruct (c (v, w)) as [[a|e] [v' w']]; [|exact I].
  cbn [fst snd] in *. injection Hkeep as H1 H2.
  unfold names_unread, nameless in *. rewrite H1, H2. exact H.
Qed.

Lemma init_names_unread now :
  ensures (fun s => dex_cells (fst s) = ∅) (__init__ now) (fun s => names_unread (fst s)).
Proof.
  intros [v w] Hv. cbn [fst] in Hv. unfold __init__.
  unfold bind at 1, call at 1. cbn [fst snd].
  destruct (load_shiny_history_returns w) as [h ->].
  unfold bind at 1, update at 1. cbn [fst snd].
  unfold bind at 1, call at 1. cbn [fst snd].
  destruct (load_encounter_data_returns w) as [[[names ids] m] Hl]. rewrite Hl.
  pose proof (loaded_name_map_str_keyed w names ids m) as Hm. rewrite Hl in Hm.
  specialize (Hm eq_refl).
  unfold bind at 1, update at 1. cbn [fst snd].
  match goal with |- match ?k ?s0 with _ => _ end =>
    assert (ensures (fun s => names_unread (fst s)) k (fun s => names_unread (fst s))) as Hrest;
    [|apply (Hrest s0)]
  end.
  - eapply ensures_bind; [apply keeps_names_unread; frame | intros ?].
    eapply ensures_bind; [apply keeps_names_unread; frame | intros ?].
    eapply ensures_bind;
      [apply for_each_ensures; intros p; apply build_dex_cell_names_unread | intros ?].
    eapply ensures_bind; [apply keeps_names_unread; frame | intros v0].
    eapply ensures_bind; [apply keeps_names_unread; frame | intros entries].
    eapply ensures_bind;
      [apply for_each_ensures; intros e; apply replay_entry_names_unread | intros ?].
    eapply ensures_bind; [apply keeps_names_unread; unfold update_stats; frame | intros ?].
    apply keeps_names_unread. unfold update_shiny_delay. frame.
  - destruct v; simpl in *. subst. split; [exact Hm|]. intros _ p c. simpl.
    rewrite lookup_empty. discriminate.
Qed.

(** A name map read from the ledger document is keyed by strings, and the
    grid looks the ids up as ints: when the name map of a started program
    is a dict, no cell of its grid shows a name, whatever the document
    holds. *)
Theorem start_shows_no_saved_name (now : Z) (w : world) (v : PokedexViewer) :
  fst (start now w) = Ok v -> is_dict (id_to_name v) = true -> nameless v.
Proof.
  unfold start. pose proof (init_names_unread now (blank, w) eq_refl) as H.
  destruct (__init__ now (blank, w)) as [[[]|e] [v' w']]; simpl; [|discriminate].
  intros [= <-]. exact (proj2 H).
Qed.

(** ** The statistics name the most frequent *)

Lemma occurrences_app n a b : occurrences n (a ++ b) = occurrences n a + occurrences n b.
Proof. induction a as [|m a IH]; simpl; [reflexivity | rewrite IH; lia]. Qed.

Lemma occurrences_nonneg n l : 0 <= occurrences n l.
Proof. induction l as [|m l IH]; simpl; [lia | destruct (String.eqb m n); lia]. Qed.

Lemma occurrences_absent n l : n ∉ l -> occurrences n l = 0.
Proof.
  induction l as [|m l IH]; simpl; intros H; [reflexivity|].
  rewrite not_elem_of_cons in H. destruct H as [Hne H].
  destruct (String.eqb_spec m n) as [-> | _]; [contradiction|].
  rewrite IH by exact H. reflexivity.
Qed.

Lemma occurrences_present n l : n ∈ l -> 0 < occurrences n l.
Proof.
  induction l as [|m l IH]; simpl; intros H; [inversion H|].
  pose proof (occurrences_nonneg n l).
  destruct (String.eqb_spec m n) as [-> | Hne]; [lia|].
  apply elem_of_cons in H. destruct H as [-> | H]; [contradiction | apply IH in H; lia].
Qed.

Lemma key_eqb_str a b : key_eqb (PStr a) (PStr b) = String.eqb a b.
Proof. reflexivity. Qed.

Lemma py_gt_int a b : py_gt (PInt a) (PInt b) = Ok (b <? a).
Proof.
  simpl. unfold xnum_gtb, fin_compare. simpl. f_equal.
  rewrite !Z.mul_1_r. rewrite Z.ltb_compare, (Z.compare_antisym a b).
  destruct (a ?= b); reflexivity.
Qed.

Lemma dict_get_counts_of_old n keys seen :
  n ∈ keys -> dict_get (PStr n) (counts_of keys seen) = Some (PInt (occurrences n seen)).
Proof.
  induction keys as [|k r IH]; simpl; intros H; [inversion H|].
  rewrite key_eqb_str. destruct (String.eqb_spec k n) as [-> | Hne]; [reflexivity|].
  apply elem_of_cons in H. destruct H as [-> | H]; [contradiction | exact (IH H)].
Qed.

Lemma dict_get_counts_of_new n keys seen :
  n ∉ keys -> dict_get (PStr n) (counts_of keys seen) = None.
Proof.
  induction keys as [|k r IH]; simpl; intros H; [reflexivity|].
  rewrite not_elem_of_cons in H. destruct H as [Hne H].
  rewrite key_eqb_str. destruct (String.eqb_spec k n) as [-> | _]; [contradiction|].
  apply IH. exact H.
Qed.

Lemma counts_of_other n keys seen :
  n ∉ keys -> counts_of keys (seen ++ [n]) = counts_of keys seen.
Proof.
  intros H. unfold counts_of. apply map_ext_in. intros m Hm.
  rewrite occurrences_app. simpl.
  destruct (String.eqb_spec n m) as [-> | _];
    [apply list_elem_of_In in Hm; contradiction|].
  f_equal. f_equal. lia.
Qed.

Lemma dict_set_counts_of_old n keys seen :
  NoDup keys -> n ∈ keys ->
  dict_set (PStr n) (PInt (occurrences n seen + 1)) (counts_of keys seen)
  = counts_of keys (seen ++ [n]).
Proof.
  induction keys as [|k r IH]; simpl; intros Hnd Hin; [inversion Hin|].
  apply NoDup_cons in Hnd. destruct Hnd as [Hk Hr].
  rewrite key_eqb_str. destruct (String.eqb_spec k n) as [-> | Hne].
  - rewrite occurrences_app. simpl. rewrite String.eqb_refl.
    rewrite (counts_of_other n r seen Hk). reflexivity.
  - apply elem_of_cons in Hin. destruct Hin as [-> | Hin]; [contradiction|].
    rewrite (IH Hr Hin), (occurrences_app k). simpl.
    destruct (String.eqb_spec n k) as [-> | _]; [contradiction|].
    rewrite Z.add_0_r. reflexivity.
Qed.

Lemma dict_set_counts_of_new n keys seen :
  n ∉ keys -> n ∉ seen ->
  dict_set (PStr n) (PInt (0 + 1)) (counts_of keys seen)
  = counts_of (keys ++ [n]) (seen ++ [n]).
Proof.
  intros Hk Hs. induction keys as [|k r IH]; simpl.
  - rewrite occurrences_app, occurrences_absent by exact Hs. simpl.
    rewrite String.eqb_refl. reflexivity.
  - rewrite not_elem_of_cons in Hk. destruct Hk as [Hne Hk].
    rewrite key_eqb_str. destruct (String.eqb_spec k n) as [-> | _]; [contradiction|].
    rewrite (IH Hk), (occurrences_app k). simpl.
    destruct (String.eqb_spec n k) as [-> | _]; [contradiction|].
    rewrite Z.add_0_r. reflexivity.
Qed.

Lemma tally_nil : tally [] [].
Proof.
  split; [constructor | split; [tauto|]].
  intros kpre n kpost H. destruct kpre; discriminate.
Qed.

Lemma snoc_split {A} (l pre post : list A) (a x : A) :
  l ++ [a] = pre ++ x :: post ->
  (post = [] /\ l = pre /\ a = x) \/ exists post', post = post' ++ [a] /\ l = pre ++ x :: post'.
Proof.
  destruct post as [|y post] using rev_ind; intros E.
  - apply app_inj_tail in E. destruct E as [-> ->]. left. auto.
  - clear IHpost. change (l ++ [a] = pre ++ (x :: post) ++ [y]) in E.
    rewrite app_assoc in E. apply app_inj_tail in E. destruct E as [-> ->].
    right. exists post. auto.
Qed.

(** Counting one more name keeps the counter a tally. *)
Lemma count_one n keys seen :
  tally keys seen ->
  exists keys',
    dict_set (PStr n)
      (PInt (match dict_get (PStr n) (counts_of keys seen) with Some (PInt k) => k | _ => 0 end + 1))
      (counts_of keys seen)
    = counts_of keys' (seen ++ [n]) /\ tally keys' (seen ++ [n]).
Proof.
  intros (Hnd & Hin & Hord).
  destruct (decide (n ∈ keys)) as [Hk | Hk].
  - exists keys. rewrite dict_get_counts_of_old by exact Hk.
    split; [apply dict_set_counts_of_old; assumption|].
    split; [exact Hnd | split].
    + intros m. rewrite elem_of_app, Hin, list_elem_of_singleton.
      split; [intros [H | ->]; assumption | auto].
    + intros kpre x kpost E. destruct (Hord kpre x kpost E) as (pre & post & -> & Hpre).
      exists pre, (post ++ [n]). rewrite <- app_assoc. split; [reflexivity | exact Hpre].
  - assert (n ∉ seen) as Hs by (rewrite Hin; exact Hk).
    exists (keys ++ [n]). rewrite dict_get_counts_of_new by exact Hk.
    split; [apply dict_set_counts_of_new; assumption|].
    split; [|split].
    + apply NoDup_app. split; [exact Hnd | split; [|apply NoDup_singleton]].
      intros x Hx Hx'. apply list_elem_of_singleton in Hx'. subst x. contradiction.
    + intros m. rewrite !elem_of_app, Hin. tauto.
    + intros kpre x kpost E.
      destruct (snoc_split _ _ _ _ _ E) as [(-> & <- & ->) | (kpost' & -> & E')].
      * exists seen, []. split; [reflexivity|]. intros m. apply Hin.
      * destruct (Hord _ _ _ E') as (pre & post & -> & Hpre).
        exists pre, (post ++ [n]). rewrite <- app_assoc. split; [reflexivity | exact Hpre].
Qed.

Lemma count_all_tally l : forall keys seen,
  tally keys seen ->
  exists keys', count_all (map PStr l) (counts_of keys seen) = Ok (counts_of keys' (seen ++ l)) /\
                tally keys' (seen ++ l).
Proof.
  induction l as [|n l IH]; intros keys seen H; simpl.
  - exists keys. rewrite app_nil_r. auto.
  - destruct (count_one n keys seen H) as (keys1 & -> & H1).
    destruct (IH keys1 (seen ++ [n]) H1) as (keys' & E & H').
    rewrite <- app_assoc in E, H'. exists keys'. auto.
Qed.

Lemma count_names_tally hist : forall names keys seen,
  Forall2 named hist names -> tally keys seen ->
  exists keys', count_names hist (counts_of keys seen) = Ok (counts_of keys' (seen ++ names)) /\
                tally keys' (seen ++ names).
Proof.
  induction hist as [|e hist IH]; intros names keys seen HF H; inversion HF as [|? n ? l Hn Hr]; subst; simpl.
  - exists keys. rewrite app_nil_r. auto.
  - unfold named in Hn. rewrite Hn. simpl.
    destruct (count_one n keys seen H) as (keys1 & -> & H1).
    destruct (IH l keys1 (seen ++ [n]) Hr H1) as (keys' & E & H').
    rewrite <- app_assoc in E, H'. exists keys'. auto.
Qed.

(** [max_by_count] keeps the first of the items with the greatest count. *)
Lemma max_by_count_first names l : forall pre b mid,
  (forall m, m ∈ pre -> occurrences m names < occurrences b names) ->
  (forall m, m ∈ mid -> occurrences m names <= occurrences b names) ->
  exists pre' n post',
    max_by_count (PStr b, PInt (occurrences b names)) (counts_of l names)
      = Ok (PStr n, PInt (occurrences n names)) /\
    pre ++ b :: mid ++ l = pre' ++ n :: post' /\
    (forall m, m ∈ pre' -> occurrences m names < occurrences n names) /\
    (forall m, m ∈ post' -> occurrences m names <= occurrences n names).
Proof.
  induction l as [|x r IH]; intros pre b mid Hpre Hmid.
  - exists pre, b, mid. rewrite app_nil_r. auto.
  - change (counts_of (x :: r) names)
      with ((PStr x, PInt (occurrences x names)) :: counts_of r names).
    cbn [max_by_count snd]. rewrite py_gt_int. cbn [rbind]. destruct (Z.ltb_spec (occurrences b names) (occurrences x names)) as [Hlt | Hge].
    + destruct (IH (pre ++ b :: mid) x []) as (pre' & n & post' & E & Hs & H1 & H2).
      * intros m Hm. apply elem_of_app in Hm. destruct Hm as [Hm | Hm].
        -- specialize (Hpre m Hm). lia.
        -- apply elem_of_cons in Hm. destruct Hm as [-> | Hm]; [lia|].
           specialize (Hmid m Hm). lia.
      * intros m Hm. inversion Hm.
      * exists pre', n, post'. rewrite E. split; [reflexivity|].
        split; [|auto]. rewrite <- Hs, <- app_assoc. reflexivity.
    + destruct (IH pre b (mid ++ [x])) as (pre' & n & post' & E & Hs & H1 & H2).
      * exact Hpre.
      * intros m Hm. apply elem_of_app in Hm. destruct Hm as [Hm | Hm]; [auto|].
        apply list_elem_of_singleton in Hm. subst m. exact Hge.
      * exists pre', n, post'. rewrite E. split; [reflexivity|].
        split; [|auto]. rewrite <- Hs, <- app_assoc. reflexivity.
Qed.

(** The most common item of a tally leads its names. *)
Lemma most_common_1_leads keys names :
  tally keys names ->
  (names = [] /\ most_common_1 (counts_of keys names) = Ok []) \/
  exists n, leads n (occurrences n names) names /\
            most_common_1 (counts_of keys names) = Ok [(PStr n, PInt (occurrences n names))].
Proof.
  intros (Hnd & Hin & Hord). destruct keys as [|k ks].
  - left. split; [|reflexivity]. destruct names as [|m r]; [reflexivity|].
    exfalso. apply (elem_of_nil m), Hin. left.
  - right. simpl.
    destruct (max_by_count_first names ks [] k []) as (pre' & n & post' & E & Hs & H1 & H2).
    + intros m Hm. inversion Hm.
    + intros m Hm. inversion Hm.
    + exists n. rewrite E. split; [|reflexivity]. simpl in Hs.
      split; [reflexivity | split].
      * intros m. destruct (decide (m ∈ names)) as [Hm | Hm].
        -- apply Hin in Hm. rewrite Hs in Hm. apply elem_of_app in Hm.
           destruct Hm as [Hm | Hm]; [specialize (H1 m Hm); lia|].
           apply elem_of_cons in Hm. destruct Hm as [-> | Hm]; [lia | auto].
        -- rewrite (occurrences_absent m names Hm). apply occurrences_nonneg.
      * destruct (Hord _ _ _ Hs) as (before & after & -> & Hb).
        exists before, after. split; [reflexivity|]. intros m Hm. apply H1, Hb, Hm.
Qed.

(** The label of the statistics: the number of encounters; the most
    frequent name with its count, when that is more than one; the most
    frequent shiny with its count, when there is one. Of several names as
    frequent, the one met first is shown. *)
Theorem stats_name_the_most_frequent
    (v : PokedexViewer) (w : world) (names shinies : list string) (hist : list pyval) :
  encounters v = PList (map PStr names) ->
  shiny_history v = PList hist ->
  Forall2 named hist shinies ->
  exists most top,
    update_stats (v, w)
      = (Ok tt, (with_stats_lbl
                   (Text.join "  |" (["🎯 Encounters: " +:+ pretty (Z.of_nat (length names))]
                                     ++ most ++ top)) v, w)) /\
    most_part names most /\ top_part shinies top.
Proof.
  intros He Hh HF.
  destruct (count_all_tally names [] [] tally_nil) as (k1 & E1 & T1).
  destruct (count_names_tally hist shinies [] [] HF tally_nil) as (k2 & E2 & T2).
  simpl in E1, E2, T1, T2.
  unfold update_stats, bind, self, pure, update, ret, py_counter. cbn [fst snd].
  rewrite He, Hh. cbn [py_len py_iter rbind]. rewrite E1, E2, length_map. cbn [rbind].
  destruct (most_common_1_leads k1 names T1) as [[-> ->] | (n & Hn & ->)];
    destruct (most_common_1_leads k2 shinies T2) as [[-> ->] | (s & Hs & ->)];
    cbn [rbind fst snd py_str py_repr]; rewrite ?py_gt_int; cbn [rbind].
  - exists [], []. split; [reflexivity|].
    split; left; split; try reflexivity. intros m. simpl. lia.
  - eexists [], [_]. split; [reflexivity|].
    split; [left; split; [reflexivity | intros m; simpl; lia]|].
    right. exists s, (occurrences s shinies). auto.
  - destruct (Z.ltb_spec 1 (occurrences n names)) as [Hlt | Hge].
    + eexists [_], []. split; [reflexivity|].
      split; [|left; auto]. right. exists n, (occurrences n names). auto.
    + exists [], []. split; [reflexivity|].
      split; [|left; auto]. left. split; [reflexivity|].
      intros m. destruct Hn as (_ & Hmax & _). specialize (Hmax m). lia.
  - destruct (Z.ltb_spec 1 (occurrences n names)) as [Hlt | Hge].
    + eexists [_], [_]. split; [reflexivity|].
      split; right; [exists n, (occurrences n names) | exists s, (occurrences s shinies)]; auto.
    + eexists [], [_]. split; [reflexivity|].
      split; [|right; exists s, (occurrences s shinies); auto].
      left. split; [reflexivity|].
      intros m. destruct Hn as (_ & Hmax & _). specialize (Hmax m). lia.
Qed.

(** ** The further properties at concrete inputs *)

(** A page that is no JSON, served with status 200, is cached and fails
    every later call. *)
Lemma unparsable_response_poisons_cache_witness :
  fst (fetch_json "https://pokeapi.co/api/v2/pokemon/25" "pokesprites/pokemon_25.json"
                  Scene.behind_portal)
    = Raise (Exn JSONDecodeError "Expecting value") /\
  files (snd (fetch_json "https://pokeapi.co/api/v2/pokemon/25" "pokesprites/pokemon_25.json"
                         Scene.behind_portal)) !! "pokesprites/pokemon_25.json"
    = Some "<html>".
Proof.
  destruct (unparsable_response_poisons_cache
              "https://pokeapi.co/api/v2/pokemon/25" "pokesprites/pokemon_25.json"
              Scene.behind_portal 200 "<html>" (Exn JSONDecodeError "Expecting value"))
    as (H1 & H2 & _).
  - reflexivity.
  - reflexivity.
  - reflexivity.
  - exact I.
  - vm_compute. reflexivity.
  - exact (conj H1 H2).
Defined.

(** The shiny Pikachu generated once is generated again from the cache. *)
Lemma cached_pokemon_leaves_world_witness :
  snd (get_pokemon Sample.lucky Scene.warm) = Scene.warm.
Proof.
  apply (cached_pokemon_leaves_world Sample.lucky Scene.warm);
    vm_compute; eexists; reflexivity.
Defined.

(** The card of the shiny draw of id 25. *)
Lemma card_of_a_draw_witness :
  let c := Card 25 "#025" "Pikachu" "Electric" "It keeps its tail  raised."
                "pokesprites/25_shiny.png" true in
  card_pid c = randint Sample.lucky /\
  card_shiny c = (random53 Sample.lucky <? SHINY_THRESHOLD) /\
  card_sprite_path c = sprite_path Sample.lucky /\
  String.length (card_dex c) = 4%nat /\
  int_of_tail (PStr (card_dex c)) = Ok (card_pid c).
Proof.
  apply (card_of_a_draw Sample.lucky Sample.online).
  - vm_compute. split; discriminate.
  - vm_compute. reflexivity.
Defined.

(** Offline, the generation fails and the blank widget shows the error. *)
Lemma failed_generation_shows_error_witness :
  fst (fetch_card Sample.plain Sample.afternoon Sample.afternoon (blank, Sample.offline)) = Ok tt /\
  fst (snd (fetch_card Sample.plain Sample.afternoon Sample.afternoon (blank, Sample.offline)))
    = with_flavor_lbl "Error: Max retries exceeded" blank.
Proof.
  destruct (failed_generation_shows_error Sample.plain Sample.afternoon Sample.afternoon
              blank Sample.offline (Exn RequestException "Max retries exceeded"))
    as (H1 & H2 & _).
  - vm_compute. reflexivity.
  - exact (conj H1 H2).
Defined.

Lemma fresh_started : fst (start Sample.afternoon Sample.offline) = Ok Scene.fresh.
Proof. vm_compute. reflexivity. Qed.

(** The grid of a first run. *)
Lemma start_builds_whole_grid_witness : whole_grid Scene.fresh.
Proof. exact (start_builds_whole_grid Sample.afternoon Sample.offline Scene.fresh fresh_started). Defined.

Lemma fresh_sound : sound Scene.fresh.
Proof.
  split; [|split].
  - exists []. split; [vm_compute; reflexivity | constructor].
  - exists []. vm_compute. reflexivity.
  - exists []. split; [vm_compute; reflexivity | constructor].
Qed.

Lemma fresh_well_shaped : well_shaped Scene.fresh.
Proof. split; [|split]; exists []; vm_compute; reflexivity. Qed.

Lemma fresh_has_cells d : d ∈ Sample.deliveries -> card_pid (card_of d) ∈ grid_ids Scene.fresh.
Proof.
  intros Hd. apply elem_of_dom.
  repeat (apply elem_of_cons in Hd; destruct Hd as [-> | Hd]);
    [vm_compute; eexists; reflexivity .. | inversion Hd].
Qed.

(** Three encounters on the widget of a first run. *)
Lemma session_never_raises_witness :
  all_return Sample.deliveries (Scene.fresh, Sample.offline) /\
  sound (fst (apply_cards Sample.deliveries (Scene.fresh, Sample.offline))).
Proof.
  destruct (session_never_raises Sample.deliveries (grid_ids Scene.fresh) Scene.fresh Sample.offline
              fresh_sound eq_refl fresh_has_cells) as (H1 & H2 & _).
  exact (conj H1 H2).
Defined.

(** A first run without a cache directory content. *)
Lemma first_run_witness :
  exists v, start Sample.afternoon Sample.offline = (Ok v, Sample.offline) /\
            ledger v = empty_ledger /\ stats_lbl v = "🎯 Encounters: 0".
Proof.
  destruct (first_run Sample.afternoon Sample.offline) as (v & H1 & H2 & _ & _ & _ & H3 & _).
  - vm_compute. exact I.
  - vm_compute. exact I.
  - exists v. exact (conj H1 (conj H2 H3)).
Defined.

(** A history document [[{}]] stops the start. *)
Lemma start_fails_on_misshapen_history_witness :
  exists e, fst (start Sample.afternoon Scene.misshapen) = Raise e.
Proof.
  apply (start_fails_on_misshapen_history Sample.afternoon Scene.misshapen "[{}]" (PList [PDict []])).
  - reflexivity.
  - vm_compute. reflexivity.
  - intros entries [= <-]. exists (PDict []), (Exn KeyError "key not found").
    split; [left | vm_compute; reflexivity].
Defined.

(** Of the three sample encounters one is shiny: one entry. *)
Lemma shiny_history_after_encounters_witness :
  shiny_history (fst (apply_cards Sample.deliveries (Scene.fresh, Sample.offline)))
    = PList [ PDict [ (PStr "dex", PStr "#006"); (PStr "name", PStr "Charizard");
                      (PStr "time", PStr "2:15 PM"); (PStr "date", PStr "01/01/2024") ] ].
Proof.
  destruct (shiny_history_after_encounters Sample.deliveries Scene.fresh Sample.offline []
              fresh_well_shaped) as [H _].
  - vm_compute. reflexivity.
  - rewrite H. vm_compute. reflexivity.
Defined.

(** After the three sample encounters both documents are on disk. *)
Lemma session_is_written_through_witness :
  ledger_on_disk (apply_cards Sample.deliveries (Scene.fresh, Sample.offline)) /\
  history_on_disk (apply_cards Sample.deliveries (Scene.fresh, Sample.offline)).
Proof.
  destruct (session_is_written_through Sample.deliveries Scene.fresh Sample.offline
              fresh_well_shaped eq_refl) as [H1 H2].
  - discriminate.
  - split; [exact H1 | apply H2]. right.
    exists (Card 6 "#006" "Charizard" "Fire/Flying" "" "pokesprites/6_shiny.png" true,
            Sample.afternoon, Sample.afternoon).
    split; [right; left | reflexivity].
Defined.

(** The ledger of one encounter does not come back with its integer key. *)
Lemma round_trip_loses_int_keys_witness :
  PDict [ (PStr "25", PStr "Pikachu") ] <> Sample.name_map.
Proof.
  apply (round_trip_loses_int_keys Sample.names Sample.ids [ (PInt 25, PStr "Pikachu") ]
           Sample.offline 25 (PStr "Pikachu") Sample.names Sample.ids).
  - left.
  - vm_compute. reflexivity.
Defined.

Lemma sample_locale_ascii : ascii_locale Sample.AM_PM.
Proof. intros []; reflexivity. Qed.

Lemma sample_cards_ascii d : d ∈ Sample.deliveries -> ascii_card (card_of d).
Proof.
  intros Hd.
  repeat (apply elem_of_cons in Hd; destruct Hd as [-> | Hd]);
    [split; reflexivity .. | inversion Hd].
Qed.

(** The history of the three sample encounters, saved and loaded. *)
Lemma history_round_trip_witness :
  fst (load_shiny_history
         (snd (save_shiny_history (PList (shiny_entries Sample.AM_PM Sample.deliveries))
                                  Sample.offline)))
  = Ok (PList (shiny_entries Sample.AM_PM Sample.deliveries)).
Proof.
  apply (history_round_trip (PList (shiny_entries Sample.AM_PM Sample.deliveries)) Sample.offline).
  - apply stable_list.
    apply (stable_shiny_entries Sample.AM_PM Sample.deliveries sample_locale_ascii sample_cards_ascii).
  - exact I.
Defined.

Lemma sample_ledger_tidy :
  tidy_ledger [ PStr "Pikachu" ] Sample.ids [ (PInt 25, PStr "Pikachu") ].
Proof.
  split; [|split; [|split; [|split; [|split]]]].
  - constructor; [exists "Pikachu"; split; reflexivity | constructor].
  - constructor; [exists 25; reflexivity | constructor].
  - constructor; [rewrite elem_of_nil; tauto | constructor].
  - constructor; [exists 25; reflexivity | constructor].
  - constructor; [rewrite elem_of_nil; tauto | constructor].
  - constructor; [exists "Pikachu"; split; reflexivity | constructor].
Qed.

(** The ledger of one encounter, saved and loaded: the key comes back as
    the text of the id. *)
Lemma ledger_round_trip_witness :
  fst (load_encounter_data
         (snd (save_encounter_data Sample.names Sample.ids Sample.name_map Sample.offline)))
  = Ok (Sample.names, Sample.ids, PDict [ (PStr "25", PStr "Pikachu") ]).
Proof.
  exact (ledger_round_trip [ PStr "Pikachu" ] Sample.ids [ (PInt 25, PStr "Pikachu") ]
           Sample.offline sample_ledger_tidy I).
Defined.


(** A page cached by the first generation is still there after a
    second one. *)
Lemma generation_keeps_cached_files_witness :
  files (snd (run Sample.plain Scene.warm)) !! "pokesprites/pokemon_25.json"
  = Some (Sample.doc Sample.pikachu).
Proof.
  apply (generation_keeps_cached_files Sample.plain Scene.warm).
  vm_compute. reflexivity.
Defined.

Lemma fresh_tooltips p c : dex_cells Scene.fresh !! p = Some c -> box_tooltip c = listing [].
Proof.
  assert (dex_cells Scene.fresh = fresh_cells (seqZ 1 MAX_ID) ∅) as -> by (vm_compute; reflexivity).
  rewrite fresh_cells_lookup, lookup_empty.
  destruct (bool_decide (p ∈ seqZ 1 MAX_ID)); [intros [= <-]; reflexivity | discriminate].
Qed.

Lemma saved_replays : Forall2 replays_as Scene.saved Scene.saved_items.
Proof.
  repeat constructor; try discriminate; try (vm_compute; reflexivity);
    simpl; eexists _, _; (split; [reflexivity | split; reflexivity]).
Qed.

(** Three saved entries replayed on the grid of a first run: the cell of
    id 25 lists its two entries, in order. *)
Lemma replay_lists_history_witness :
  exists cells,
    for_each Scene.saved replay_entry (Scene.fresh, Sample.offline)
      = (Ok tt, (with_dex_cells cells Scene.fresh, Sample.offline)) /\
    box_tooltip <$> cells !! 25
      = Some ("2:15 PM – 01/01/2024" +:+ Text.bytes [10%nat] +:+ "11:30 PM – 03/01/2024").
Proof.
  destruct (replay_lists_history Scene.saved Scene.saved_items Scene.fresh Sample.offline
              saved_replays fresh_tooltips) as (cells & E & H).
  exists cells. split; [exact E|]. rewrite (H 25).
  assert (dex_cells Scene.fresh !! 25 = Some unseen_cell) as -> by (vm_compute; reflexivity).
  reflexivity.
Defined.

(** The restarted sample session has met Pikachu, and shows no name. *)
Lemma start_shows_no_saved_name_witness :
  set_mem (PInt 25) (encounter_ids Scene.restarted) = true /\ nameless Scene.restarted.
Proof.
  split; [vm_compute; reflexivity|].
  apply (start_shows_no_saved_name (Sample.afternoon + 10 * Clock.US_PER_MINUTE)
           (snd (apply_cards Sample.deliveries (Scene.fresh, Sample.offline)))).
  - vm_compute. reflexivity.
  - vm_compute. reflexivity.
Defined.

(** Eevee and Pikachu met twice each, Eevee first; three shinies saved
    under one name. *)
Lemma stats_name_the_most_frequent_witness :
  exists most top,
    update_stats (Scene.busy, Sample.offline)
      = (Ok tt, (with_stats_lbl
                   (Text.join "  |" (["🎯 Encounters: " +:+ pretty (Z.of_nat 4)] ++ most ++ top))
                   Scene.busy, Sample.offline)) /\
    most_part ["Eevee"; "Pikachu"; "Pikachu"; "Eevee"] most /\
    top_part ["Pikachu"; "Pikachu"; "Pikachu"] top.
Proof.
  apply (stats_name_the_most_frequent Scene.busy Sample.offline
           ["Eevee"; "Pikachu"; "Pikachu"; "Eevee"] ["Pikachu"; "Pikachu"; "Pikachu"] Scene.saved).
  - reflexivity.
  - reflexivity.
  - repeat constructor.
Defined.
